(** * Quantum key agreement demo: a shallow embedding of the Python sources

    The development follows three source files of the repository
    ([quantum_e91_demo.py] is a stand-alone demonstration script that none of the
    others import):
    - [quantumkey.py]        (module [QuantumKey]):  key distribution, the
      CHSH check, error-rate estimation, privacy amplification and the
      verdict thresholds of [main];
    - [keydes.py]            (module [KeyDes]):      the [QuantumDES] adapter
      and the key-regeneration loop of [simulate_iot_cloud_communication];
    - [api_server_short.py]  (module [ApiServer]):   [ThreadSafeCache],
      [OptimizedQuantumDES], [calculate_qber] and the request handlers.

    Library functions the sources call (SHA-256, DES in ECB mode, PKCS#7
    padding, base64, UTF-8) are modelled by executable definitions in the
    modules [Sha256], [Des], [Padding], [Base64] and [Utf8].

    Conventions.
    - A Python [int] is a [Z]; a list of bits is a [list Z].
    - A Python [bytes] object is a [list byte].
    - A Python [float] that the code obtains by dividing two small integers
      is represented by the exact rational ([Q]); every threshold the sources
      compare such a value with (0.25, 0.359375, 0.5, 2.5) is a dyadic
      rational, exactly representable in binary floating point, and the
      quotients have denominators far below 2^53, so the comparisons agree.
    - Randomness, the measurement simulator, the order in which a set is
      iterated and the outcome of [request.json] are explicit inputs. *)

From Stdlib Require Import ZArith QArith Qabs Lia List Ascii Strings.Byte Bool.
From stdpp Require Import gmap strings list sorting.
Close Scope Q_scope.
Local Open Scope Z_scope.

(** ** Python prelude: exceptions and a few built-ins *)

Module Py.

Inductive exn :=
| ZeroDivisionError
| IndexError
| ValueError
| TypeError
| UnicodeError
| BinasciiError
| KeyError
| AttributeError
| HTTPException.

Inductive result (A : Type) :=
| Ok (a : A)
| Raise (e : exn).
Arguments Ok {A} a.
Arguments Raise {A} e.

#[global] Instance result_ret : MRet result := fun A a => Ok a.
#[global] Instance result_bind : MBind result := fun A B f m =>
  match m with Ok a => f a | Raise e => Raise e end.
#[global] Instance result_fmap : FMap result := fun A B f m =>
  match m with Ok a => Ok (f a) | Raise e => Raise e end.

Definition is_ok {A} (m : result A) : bool :=
  match m with Ok _ => true | Raise _ => false end.

(** [l[i]] for a non-negative index. *)
Definition index {A} (l : list A) (i : nat) : result A :=
  match l !! i with Some x => Ok x | None => Raise IndexError end.

(** [l[:n]] for any integer [n]: a negative bound counts from the end. *)
Definition slice_to {A} (l : list A) (n : Z) : list A :=
  if 0 <=? n then take (Z.to_nat n) l
  else take (length l - Z.to_nat (- n)) l.

(** [a / b] on integers (true division), as an exact rational. *)
Definition truediv (a b : Z) : result Q :=
  if b =? 0 then Raise ZeroDivisionError
  else Ok (inject_Z a / inject_Z b)%Q.

(** A bit, as the sources use it: the integer 0 or 1. *)
Definition is_bit (b : Z) : Prop := b = 0 \/ b = 1.
Definition is_bitb (b : Z) : bool := (b =? 0) || (b =? 1).

#[global] Instance byte_eq_decision : EqDecision byte := Byte.byte_eq_dec.

(** Conversions between [byte] and [int]. *)
Definition byte_to_Z (b : byte) : Z := Z.of_N (Byte.to_N b).
Definition byte_of_Z (z : Z) : byte :=
  match Byte.of_N (Z.to_N (z mod 256)) with Some b => b | None => x00 end.

(** [bytes(ints)]: every element must be in [range(256)]. *)
Definition bytes_of_ints (ints : list Z) : result (list byte) :=
  mapM (fun z => if (0 <=? z) && (z <? 256) then Ok (byte_of_Z z)
                 else Raise ValueError) ints.

(** [format(byte, '08b')] followed by [int(bit)] on each character: the eight
    bits of the byte, most significant first. *)
Definition byte_bits (b : byte) : list Z :=
  map (fun i => Z.b2z (Z.testbit (byte_to_Z b) (Z.of_nat i))) [7; 6; 5; 4; 3; 2; 1; 0]%nat.

(** The loop both cipher adapters run to build one key byte,
    [for j in range(8): byte = (byte << 1) | bits[i + j]], and the outer loop
    [for i in range(0, 64, 8)] that collects the eight bytes. *)
Fixpoint pack_byte (bits : list Z) (i : nat) (js : list nat) (byte : Z) : result Z :=
  match js with
  | [] => Ok byte
  | j :: js' =>
      b ← index bits (i + j);
      pack_byte bits i js' (Z.lor (Z.shiftl byte 1) b)
  end.

Definition pack_key_bytes (bits : list Z) : result (list Z) :=
  mapM (fun i => pack_byte bits i (seq 0 8) 0) [0; 8; 16; 24; 32; 40; 48; 56]%nat.

(** [sum(a == b for a, b in zip(key1, key2))] *)
Definition count_matches (key1 key2 : list Z) : Z :=
  Z.of_nat (length (filter (fun p => fst p = snd p) (zip key1 key2))).

(** [random.randint(a, b)] on a raw draw [r] of the generator: any value of
    [a..b] can come out, and nothing else. *)
Definition randint (a b : Z) (r : nat) : Z := a + Z.of_nat r mod (b - a + 1).

End Py.
Import Py.

(** ** hashlib.sha256 (FIPS 180-4) *)

Module Sha256.

Definition add32 (x y : Z) : Z := (x + y) mod 4294967296.
Definition rotr (n x : Z) : Z :=
  Z.lor (Z.shiftr x n) ((Z.shiftl x (32 - n)) mod 4294967296).
Definition ch (x y z : Z) : Z :=
  Z.lxor (Z.land x y) (Z.land (Z.lxor x 4294967295) z).
Definition maj (x y z : Z) : Z :=
  Z.lxor (Z.lxor (Z.land x y) (Z.land x z)) (Z.land y z).
Definition bsig0 (x : Z) : Z := Z.lxor (Z.lxor (rotr 2 x) (rotr 13 x)) (rotr 22 x).
Definition bsig1 (x : Z) : Z := Z.lxor (Z.lxor (rotr 6 x) (rotr 11 x)) (rotr 25 x).
Definition ssig0 (x : Z) : Z := Z.lxor (Z.lxor (rotr 7 x) (rotr 18 x)) (Z.shiftr x 3).
Definition ssig1 (x : Z) : Z := Z.lxor (Z.lxor (rotr 17 x) (rotr 19 x)) (Z.shiftr x 10).

(** Round constants, in decimal. *)
Definition round_constants : list Z :=
  [1116352408; 1899447441; 3049323471; 3921009573;
   961987163; 1508970993; 2453635748; 2870763221;
   3624381080; 310598401; 607225278; 1426881987;
   1925078388; 2162078206; 2614888103; 3248222580;
   3835390401; 4022224774; 264347078; 604807628;
   770255983; 1249150122; 1555081692; 1996064986;
   2554220882; 2821834349; 2952996808; 3210313671;
   3336571891; 3584528711; 113926993; 338241895;
   666307205; 773529912; 1294757372; 1396182291;
   1695183700; 1986661051; 2177026350; 2456956037;
   2730485921; 2820302411; 3259730800; 3345764771;
   3516065817; 3600352804; 4094571909; 275423344;
   430227734; 506948616; 659060556; 883997877;
   958139571; 1322822218; 1537002063; 1747873779;
   1955562222; 2024104815; 2227730452; 2361852424;
   2428436474; 2756734187; 3204031479; 3329325298].

Definition state : Type := Z * Z * Z * Z * Z * Z * Z * Z.

Definition initial_state : state :=
  (1779033703, 3144134277, 1013904242, 2773480762,
   1359893119, 2600822924, 528734635, 1541459225).

(** Message padding: a one bit, zeros, and the bit length on 64 bits. *)
Definition length_bytes (nbits : Z) : list Z :=
  map (fun i => Z.shiftr nbits (8 * Z.of_nat i) mod 256) [7; 6; 5; 4; 3; 2; 1; 0]%nat.

Definition pad_message (msg : list Z) : list Z :=
  let n := Z.of_nat (length msg) in
  msg ++ [128] ++ replicate (Z.to_nat ((55 - n) mod 64)) 0 ++ length_bytes (8 * n).

Fixpoint words_of_bytes (fuel : nat) (bs : list Z) : list Z :=
  match fuel, bs with
  | S fuel', b0 :: b1 :: b2 :: b3 :: rest =>
      (16777216 * b0 + 65536 * b1 + 256 * b2 + b3) :: words_of_bytes fuel' rest
  | _, _ => []
  end.

(** The message schedule: sixteen words of the block, extended to 64. *)
Fixpoint extend_schedule (n : nat) (w : list Z) : list Z :=
  match n with
  | O => w
  | S n' =>
      let t := length w in
      let at_ (k : nat) := nth (t - k) w 0 in
      extend_schedule n'
        (w ++ [add32 (add32 (ssig1 (at_ 2%nat)) (at_ 7%nat))
                     (add32 (ssig0 (at_ 15%nat)) (at_ 16%nat))])
  end.

Definition round (s : state) (kw : Z * Z) : state :=
  let '(a, b, c, d, e, f, g, h) := s in
  let t1 := add32 (add32 (add32 h (bsig1 e)) (add32 (ch e f g) (fst kw))) (snd kw) in
  let t2 := add32 (bsig0 a) (maj a b c) in
  (add32 t1 t2, a, b, c, add32 d t1, e, f, g).

Definition compress (s : state) (block : list Z) : state :=
  let '(a, b, c, d, e, f, g, h) := s in
  let '(a', b', c', d', e', f', g', h') :=
    fold_left round (zip round_constants (extend_schedule 48 block)) s in
  (add32 a a', add32 b b', add32 c c', add32 d d',
   add32 e e', add32 f f', add32 g g', add32 h h').

Fixpoint process_blocks (fuel : nat) (s : state) (ws : list Z) : state :=
  match fuel, ws with
  | S fuel', _ :: _ => process_blocks fuel' (compress s (take 16 ws)) (drop 16 ws)
  | _, _ => s
  end.

Definition word_bytes (x : Z) : list byte :=
  [byte_of_Z (Z.shiftr x 24); byte_of_Z (Z.shiftr x 16);
   byte_of_Z (Z.shiftr x 8); byte_of_Z x].

(** [hashlib.sha256(data).digest()] *)
Definition sha256 (data : list byte) : list byte :=
  let padded := pad_message (map byte_to_Z data) in
  let ws := words_of_bytes (length padded) padded in
  let '(a, b, c, d, e, f, g, h) :=
    process_blocks (length ws) initial_state ws in
  word_bytes a ++ word_bytes b ++ word_bytes c ++ word_bytes d ++
  word_bytes e ++ word_bytes f ++ word_bytes g ++ word_bytes h.

End Sha256.

(** ** str.encode() and bytes.decode(): UTF-8, strict

    A Python [str] is the list of its code points. *)

Module Utf8.

Definition encode_char (c : Z) : result (list byte) :=
  if c <? 0 then Raise UnicodeError
  else if c <? 128 then Ok [byte_of_Z c]
  else if c <? 2048 then
    Ok [byte_of_Z (192 + c / 64); byte_of_Z (128 + c mod 64)]
  else if c <? 65536 then
    if (55296 <=? c) && (c <=? 57343) then Raise UnicodeError
    else Ok [byte_of_Z (224 + c / 4096); byte_of_Z (128 + c / 64 mod 64);
             byte_of_Z (128 + c mod 64)]
  else if c <? 1114112 then
    Ok [byte_of_Z (240 + c / 262144); byte_of_Z (128 + c / 4096 mod 64);
        byte_of_Z (128 + c / 64 mod 64); byte_of_Z (128 + c mod 64)]
  else Raise UnicodeError.

Definition encode (s : list Z) : result (list byte) :=
  encoded ← mapM encode_char s;
  Ok (concat encoded).

(** The payload of a continuation byte (10xxxxxx). *)
Definition continuation (b : byte) : result Z :=
  let x := byte_to_Z b in
  if (128 <=? x) && (x <? 192) then Ok (x - 128) else Raise UnicodeError.

(** A decoded scalar value must need the number of bytes it was written
    with, must not be a surrogate and must be below 0x110000. *)
Definition scalar (lo v : Z) : result Z :=
  if (lo <=? v) && (v <? 1114112) && negb ((55296 <=? v) && (v <=? 57343))
  then Ok v else Raise UnicodeError.

Fixpoint decode (bs : list byte) : result (list Z) :=
  match bs with
  | [] => Ok []
  | b0 :: rest =>
      let x := byte_to_Z b0 in
      if x <? 128 then cs ← decode rest; Ok (x :: cs)
      else if x <? 192 then Raise UnicodeError
      else if x <? 224 then
        match rest with
        | b1 :: rest1 =>
            y1 ← continuation b1;
            v ← scalar 128 ((x - 192) * 64 + y1);
            cs ← decode rest1; Ok (v :: cs)
        | _ => Raise UnicodeError
        end
      else if x <? 240 then
        match rest with
        | b1 :: b2 :: rest2 =>
            y1 ← continuation b1;
            y2 ← continuation b2;
            v ← scalar 2048 ((x - 224) * 4096 + y1 * 64 + y2);
            cs ← decode rest2; Ok (v :: cs)
        | _ => Raise UnicodeError
        end
      else if x <? 248 then
        match rest with
        | b1 :: b2 :: b3 :: rest3 =>
            y1 ← continuation b1;
            y2 ← continuation b2;
            y3 ← continuation b3;
            v ← scalar 65536 ((x - 240) * 262144 + y1 * 4096 + y2 * 64 + y3);
            cs ← decode rest3; Ok (v :: cs)
        | _ => Raise UnicodeError
        end
      else Raise UnicodeError
  end.

(** A printable ASCII character: a code point from 32 (space) to 126 (~). *)
Definition printable_ascii (c : Z) : Prop := 32 <= c <= 126.

End Utf8.

(** ** Crypto.Util.Padding: [pad] and [unpad], PKCS#7 style *)

Module Padding.

Definition pad (data_to_pad : list byte) (block_size : nat) : list byte :=
  let padding_len := (block_size - length data_to_pad mod block_size)%nat in
  data_to_pad ++ replicate padding_len (byte_of_Z (Z.of_nat padding_len)).

Definition unpad (padded_data : list byte) (block_size : nat) : result (list byte) :=
  let pdata_len := length padded_data in
  if (pdata_len =? 0)%nat then Raise ValueError
  else if negb (pdata_len mod block_size =? 0)%nat then Raise ValueError
  else
    let padding_len := Z.to_nat (byte_to_Z (List.last padded_data x00)) in
    if (padding_len <? 1)%nat || (Nat.min block_size pdata_len <? padding_len)%nat
    then Raise ValueError
    else if bool_decide (drop (pdata_len - padding_len) padded_data =
                         replicate padding_len (byte_of_Z (Z.of_nat padding_len)))
    then Ok (take (pdata_len - padding_len) padded_data)
    else Raise ValueError.

End Padding.

(** ** base64.b64encode and base64.b64decode (binascii, non-strict mode) *)

Module Base64.

Definition alphabet : list byte :=
  String.list_byte_of_string
    "ABCDEFGHIJKLMNOPQRSTUVWXYZabcdefghijklmnopqrstuvwxyz0123456789+/".

Definition pad_char : byte := "="%byte.

Definition char_of (i : Z) : byte := nth (Z.to_nat i) alphabet pad_char.

(** Position of a character in the alphabet. *)
Fixpoint find_index (table : list byte) (ch : byte) (i : Z) : option Z :=
  match table with
  | [] => None
  | x :: table' => if Byte.eqb x ch then Some i else find_index table' ch (i + 1)
  end.
Definition value_of (ch : byte) : option Z := find_index alphabet ch 0.

Fixpoint b64encode (s : list byte) : list byte :=
  match s with
  | [] => []
  | [a] =>
      let a := byte_to_Z a in
      [char_of (a / 4); char_of (a mod 4 * 16); pad_char; pad_char]
  | [a; b] =>
      let a := byte_to_Z a in
      let b := byte_to_Z b in
      [char_of (a / 4); char_of (a mod 4 * 16 + b / 16);
       char_of (b mod 16 * 4); pad_char]
  | a :: b :: c :: rest =>
      let a := byte_to_Z a in
      let b := byte_to_Z b in
      let c := byte_to_Z c in
      char_of (a / 4) :: char_of (a mod 4 * 16 + b / 16) ::
      char_of (b mod 16 * 4 + c / 64) :: char_of (c mod 64) :: b64encode rest
  end.

(** The decoder of [binascii.a2b_base64]: [quad_pos] counts the data
    characters of the current group, [leftchar] holds the bits not yet
    written, [pads] the padding characters just seen. A character outside
    the alphabet is skipped; enough padding ends the decoding. *)
Fixpoint a2b_loop (chars : list byte) (quad_pos leftchar pads : Z)
    (bin_data : list byte) : result (list byte) :=
  match chars with
  | [] =>
      if quad_pos =? 0 then Ok bin_data else Raise BinasciiError
  | ch :: chars' =>
      if Byte.eqb ch pad_char then
        if (2 <=? quad_pos) && (4 <=? quad_pos + (pads + 1)) then Ok bin_data
        else a2b_loop chars' quad_pos leftchar (pads + 1) bin_data
      else
        match value_of ch with
        | None => a2b_loop chars' quad_pos leftchar pads bin_data
        | Some this_ch =>
            if quad_pos =? 0 then a2b_loop chars' 1 this_ch 0 bin_data
            else if quad_pos =? 1 then
              a2b_loop chars' 2 (this_ch mod 16) 0
                (bin_data ++ [byte_of_Z (leftchar * 4 + this_ch / 16)])
            else if quad_pos =? 2 then
              a2b_loop chars' 3 (this_ch mod 4) 0
                (bin_data ++ [byte_of_Z (leftchar * 16 + this_ch / 4)])
            else
              a2b_loop chars' 0 0 0
                (bin_data ++ [byte_of_Z (leftchar * 64 + this_ch)])
        end
  end.

Definition a2b_base64 (data : list byte) : result (list byte) :=
  a2b_loop data 0 0 0 [].

(** [base64.b64decode(s)] for a [str] argument: the text must be ASCII. *)
Definition ascii_bytes (s : list Z) : result (list byte) :=
  mapM (fun c => if (0 <=? c) && (c <? 128) then Ok (byte_of_Z c)
                 else Raise ValueError) s.

Definition b64decode (s : list Z) : result (list byte) :=
  data ← ascii_bytes s;
  a2b_base64 data.

End Base64.

(** ** Crypto.Cipher.DES in ECB mode (FIPS 46-3) *)

Module Des.

(** Bit [i] of the output is bit [table[i]] of the input, counted from 1. *)
Definition permute (table : list nat) (bits : list bool) : list bool :=
  map (fun i => nth (i - 1) bits false) table.

Definition initial_permutation : list nat :=
  [58; 50; 42; 34; 26; 18; 10; 2;  60; 52; 44; 36; 28; 20; 12; 4;
   62; 54; 46; 38; 30; 22; 14; 6;  64; 56; 48; 40; 32; 24; 16; 8;
   57; 49; 41; 33; 25; 17; 9; 1;   59; 51; 43; 35; 27; 19; 11; 3;
   61; 53; 45; 37; 29; 21; 13; 5;  63; 55; 47; 39; 31; 23; 15; 7]%nat.

Definition final_permutation : list nat :=
  [40; 8; 48; 16; 56; 24; 64; 32;  39; 7; 47; 15; 55; 23; 63; 31;
   38; 6; 46; 14; 54; 22; 62; 30;  37; 5; 45; 13; 53; 21; 61; 29;
   36; 4; 44; 12; 52; 20; 60; 28;  35; 3; 43; 11; 51; 19; 59; 27;
   34; 2; 42; 10; 50; 18; 58; 26;  33; 1; 41; 9; 49; 17; 57; 25]%nat.

Definition expansion : list nat :=
  [32; 1; 2; 3; 4; 5;  4; 5; 6; 7; 8; 9;  8; 9; 10; 11; 12; 13;
   12; 13; 14; 15; 16; 17;  16; 17; 18; 19; 20; 21;  20; 21; 22; 23; 24; 25;
   24; 25; 26; 27; 28; 29;  28; 29; 30; 31; 32; 1]%nat.

Definition round_permutation : list nat :=
  [16; 7; 20; 21; 29; 12; 28; 17;  1; 15; 23; 26; 5; 18; 31; 10;
   2; 8; 24; 14; 32; 27; 3; 9;  19; 13; 30; 6; 22; 11; 4; 25]%nat.

Definition permuted_choice_1 : list nat :=
  [57; 49; 41; 33; 25; 17; 9;  1; 58; 50; 42; 34; 26; 18;
   10; 2; 59; 51; 43; 35; 27;  19; 11; 3; 60; 52; 44; 36;
   63; 55; 47; 39; 31; 23; 15;  7; 62; 54; 46; 38; 30; 22;
   14; 6; 61; 53; 45; 37; 29;  21; 13; 5; 28; 20; 12; 4]%nat.

Definition permuted_choice_2 : list nat :=
  [14; 17; 11; 24; 1; 5;  3; 28; 15; 6; 21; 10;
   23; 19; 12; 4; 26; 8;  16; 7; 27; 20; 13; 2;
   41; 52; 31; 37; 47; 55;  30; 40; 51; 45; 33; 48;
   44; 49; 39; 56; 34; 53;  46; 42; 50; 36; 29; 32]%nat.

Definition shift_table : list nat :=
  [1; 1; 2; 2; 2; 2; 2; 2; 1; 2; 2; 2; 2; 2; 2; 1]%nat.

Definition sboxes : list (list nat) :=
  [ [14; 4; 13; 1; 2; 15; 11; 8; 3; 10; 6; 12; 5; 9; 0; 7;
     0; 15; 7; 4; 14; 2; 13; 1; 10; 6; 12; 11; 9; 5; 3; 8;
     4; 1; 14; 8; 13; 6; 2; 11; 15; 12; 9; 7; 3; 10; 5; 0;
     15; 12; 8; 2; 4; 9; 1; 7; 5; 11; 3; 14; 10; 0; 6; 13];
    [15; 1; 8; 14; 6; 11; 3; 4; 9; 7; 2; 13; 12; 0; 5; 10;
     3; 13; 4; 7; 15; 2; 8; 14; 12; 0; 1; 10; 6; 9; 11; 5;
     0; 14; 7; 11; 10; 4; 13; 1; 5; 8; 12; 6; 9; 3; 2; 15;
     13; 8; 10; 1; 3; 15; 4; 2; 11; 6; 7; 12; 0; 5; 14; 9];
    [10; 0; 9; 14; 6; 3; 15; 5; 1; 13; 12; 7; 11; 4; 2; 8;
     13; 7; 0; 9; 3; 4; 6; 10; 2; 8; 5; 14; 12; 11; 15; 1;
     13; 6; 4; 9; 8; 15; 3; 0; 11; 1; 2; 12; 5; 10; 14; 7;
     1; 10; 13; 0; 6; 9; 8; 7; 4; 15; 14; 3; 11; 5; 2; 12];
    [7; 13; 14; 3; 0; 6; 9; 10; 1; 2; 8; 5; 11; 12; 4; 15;
     13; 8; 11; 5; 6; 15; 0; 3; 4; 7; 2; 12; 1; 10; 14; 9;
     10; 6; 9; 0; 12; 11; 7; 13; 15; 1; 3; 14; 5; 2; 8; 4;
     3; 15; 0; 6; 10; 1; 13; 8; 9; 4; 5; 11; 12; 7; 2; 14];
    [2; 12; 4; 1; 7; 10; 11; 6; 8; 5; 3; 15; 13; 0; 14; 9;
     14; 11; 2; 12; 4; 7; 13; 1; 5; 0; 15; 10; 3; 9; 8; 6;
     4; 2; 1; 11; 10; 13; 7; 8; 15; 9; 12; 5; 6; 3; 0; 14;
     11; 8; 12; 7; 1; 14; 2; 13; 6; 15; 0; 9; 10; 4; 5; 3];
    [12; 1; 10; 15; 9; 2; 6; 8; 0; 13; 3; 4; 14; 7; 5; 11;
     10; 15; 4; 2; 7; 12; 9; 5; 6; 1; 13; 14; 0; 11; 3; 8;
     9; 14; 15; 5; 2; 8; 12; 3; 7; 0; 4; 10; 1; 13; 11; 6;
     4; 3; 2; 12; 9; 5; 15; 10; 11; 14; 1; 7; 6; 0; 8; 13];
    [4; 11; 2; 14; 15; 0; 8; 13; 3; 12; 9; 7; 5; 10; 6; 1;
     13; 0; 11; 7; 4; 9; 1; 10; 14; 3; 5; 12; 2; 15; 8; 6;
     1; 4; 11; 13; 12; 3; 7; 14; 10; 15; 6; 8; 0; 5; 9; 2;
     6; 11; 13; 8; 1; 4; 10; 7; 9; 5; 0; 15; 14; 2; 3; 12];
    [13; 2; 8; 4; 6; 15; 11; 1; 10; 9; 3; 14; 5; 0; 12; 7;
     1; 15; 13; 8; 10; 3; 7; 4; 12; 5; 6; 11; 0; 14; 9; 2;
     7; 11; 4; 1; 9; 12; 14; 2; 0; 6; 10; 13; 15; 3; 5; 8;
     2; 1; 14; 7; 4; 10; 8; 13; 15; 12; 9; 0; 3; 5; 6; 11] ]%nat.

Definition xor_bits (x y : list bool) : list bool := zip_with xorb x y.

Definition nat_of_bits (bits : list bool) : nat :=
  fold_left (fun acc (b : bool) => (2 * acc + if b then 1 else 0)%nat) bits 0%nat.

Definition nibble_bits (n : nat) : list bool :=
  [Nat.testbit n 3; Nat.testbit n 2; Nat.testbit n 1; Nat.testbit n 0].

(** One S-box: the outer two of six bits select the row, the inner four
    the column. *)
Definition sbox_lookup (box : list nat) (six : list bool) : list bool :=
  match six with
  | [b1; b2; b3; b4; b5; b6] =>
      nibble_bits
        (nth (16 * nat_of_bits [b1; b6] + nat_of_bits [b2; b3; b4; b5]) box 0%nat)
  | _ => []
  end.

Fixpoint substitute (boxes : list (list nat)) (bits : list bool) : list bool :=
  match boxes with
  | [] => []
  | box :: boxes' => sbox_lookup box (take 6 bits) ++ substitute boxes' (drop 6 bits)
  end.

(** The cipher function f(R, K). *)
Definition feistel (r k : list bool) : list bool :=
  permute round_permutation
    (substitute sboxes (xor_bits (permute expansion r) k)).

Definition rotate_left (n : nat) (bits : list bool) : list bool :=
  drop n bits ++ take n bits.

Fixpoint subkeys (shifts : list nat) (c d : list bool) : list (list bool) :=
  match shifts with
  | [] => []
  | s :: shifts' =>
      let c' := rotate_left s c in
      let d' := rotate_left s d in
      permute permuted_choice_2 (c' ++ d') :: subkeys shifts' c' d'
  end.

Definition key_schedule (key : list bool) : list (list bool) :=
  let cd := permute permuted_choice_1 key in
  subkeys shift_table (take 28 cd) (drop 28 cd).

Definition round (lr : list bool * list bool) (k : list bool)
  : list bool * list bool :=
  (snd lr, xor_bits (fst lr) (feistel (snd lr) k)).

(** Sixteen rounds between the initial and the final permutation; the
    halves are swapped before the latter. *)
Definition crypt_bits (ks : list (list bool)) (block : list bool) : list bool :=
  let ip := permute initial_permutation block in
  let lr := fold_left round ks (take 32 ip, drop 32 ip) in
  permute final_permutation (snd lr ++ fst lr).

(** Bytes and bits, most significant bit first. *)
Definition bits_of_byte (b : byte) : list bool :=
  let '(b0, (b1, (b2, (b3, (b4, (b5, (b6, b7))))))) := Byte.to_bits b in
  [b7; b6; b5; b4; b3; b2; b1; b0].

Definition bits_of_bytes (bs : list byte) : list bool :=
  concat (map bits_of_byte bs).

Fixpoint bytes_of_bits (bits : list bool) : list byte :=
  match bits with
  | b7 :: b6 :: b5 :: b4 :: b3 :: b2 :: b1 :: b0 :: rest =>
      Byte.of_bits (b0, (b1, (b2, (b3, (b4, (b5, (b6, b7))))))) :: bytes_of_bits rest
  | _ => []
  end.

Definition encrypt_block (key block : list byte) : list byte :=
  bytes_of_bits (crypt_bits (key_schedule (bits_of_bytes key)) (bits_of_bytes block)).

Definition decrypt_block (key block : list byte) : list byte :=
  bytes_of_bits
    (crypt_bits (reverse (key_schedule (bits_of_bytes key))) (bits_of_bytes block)).

(** Electronic codebook: every 8-byte block on its own. *)
Fixpoint ecb (f : list byte -> list byte) (data : list byte) : list byte :=
  match data with
  | b0 :: b1 :: b2 :: b3 :: b4 :: b5 :: b6 :: b7 :: rest =>
      f [b0; b1; b2; b3; b4; b5; b6; b7] ++ ecb f rest
  | _ => []
  end.

Definition block_size : nat := 8.

(** The cipher object of [DES.new(key, DES.MODE_ECB)]. *)
Record cipher := Cipher { cipher_key : list byte }.

Definition new (key : list byte) : result cipher :=
  if (length key =? 8)%nat then Ok (Cipher key) else Raise ValueError.

Definition encrypt (c : cipher) (plaintext : list byte) : result (list byte) :=
  if (length plaintext mod block_size =? 0)%nat
  then Ok (ecb (encrypt_block (cipher_key c)) plaintext)
  else Raise ValueError.

Definition decrypt (c : cipher) (ciphertext : list byte) : result (list byte) :=
  if (length ciphertext mod block_size =? 0)%nat
  then Ok (ecb (decrypt_block (cipher_key c)) ciphertext)
  else Raise ValueError.

End Des.

(** ** quantumkey.py *)

Module QuantumKey.

(** One trial of [quantum_key_distribution]: the two bases drawn by
    [np.random.randint(2)] and the two characters of the measured state, as
    the simulator returned them. *)
Record trial := Trial {
  alice_basis : Z;
  bob_basis : Z;
  alice_bit : Z;
  bob_bit : Z
}.

(** [quantum_key_distribution(num_bits)]: [outcome i] is what trial [i]
    draws and measures. *)
Definition quantum_key_distribution (outcome : nat -> trial) (num_bits : Z)
  : list Z * list Z * list Z * list nat :=
  let trials := map outcome (seq 0 (Z.to_nat (num_bits * 2))) in
  let alice_bases := map alice_basis trials in
  let bob_bases := map bob_basis trials in
  let alice_bits := map alice_bit trials in
  let bob_bits := map bob_bit trials in
  let matching_bases :=
    filter (fun i => nth i alice_bases 0 = nth i bob_bases 0)
           (seq 0 (length alice_bases)) in
  let shared_key := map (fun i => nth i alice_bits 0) matching_bases in
  (shared_key,
   map (fun i => nth i alice_bits 0) matching_bases,
   map (fun i => nth i bob_bits 0) matching_bases,
   matching_bases).

(** [(ba, bb) in [(0, 0), (0, 1), (1, 0), (1, 1)]] *)
Definition canonical_bases (ba bb : Z) : bool :=
  existsb (fun p => (ba =? fst p) && (bb =? snd p)) [(0, 0); (0, 1); (1, 0); (1, 1)].

(** [(-1) ** n]: 1 or -1 by the parity of [n] (for a negative [n] Python
    answers with the float of the same value). *)
Definition neg_one_pow (n : Z) : Z := if Z.even n then 1 else -1.

(** The loop of [verify_bell_inequality] over the zipped lists; the
    accumulators are [correlations] and [count]. *)
Fixpoint chsh_loop (alice_bits bob_bits alice_bases bob_bases : list Z)
    (correlations count : Z) : Z * Z :=
  match alice_bits, bob_bits, alice_bases, bob_bases with
  | a :: alice_bits', b :: bob_bits', ba :: alice_bases', bb :: bob_bases' =>
      if canonical_bases ba bb
      then chsh_loop alice_bits' bob_bits' alice_bases' bob_bases'
             (correlations + neg_one_pow (Z.lxor a b)) (count + 1)
      else chsh_loop alice_bits' bob_bits' alice_bases' bob_bases'
             correlations count
  | _, _, _, _ => (correlations, count)
  end.

Definition verify_bell_inequality
    (alice_bits bob_bits alice_bases bob_bases : list Z) : bool :=
  let '(correlations, count) :=
    chsh_loop alice_bits bob_bits alice_bases bob_bases 0 0 in
  if count =? 0 then false
  else
    let chsh_value := Qabs (inject_Z (2 * correlations) / inject_Z count) in
    negb (Qle_bool chsh_value (5 # 2)).

(** [np.random.choice(a, size, replace=False)]: numpy rejects an empty
    population with a non-empty sample and a sample larger than the
    population; otherwise the generator's [pick] is returned ([size] distinct
    indices below [a], see [valid_pick]). *)
Definition np_random_choice (pick : list nat) (a size : nat) : result (list nat) :=
  if (a =? 0)%nat && negb (size =? 0)%nat then Raise ValueError
  else if (a <? size)%nat then Raise ValueError
  else Ok pick.

Definition valid_pick (pick : list nat) (a size : nat) : Prop :=
  length pick = size /\ NoDup pick /\ Forall (fun i => (i < a)%nat) pick.

(** The default of [sample_size]: [min(len(bits1) // 4, 100)]. *)
Definition default_sample_size (n : nat) : nat := Nat.min (n / 4) 100.

(** [sum(1 for i in sample_indices if bits1[i] != bits2[i])] *)
Fixpoint count_errors (bits1 bits2 : list Z) (sample_indices : list nat) : result Z :=
  match sample_indices with
  | [] => Ok 0
  | i :: rest =>
      x ← index bits1 i;
      y ← index bits2 i;
      n ← count_errors bits1 bits2 rest;
      Ok (if x =? y then n else 1 + n)
  end.

(** [list(set(range(n)) - set(sample_indices))]: the indices that were not
    sampled, in the order in which the set is iterated. Python leaves that
    order open (it is the order of the slots of the set's hash table):
    [slot i] ranks the element [i], and the list runs through the elements
    by rank. Every arrangement of the kept indices is the one of some
    [slot]. *)
Definition by_slot (slot : nat -> nat) : relation nat :=
  fun i j => (slot i <= slot j)%nat.

#[global] Instance by_slot_dec slot i j : Decision (by_slot slot i j) :=
  decide (slot i <= slot j)%nat.

Definition kept_indices (slot : nat -> nat) (n : nat) (sample_indices : list nat)
  : list nat :=
  merge_sort (by_slot slot) (filter (fun i => i ∉ sample_indices) (seq 0 n)).

(** [estimate_error_rate(bits1, bits2, sample_size=None)]; a [sample_size]
    of 0 counts as unspecified ([if not sample_size]). *)
Definition estimate_error_rate (pick : list nat) (slot : nat -> nat)
    (bits1 bits2 : list Z) (sample_size : option nat)
  : result (Q * list Z * list Z) :=
  let sample_size :=
    match sample_size with
    | Some (S n) => S n
    | _ => default_sample_size (length bits1)
    end in
  sample_indices ← np_random_choice pick (length bits1) sample_size;
  let sample_indices := merge_sort Nat.le sample_indices in
  errors ← count_errors bits1 bits2 sample_indices;
  error_rate ← truediv errors (Z.of_nat sample_size);
  let keep_indices := kept_indices slot (length bits1) sample_indices in
  remaining_bits1 ← mapM (index bits1) keep_indices;
  remaining_bits2 ← mapM (index bits2) keep_indices;
  Ok (error_rate, remaining_bits1, remaining_bits2).

(** The integer one group of at most eight bits stands for:
    [sum([bit << i for i, bit in enumerate(group[::-1])])]. *)
Definition group_value (group : list Z) : Z :=
  foldr Z.add 0 (imap (fun i bit => Z.shiftl bit (Z.of_nat i)) (reverse group)).

(** [[key_bits[i:i+8] for i in range(0, len(key_bits), 8)]] *)
Fixpoint groups_of_8 (fuel : nat) (key_bits : list Z) : list (list Z) :=
  match fuel, key_bits with
  | S fuel', _ :: _ => take 8 key_bits :: groups_of_8 fuel' (drop 8 key_bits)
  | _, _ => []
  end.

(** The length [privacy_amplification] truncates to: the argument, or
    [max(len(key_bits) // 2, 8)] when it is [None] or 0. *)
Definition effective_final_length (key_bits : list Z) (final_length : option Z) : Z :=
  match final_length with
  | Some n => if n =? 0 then Z.max (Z.of_nat (length key_bits) / 2) 8 else n
  | None => Z.max (Z.of_nat (length key_bits) / 2) 8
  end.

Definition privacy_amplification (key_bits : list Z) (final_length : option Z)
  : result (list Z) :=
  let final_length := effective_final_length key_bits final_length in
  key_bytes ← bytes_of_ints
    (map group_value (groups_of_8 (length key_bits) key_bits));
  let hashed := Sha256.sha256 key_bytes in
  let amplified_key := concat (map byte_bits hashed) in
  Ok (slice_to amplified_key final_length).

(** The verdicts of [main] (lines 202-214). *)
Inductive verdict := Safe | Significant | Critical | Severe.

(** The [if]/[elif] chain of [main] on the estimated error rate. *)
Definition classify_error_rate (error_rate : Q) : verdict :=
  if Qle_bool error_rate (1 # 4) then Safe
  else if Qle_bool error_rate (23 # 64) then Significant
  else if Qle_bool error_rate (1 # 2) then Critical
  else Severe.

(** Only the first branch goes on to the key; the others [return]. *)
Definition key_accepted (v : verdict) : bool :=
  match v with Safe => true | _ => false end.

(** *** [main]

    [main] reads [alice_bases] and [bob_bases], two names that are bound
    only inside [quantum_key_distribution]; looking either of them up raises
    [NameError]. They stand in the element expression of a list
    comprehension over [matching_bases], which is evaluated once per
    element, so the lookup happens only when [matching_bases] has an
    element. The calls of [print] are not represented. *)
Inductive main_exn := NameError | Raised (e : exn).

(** [[alice_bases[i] for i in matching_bases]] inside [main] *)
Definition unbound_bases (matching_bases : list nat) : main_exn + list Z :=
  match matching_bases with
  | [] => inr []
  | _ :: _ => inl NameError
  end.

(** The body of the [try] statement: an exception that leaves it, or the
    value a [return] gives ([None] for a bare [return] and for the end of
    the body). *)
Definition main_try (outcome : nat -> trial) (pick : list nat)
    (slot : nat -> nat) : main_exn + option (list Z) :=
  let target_key_length := 16 in
  let '(shared_key, alice_bits, bob_bits, matching_bases) :=
    quantum_key_distribution outcome target_key_length in
  match unbound_bases matching_bases with
  | inl e => inl e
  | inr alice_bases =>
  match unbound_bases matching_bases with
  | inl e => inl e
  | inr bob_bases =>
      let is_secure :=
        verify_bell_inequality alice_bits bob_bits alice_bases bob_bases in
      if negb is_secure then inr None
      else
        match estimate_error_rate pick slot alice_bits bob_bits None with
        | Raise e => inl (Raised e)
        | Ok (error_rate, final_alice, final_bob) =>
            if key_accepted (classify_error_rate error_rate) then
              if bool_decide (final_alice = final_bob) then
                match privacy_amplification final_alice None with
                | Raise e => inl (Raised e)
                | Ok final_key => inr (Some final_key)
                end
              else inr None
            else inr None
        end
  end
  end.

(** [except Exception as e] prints and falls off the end of [main]. *)
Definition main (outcome : nat -> trial) (pick : list nat) (slot : nat -> nat)
  : option (list Z) :=
  match main_try outcome pick slot with
  | inl _ => None
  | inr v => v
  end.

End QuantumKey.

(** ** keydes.py *)

Module KeyDes.

Module QuantumDES.

Record t := Build { key : list byte }.

(** [_bits_to_bytes(bits)] *)
Definition _bits_to_bytes (bits : list Z) : result (list byte) :=
  if (length bits <? 64)%nat then Raise ValueError
  else
    key_bytes ← pack_key_bytes bits;
    bytes_of_ints key_bytes.

(** [QuantumDES(quantum_key)] *)
Definition init (quantum_key : list Z) : result t :=
  key ← _bits_to_bytes quantum_key;
  Ok (Build key).

Definition encrypt (self : t) (message : list Z) : result (list Z) :=
  cipher ← Des.new (key self);
  data ← Utf8.encode message;
  let padded_data := Padding.pad data Des.block_size in
  encrypted ← Des.encrypt cipher padded_data;
  Utf8.decode (Base64.b64encode encrypted).

Definition decrypt (self : t) (encrypted_message : list Z) : result (list Z) :=
  cipher ← Des.new (key self);
  encrypted ← Base64.b64decode encrypted_message;
  decrypted ← Des.decrypt cipher encrypted;
  unpadded ← Padding.unpad decrypted Des.block_size;
  Utf8.decode unpadded.

End QuantumDES.

Definition target_key_length : Z := 64.

(** The [while True] loop of [simulate_iot_cloud_communication] (lines
    141-145). [outcomes n] is what the trials of the [n]-th call of
    [quantum_key_distribution] draw and measure. The loop has no exit but
    [break]; [fuel] bounds the iterations the model follows and [None] means
    that the loop is still running after [fuel] attempts. The result is the
    key of the last attempt and the number of retries before it. *)
Fixpoint regenerate_key (fuel : nat) (outcomes : nat -> nat -> QuantumKey.trial)
    (attempt : nat) : option (list Z * nat) :=
  match fuel with
  | O => None
  | S fuel' =>
      let '(shared_key, _, _, _) :=
        QuantumKey.quantum_key_distribution (outcomes attempt) target_key_length in
      if (64 <=? length shared_key)%nat then Some (shared_key, attempt)
      else regenerate_key fuel' outcomes (S attempt)
  end.

(** The agreed key the [n]-th call of [quantum_key_distribution] returns. *)
Definition attempt_key (outcomes : nat -> nat -> QuantumKey.trial) (n : nat) : list Z :=
  fst (fst (fst (QuantumKey.quantum_key_distribution (outcomes n) target_key_length))).

(** The loop followed by [shared_key = shared_key[:64]]. *)
Definition establish_shared_key (fuel : nat) (outcomes : nat -> nat -> QuantumKey.trial)
  : option (list Z * nat) :=
  '(shared_key, retries) ← regenerate_key fuel outcomes 0;
  Some (slice_to shared_key 64, retries).

(** [IoTDevice] and [CloudServer]: [qdes] is [None] until the session
    assigns a cipher to it. *)
Module IoTDevice.

Record t := Build {
  device_id : string;
  sensor_type : string;
  qdes : option QuantumDES.t
}.

Definition init (device_id sensor_type : string) : t :=
  Build device_id sensor_type None.

Definition send_encrypted_data (self : t) (data : list Z) : result (list Z) :=
  match qdes self with
  | None => Raise ValueError
  | Some qdes => QuantumDES.encrypt qdes data
  end.

End IoTDevice.

Module CloudServer.

Record t := Build {
  server_id : string;
  qdes : option QuantumDES.t
}.

Definition init (server_id : string) : t := Build server_id None.

Definition process_encrypted_data (self : t) (encrypted_data : list Z)
  : result (list Z) :=
  match qdes self with
  | None => Raise ValueError
  | Some qdes => QuantumDES.decrypt qdes encrypted_data
  end.

End CloudServer.

End KeyDes.

(** ** api_server_short.py *)

Module ApiServer.

(** *** Values and the store

    The lists the handlers build are objects: the cache keeps references to
    them and [eve_attack] updates one in place after handing it to the cache.
    A list therefore lives in a heap and a value names it by its location. *)

Definition loc := nat.

#[warnings="-register-all"]
Inductive value :=
| VNone
| VStr (s : string)
| VList (l : loc)
| VDict (d : gmap string value).

Record state := State {
  heap : gmap loc (list Z);
  next_loc : loc;
  _cache : gmap string value
}.

(** Handlers run in the state and may raise. *)
Definition M (A : Type) : Type := state -> result A * state.

#[global] Instance M_ret : MRet M := fun A a s => (Ok a, s).
#[global] Instance M_bind : MBind M := fun A B f m s =>
  match m s with
  | (Ok a, s') => f a s'
  | (Raise e, s') => (Raise e, s')
  end.

Definition raise {A} (e : exn) : M A := fun s => (Raise e, s).
Definition lift {A} (r : result A) : M A := fun s => (r, s).

(** A new list object. *)
Definition new_list (bits : list Z) : M loc := fun s =>
  (Ok (next_loc s),
   State (<[next_loc s := bits]> (heap s)) (S (next_loc s)) (_cache s)).

Definition read_list (l : loc) : M (list Z) := fun s =>
  match heap s !! l with
  | Some bits => (Ok bits, s)
  | None => (Raise TypeError, s)
  end.

(** [lst[i] = x] *)
Definition write_item (l : loc) (i : nat) (x : Z) : M unit := fun s =>
  match heap s !! l with
  | Some bits =>
      if (i <? length bits)%nat
      then (Ok (), State (<[l := <[i := x]> bits]> (heap s)) (next_loc s) (_cache s))
      else (Raise IndexError, s)
  | None => (Raise TypeError, s)
  end.

Definition as_list (v : value) : M loc :=
  match v with VList l => mret l | _ => raise TypeError end.

(** Truth value of an object: [None], the empty string, the empty list and
    the empty dict are false. *)
Definition truthy (v : value) : M bool :=
  match v with
  | VNone => mret false
  | VStr s => mret (negb (bool_decide (s = "")))
  | VList l => bits ← read_list l; mret (negb (bool_decide (bits = [])))
  | VDict d => mret (negb (bool_decide (d = ∅)))
  end.

(** *** ThreadSafeCache

    Every method holds the lock for its whole body; requests are handled one
    at a time here, so the lock itself is not represented. *)

Definition put_cache (c : gmap string value) : M unit := fun s =>
  (Ok (), State (heap s) (next_loc s) c).

(** [__init__]: the four entries of a new cache. *)
Definition ThreadSafeCache_init : M unit :=
  circuits ← new_list [];
  qber_history ← new_list [];
  put_cache
    (<["keys" := VDict (<["classic" := VNone]>
                        (<["quantum" := VNone]>
                         (<["eve" := VNone]> ∅)))]>
     (<["circuits" := VList circuits]>
      (<["measurements" := VDict ∅]>
       (<["qber_history" := VList qber_history]> ∅)))).

(** The object [cache.get(key, subkey)] returns, as a function of the
    store. *)
Definition lookup_cache (c : gmap string value) (key : string)
    (subkey : option string) : value :=
  match subkey with
  | Some (String a sk) =>
      match c !! key with
      | Some (VDict d) => default VNone (d !! String a sk)
      | _ => VNone
      end
  | _ => default VNone (c !! key)
  end.

Definition cache_get (key : string) (subkey : option string) : M value :=
  fun s => (Ok (lookup_cache (_cache s) key subkey), s).

(** [cache.set(key, subkey, value)]. A [value] of [None] selects the
    two-parameter form, which stores [subkey] itself under [key]. *)
Definition cache_set (key subkey : string) (v : value) : M unit := fun s =>
  let c := _cache s in
  match v with
  | VNone => (Ok (), State (heap s) (next_loc s) (<[key := VStr subkey]> c))
  | _ =>
      let d := match c !! key with Some (VDict d) => d | _ => ∅ end in
      (Ok (), State (heap s) (next_loc s) (<[key := VDict (<[subkey := v]> d)]> c))
  end.

Definition cache_clear : M unit := ThreadSafeCache_init.

(** The process starts with [cache = ThreadSafeCache()]. *)
Definition initial_state : state :=
  snd (ThreadSafeCache_init (State ∅ 0%nat ∅)).

(** *** OptimizedQuantumDES *)

Module OptimizedQuantumDES.

Record t := Build { key : list byte }.

(** [OptimizedQuantumDES(key_bits)]; [[0] * n] is empty for a negative [n]. *)
Definition init (key_bits : list Z) : result t :=
  let bits :=
    key_bits ++ replicate (Z.to_nat (64 - Z.of_nat (length key_bits))) 0 in
  key_bytes ← pack_key_bytes bits;
  key ← bytes_of_ints key_bytes;
  Ok (Build key).

Definition encrypt (self : t) (message : list Z) : result (list Z) :=
  cipher ← Des.new (key self);
  data ← Utf8.encode message;
  let padded_data := Padding.pad data Des.block_size in
  encrypted ← Des.encrypt cipher padded_data;
  Utf8.decode (Base64.b64encode encrypted).

Definition decrypt (self : t) (encrypted_message : list Z) : result (list Z) :=
  cipher ← Des.new (key self);
  encrypted ← Base64.b64decode encrypted_message;
  decrypted ← Des.decrypt cipher encrypted;
  unpadded ← Padding.unpad decrypted Des.block_size;
  Utf8.decode unpadded.

End OptimizedQuantumDES.

(** [calculate_qber(key1, key2)] *)
Definition calculate_qber (key1 key2 : list Z) : result Q :=
  if bool_decide (key1 = []) || bool_decide (key2 = [])
     || negb (length key1 =? length key2)%nat
  then Ok 0%Q
  else
    truediv (Z.of_nat (length (filter (fun p => fst p ≠ snd p) (zip key1 key2))))
            (Z.of_nat (length key1)).

(** [generate_quantum_key(length=64)]: [measure i] is the first character
    of the most frequent outcome of the [i]-th simulator run. *)
Definition generate_quantum_key (measure : nat -> bool) (length : nat) : M loc :=
  new_list (map (fun i => Z.b2z (measure i)) (seq 0 length)).

(** *** Requests and responses *)

Inductive http_method := GET | POST | OPTIONS.

(** The Python value of a JSON document, which is what [request.json]
    returns for a body that holds one: [None] for [null], a [bool], a
    number, a [str] (the list of its code points), a [list] or a [dict].
    Where the request has no JSON body (no body, another content type, text
    that is not JSON) [request.json] raises, or returns [None], as the
    version of Flask has it; the handlers take the outcome of
    [request.json], a [result json_value], and so cover both. *)
#[warnings="-register-all"]
Inductive json_value :=
| JsonNull
| JsonBool (b : bool)
| JsonNumber (q : Q)
| JsonString (s : list Z)
| JsonArray (items : list json_value)
| JsonObject (members : gmap string json_value).

(** The code points of a string literal. *)
Definition code_points (s : string) : list Z :=
  map (fun a => Z.of_nat (nat_of_ascii a)) (String.list_ascii_of_string s).

(** The truth value of [data] in [not data]: [None], [False], zero, the
    empty string, the empty list and the empty dict are false. *)
Definition json_truthy (data : json_value) : bool :=
  match data with
  | JsonNull => false
  | JsonBool b => b
  | JsonNumber q => negb (Qeq_bool q 0)
  | JsonString s => negb (bool_decide (s = []))
  | JsonArray items => negb (bool_decide (items = []))
  | JsonObject members => negb (bool_decide (members = ∅))
  end.

(** [v == x] for a string literal [x]: only a [str] equals a string. *)
Definition json_is_str (x : string) (v : json_value) : bool :=
  match v with
  | JsonString s => bool_decide (s = code_points x)
  | _ => false
  end.

(** [x in s] on strings: [x] is a substring of [s]. *)
Fixpoint starts_with (x s : list Z) : bool :=
  match x, s with
  | [], _ => true
  | a :: x', b :: s' => (a =? b) && starts_with x' s'
  | _ :: _, [] => false
  end.

Fixpoint is_substring (x s : list Z) : bool :=
  starts_with x s ||
  match s with
  | [] => false
  | _ :: s' => is_substring x s'
  end.

(** [x in data] for a string literal [x]: a key of a dict, an element of
    a list, a substring of a string; the other values are no containers. *)
Definition json_contains (x : string) (data : json_value) : result bool :=
  match data with
  | JsonObject members =>
      Ok (match members !! x with Some _ => true | None => false end)
  | JsonArray items => Ok (existsb (json_is_str x) items)
  | JsonString s => Ok (is_substring (code_points x) s)
  | _ => Raise TypeError
  end.

(** [data[x]] for a string literal [x]: lists and strings take integer
    indices only. *)
Definition json_getitem (x : string) (data : json_value) : result json_value :=
  match data with
  | JsonObject members =>
      match members !! x with Some v => Ok v | None => Raise KeyError end
  | _ => Raise TypeError
  end.

(** [not data or 'a' not in data or 'b' not in data]: the operands are
    evaluated from the left, up to the first that holds. *)
Fixpoint any_not_in (names : list string) (data : json_value) : result bool :=
  match names with
  | [] => Ok false
  | x :: names' =>
      found ← json_contains x data;
      if (found : bool) then any_not_in names' data else Ok true
  end.

Definition missing_parameters (names : list string) (data : json_value)
  : result bool :=
  if json_truthy data then any_not_in names data else Ok true.

Inductive json :=
| JStr (s : string)
| JText (t : list Z)
| JBits (bits : list Z)
| JNum (q : Q)
| JLog (text : string) (matches : Z)
| JExn (e : exn).

Record response := Response {
  status_code : nat;
  body : gmap string json
}.

Definition error_response (code : nat) (msg : string) : response :=
  Response code (<["error" := JStr msg]> ∅).

(** [try: ... except Exception as e: return jsonify({"error": str(e)}), 500] *)
Definition try_except (m : M response) (s : state) : response * state :=
  match m s with
  | (Ok r, s') => (r, s')
  | (Raise e, s') => (Response 500 (<["error" := JExn e]> ∅), s')
  end.

(** [key_type in ['classic', 'quantum']]: the element of the list that
    [key_type] equals, if there is one. *)
Definition valid_key_type (key_type : json_value) : option string :=
  List.find (A := string) (fun x => json_is_str x key_type) ["classic"; "quantum"].

(** [[random.randint(0, 1) for _ in range(64)]] on the draws from [first]. *)
Definition random_bits (rnd : nat -> nat) (first : nat) : list Z :=
  map (fun i => randint 0 1 (rnd (first + i)%nat)) (seq 0 64).

(** *** /init_keys *)

Definition init_keys (method : http_method) (rnd : nat -> nat)
    (measure_quantum measure_eve : nat -> bool) : M response :=
  match method with
  | OPTIONS => mret (Response 200 ∅)
  | _ =>
      classic_key ← new_list (random_bits rnd 0);
      quantum_key ← generate_quantum_key measure_quantum 64;
      eve_bits ← generate_quantum_key measure_eve 64;
      quantum_bits ← read_list quantum_key;
      eve_bits' ← read_list eve_bits;
      qber ← lift (calculate_qber quantum_bits eve_bits');
      cache_set "keys" "classic" (VList classic_key);;
      cache_set "keys" "quantum" (VList quantum_key);;
      cache_set "keys" "eve" (VList eve_bits);;
      classic_bits ← read_list classic_key;
      mret (Response 200
              (<["classic_key" := JBits classic_bits]>
               (<["quantum_key" := JBits quantum_bits]>
                (<["qber" := JNum qber]> ∅))))
  end.

(** *** /encrypt and /decrypt *)

(** [cipher.encrypt(message)] with the value the body holds: on a value
    that is no [str], [message.encode()] raises after [DES.new]. *)
Definition cipher_encrypt (cipher : OptimizedQuantumDES.t) (message : json_value)
  : result (list Z) :=
  match message with
  | JsonString message => OptimizedQuantumDES.encrypt cipher message
  | _ => Des.new (OptimizedQuantumDES.key cipher);; Raise AttributeError
  end.

(** [cipher.decrypt(encrypted_msg)] with the value the body holds: on a
    value that is no [str], [base64.b64decode] raises after [DES.new]. *)
Definition cipher_decrypt (cipher : OptimizedQuantumDES.t)
    (encrypted_msg : json_value) : result (list Z) :=
  match encrypted_msg with
  | JsonString encrypted_msg => OptimizedQuantumDES.decrypt cipher encrypted_msg
  | _ => Des.new (OptimizedQuantumDES.key cipher);; Raise TypeError
  end.

Definition encrypt (request_json : result json_value) : M response :=
  data ← lift request_json;
  missing ← lift (missing_parameters ["message"; "key_type"] data);
  if (missing : bool)
  then mret (error_response 400 "Missing required parameters")
  else
    message ← lift (json_getitem "message" data);
    key_type ← lift (json_getitem "key_type" data);
    match valid_key_type key_type with
    | None => mret (error_response 400 "Invalid key type")
    | Some key_type =>
        current_key ← cache_get "keys" (Some key_type);
        initialized ← truthy current_key;
        if negb initialized
        then mret (error_response 400 ("No " +:+ key_type +:+ " key initialized"))
        else
          key_bits ← as_list current_key ≫= read_list;
          cipher ← lift (OptimizedQuantumDES.init key_bits);
          encrypted_msg ← lift (cipher_encrypt cipher message);
          mret (Response 200
                  (<["encrypted_msg" := JText encrypted_msg]>
                   (<["key_used" := JBits (slice_to key_bits 16)]> ∅)))
    end.

Definition decrypt (request_json : result json_value) : M response :=
  data ← lift request_json;
  missing ← lift (missing_parameters ["encrypted_msg"; "key_type"] data);
  if (missing : bool)
  then mret (error_response 400 "Missing required parameters")
  else
    encrypted_msg ← lift (json_getitem "encrypted_msg" data);
    key_type ← lift (json_getitem "key_type" data);
    match valid_key_type key_type with
    | None => mret (error_response 400 "Invalid key type")
    | Some key_type =>
        current_key ← cache_get "keys" (Some key_type);
        initialized ← truthy current_key;
        if negb initialized
        then mret (error_response 400 ("No " +:+ key_type +:+ " key initialized"))
        else
          key_bits ← as_list current_key ≫= read_list;
          cipher ← lift (OptimizedQuantumDES.init key_bits);
          decrypted_msg ← lift (cipher_decrypt cipher encrypted_msg);
          mret (Response 200 (<["decrypted_msg" := JText decrypted_msg]> ∅))
    end.

(** *** /eve_attack *)

(** The classic branch's loop, [for i in range(correct_bits)]: draw a
    position and copy the true bit there into Eve's list, in place. *)
Fixpoint overwrite_loop (rnd : nat -> nat) (current_key : value)
    (eve_attempt_key : loc) (draw n : nat) : M unit :=
  match n with
  | O => mret ()
  | S n' =>
      let bit_pos := Z.to_nat (randint 0 63 (rnd draw)) in
      key_bits ← as_list current_key ≫= read_list;
      x ← lift (index key_bits bit_pos);
      write_item eve_attempt_key bit_pos x;;
      overwrite_loop rnd current_key eve_attempt_key (S draw) n'
  end.

(** The buckets of the quantum branch (the conditions of lines 321, 328,
    339 and 350). *)
Definition match_verdict (matches : Z) : QuantumKey.verdict :=
  if matches <=? 16 then QuantumKey.Safe
  else if matches <? 24 then QuantumKey.Significant
  else if matches <? 32 then QuantumKey.Critical
  else QuantumKey.Severe.

Definition reinit_log (v : QuantumKey.verdict) : string :=
  match v with
  | QuantumKey.Significant =>
      "Significant quantum interference detected! Key compromised and regenerated."
  | QuantumKey.Critical =>
      "Critical quantum state collapse! Key must be regenerated."
  | _ => "SEVERE SECURITY BREACH! Immediate key regeneration required!"
  end.

Definition eve_attack (request_json : result json_value) (rnd : nat -> nat)
    (measure : nat -> bool) : M response :=
  data ← lift request_json;
  missing ← lift (missing_parameters ["key_type"] data);
  if (missing : bool)
  then mret (error_response 400 "Missing required parameters")
  else
    key_type ← lift (json_getitem "key_type" data);
    match valid_key_type key_type with
    | None => mret (error_response 400 "Invalid key type")
    | Some key_type =>
        current_key ← cache_get "keys" (Some key_type);
        eve_key ← cache_get "keys" (Some "eve");
        have_key ← truthy current_key;
        have_eve ← (if have_key then truthy eve_key else mret false);
        if negb (have_key && have_eve)
        then mret (error_response 400 "Keys not initialized")
        else if bool_decide (key_type = "classic") then
          eve_attempt_key ← new_list (random_bits rnd 0);
          cache_set "keys" "eve" (VList eve_attempt_key);;
          let correct_bits := randint 32 58 (rnd 64%nat) in
          overwrite_loop rnd current_key eve_attempt_key 65 (Z.to_nat correct_bits);;
          key_bits ← as_list current_key ≫= read_list;
          eve_bits ← read_list eve_attempt_key;
          let matches := count_matches key_bits eve_bits in
          let success := 48 <? matches in
          if success then
            cache_set "keys" "eve" current_key;;
            mret (Response 200
                    (<["status" := JStr "cracked"]>
                     (<["log_msg" := JLog "Classic encryption cracked! Eve obtained the key." matches]>
                      (<["eve_key" := JBits (slice_to key_bits 16)]> ∅))))
          else
            mret (Response 200
                    (<["status" := JStr "progress"]>
                     (<["log_msg" := JLog "Brute force attempt in classic key." matches]>
                      (<["eve_key" := JBits (slice_to eve_bits 16)]> ∅))))
        else
          eve_attempt_key ← new_list (random_bits rnd 0);
          cache_set "keys" "eve" (VList eve_attempt_key);;
          key_bits ← as_list current_key ≫= read_list;
          eve_bits ← read_list eve_attempt_key;
          let matches := count_matches key_bits eve_bits in
          match match_verdict matches with
          | QuantumKey.Safe =>
              mret (Response 200
                      (<["status" := JStr "detected_safe"]>
                       (<["log_msg" := JLog "Quantum interference detected but within safe limits. No key regeneration needed." matches]>
                        (<["eve_key" := JBits (slice_to eve_bits 16)]> ∅))))
          | v =>
              new_quantum_key ← generate_quantum_key measure 64;
              cache_set "keys" "quantum" (VList new_quantum_key);;
              new_bits ← read_list new_quantum_key;
              mret (Response 200
                      (<["status" := JStr "detected_reinit"]>
                       (<["log_msg" := JLog (reinit_log v) matches]>
                        (<["eve_key" := JBits (slice_to eve_bits 16)]>
                         (<["new_quantum_key" := JBits new_bits]> ∅)))))
          end
    end.

(** *** The server: one request at a time *)

Inductive request :=
| ReqInitKeys (method : http_method) (rnd : nat -> nat)
    (measure_quantum measure_eve : nat -> bool)
| ReqEncrypt (request_json : result json_value)
| ReqDecrypt (request_json : result json_value)
| ReqEveAttack (request_json : result json_value) (rnd : nat -> nat)
    (measure : nat -> bool)
| ReqClear.

Definition step (r : request) (s : state) : response * state :=
  match r with
  | ReqInitKeys method rnd mq me => try_except (init_keys method rnd mq me) s
  | ReqEncrypt request_json => try_except (encrypt request_json) s
  | ReqDecrypt request_json => try_except (decrypt request_json) s
  | ReqEveAttack request_json rnd measure =>
      try_except (eve_attack request_json rnd measure) s
  | ReqClear => try_except (cache_clear;; mret (Response 200 ∅)) s
  end.

Definition run (requests : list request) (s : state) : state :=
  fold_left (fun s r => snd (step r s)) requests s.

(** *** Vocabulary of the specification *)

Definition roles : list string := ["classic"; "quantum"; "eve"].

(** Every list object holds bits, and no location beyond [next_loc] is in
    use. *)
Definition heap_ok (s : state) : Prop :=
  forall l bits, heap s !! l = Some bits ->
    (l < next_loc s)%nat /\ Forall is_bit bits.

(** An object that may stand for a key: [None] or a list of 64 elements. *)
Definition value_ok (s : state) (v : value) : Prop :=
  match v with
  | VNone => True
  | VList l => exists bits, heap s !! l = Some bits /\ length bits = 64%nat
  | _ => False
  end.

(** The invariant of the session cache. *)
Definition invariant (s : state) : Prop :=
  heap_ok s /\
  forall role, role ∈ roles ->
    value_ok s (lookup_cache (_cache s) "keys" (Some role)).

(** How the heap may change: list objects stay, with their lengths. *)
Definition extends (s s' : state) : Prop :=
  (next_loc s <= next_loc s')%nat /\
  forall l bits, heap s !! l = Some bits ->
    exists bits', heap s' !! l = Some bits' /\ length bits' = length bits.

(** A property of the state that heap changes of this kind keep. *)
Definition stable (F : state -> Prop) : Prop :=
  forall s s', extends s s' -> F s -> F s'.

(** [triple P m Q]: from a state with the invariant and [P], the command
    [m] keeps the invariant, whether it returns or raises, and establishes
    [Q] when it returns. *)
Definition triple {A} (P : state -> Prop) (m : M A) (Q : A -> state -> Prop) : Prop :=
  forall s, invariant s -> P s ->
    extends s (snd (m s)) /\ invariant (snd (m s)) /\
    forall a, fst (m s) = Ok a -> Q a (snd (m s)).

(** A command that does not change the state. *)
Definition readonly {A} (m : M A) : Prop := forall s, snd (m s) = s.

(** The list the classic branch of [eve_attack] ends with, as a function of
    the true key and Eve's first guess: position by position, the true bit
    is written over the guess. *)
Fixpoint overwritten_guess (rnd : nat -> nat) (key_bits guess : list Z)
    (draw n : nat) : list Z :=
  match n with
  | O => guess
  | S n' =>
      let bit_pos := Z.to_nat (randint 0 63 (rnd draw)) in
      overwritten_guess rnd key_bits
        (<[bit_pos := default 0 (key_bits !! bit_pos)]> guess) (S draw) n'
  end.

(** What [cache.get("keys", role)] names: nothing, or the bits of a list. *)
Definition cached_key (s : state) (role : string) : option (list Z) :=
  match lookup_cache (_cache s) "keys" (Some role) with
  | VList l => heap s !! l
  | _ => None
  end.

(** *** QuantumCircuitPool

    The pool keeps circuit objects in a list. What a circuit is does not
    matter to the pool: [bell_circuit] stands for the object the three
    constructor lines followed by [h] and [cx] build, and [reset] for
    [circuit.data.clear()] followed by [h] and [cx]. *)
Section QuantumCircuitPool.

Variable circuit : Type.
Variable bell_circuit : circuit.
Variable reset : circuit -> circuit.

Record pool := Pool {
  pool_size : Z;
  circuits : list circuit
}.

(** [for _ in range(self.pool_size): ... self.circuits.append(qc)] *)
Definition _initialize_pool (self : pool) : pool :=
  Pool (pool_size self)
       (circuits self ++ replicate (Z.to_nat (pool_size self)) bell_circuit).

(** [QuantumCircuitPool(pool_size)] *)
Definition QuantumCircuitPool_init (pool_size : Z) : pool :=
  _initialize_pool (Pool pool_size []).

Definition _create_new_circuit : circuit := bell_circuit.

(** [get_circuit]: [list.pop()] takes the last element. *)
Definition get_circuit (self : pool) : circuit * pool :=
  let self :=
    if bool_decide (length (circuits self) = 0%nat)
    then _initialize_pool self else self in
  match last (circuits self) with
  | Some c => (c, Pool (pool_size self) (removelast (circuits self)))
  | None => (_create_new_circuit, self)
  end.

Definition return_circuit (self : pool) (c : circuit) : pool :=
  if Z.of_nat (length (circuits self)) <? pool_size self
  then Pool (pool_size self) (circuits self ++ [reset c])
  else self.

End QuantumCircuitPool.

(** All three keys are in the cache, or none of them is. *)
Definition keys_initialized (s : state) : Prop :=
  forall role, role ∈ roles ->
    exists l, lookup_cache (_cache s) "keys" (Some role) = VList l.

Definition keys_uninitialized (s : state) : Prop :=
  forall role, role ∈ roles ->
    lookup_cache (_cache s) "keys" (Some role) = VNone.

End ApiServer.



(** * Verification *)

(** Closes [Forall P l] on a list written out, one element at a time. *)
Ltac each_element tac := repeat (constructor; [tac|]); constructor.
Ltac each_bit := each_element ltac:(unfold is_bit; lia).

(** ** The library models against published vectors *)

(** SHA-256 of the empty message starts e3 b0 c4 42 and ends 78 52 b8 55. *)
Example sha256_empty :
  map byte_to_Z (Sha256.sha256 []) =
  [227; 176; 196; 66; 152; 252; 28; 20; 154; 251; 244; 200; 153; 111; 185; 36;
   39; 174; 65; 228; 100; 155; 147; 76; 164; 149; 153; 27; 120; 82; 184; 85].
Proof. vm_compute. reflexivity. Qed.

(** SHA-256 of "abc". *)
Example sha256_abc :
  map byte_to_Z (Sha256.sha256 (String.list_byte_of_string "abc")) =
  [186; 120; 22; 191; 143; 1; 207; 234; 65; 65; 64; 222; 93; 174; 34; 35;
   176; 3; 97; 163; 150; 23; 122; 156; 180; 16; 255; 97; 242; 0; 21; 173].
Proof. vm_compute. reflexivity. Qed.

(** A message of 200 bytes (four blocks once padded). *)
Example sha256_four_blocks :
  map byte_to_Z (Sha256.sha256 (map (fun n => byte_of_Z (Z.of_nat n)) (seq 0 200))) =
  [25; 1; 218; 28; 159; 105; 155; 72; 246; 178; 99; 110; 101; 203; 247; 58;
   191; 153; 208; 68; 30; 246; 127; 92; 84; 10; 66; 247; 5; 29; 236; 111].
Proof. vm_compute. reflexivity. Qed.

(** DES: key 133457799BBCDFF1, plaintext 0123456789ABCDEF. *)
Example des_vector_1 :
  map byte_to_Z
    (Des.encrypt_block (map byte_of_Z [19; 52; 87; 121; 155; 188; 223; 241])
                       (map byte_of_Z [1; 35; 69; 103; 137; 171; 205; 239])) =
  [133; 232; 19; 84; 15; 10; 180; 5].
Proof. vm_compute. reflexivity. Qed.

(** DES: key 0123456789ABCDEF, plaintext "Now is t". *)
Example des_vector_2 :
  map byte_to_Z
    (Des.encrypt_block (map byte_of_Z [1; 35; 69; 103; 137; 171; 205; 239])
                       (String.list_byte_of_string "Now is t")) =
  [63; 164; 14; 138; 152; 77; 72; 21].
Proof. vm_compute. reflexivity. Qed.

(** DES: key FEDCBA9876543210, plaintext 1122334455667788. *)
Example des_vector_3 :
  map byte_to_Z
    (Des.encrypt_block (map byte_of_Z [254; 220; 186; 152; 118; 84; 50; 16])
                       (map byte_of_Z [17; 34; 51; 68; 85; 102; 119; 136])) =
  [219; 154; 57; 195; 166; 202; 28; 168].
Proof. vm_compute. reflexivity. Qed.

(** DES: key A1B2C3D4E5F60718, the all-ones block. *)
Example des_vector_4 :
  map byte_to_Z
    (Des.encrypt_block (map byte_of_Z [161; 178; 195; 212; 229; 246; 7; 24])
                       (map byte_of_Z [255; 255; 255; 255; 255; 255; 255; 255])) =
  [245; 185; 235; 57; 32; 73; 77; 154].
Proof. vm_compute. reflexivity. Qed.

(** ** The CHSH check (quantumkey.py, [verify_bell_inequality]) *)

Section Chsh.
Import QuantumKey.

Lemma neg_one_pow_abs n : Z.abs (neg_one_pow n) = 1.
Proof. unfold neg_one_pow. destruct (Z.even n); reflexivity. Qed.

(** The loop keeps [|correlations| <= count]: every qualifying trial adds
    1 to [count] and 1 or -1 to [correlations]. *)
Lemma chsh_loop_bound alice_bits :
  forall bob_bits alice_bases bob_bases correlations count,
    Z.abs correlations <= count ->
    Z.abs (fst (chsh_loop alice_bits bob_bits alice_bases bob_bases correlations count))
    <= snd (chsh_loop alice_bits bob_bits alice_bases bob_bases correlations count).
Proof.
  induction alice_bits as [|a alice_bits IH]; intros bob_bits alice_bases bob_bases c n Hc.
  - simpl. exact Hc.
  - destruct bob_bits as [|b bob_bits]; [exact Hc|].
    destruct alice_bases as [|ba alice_bases]; [exact Hc|].
    destruct bob_bases as [|bb bob_bases]; [exact Hc|].
    cbn [chsh_loop]. destruct (canonical_bases ba bb).
    + apply IH. pose proof (neg_one_pow_abs (Z.lxor a b)). lia.
    + apply IH. exact Hc.
Qed.

(** A quotient [2c/n] with [|c| <= n] and [n > 0] has magnitude at most 2,
    hence at most 5/2. *)
Lemma chsh_value_le c n :
  0 < n -> Z.abs c <= n ->
  (Qabs (inject_Z (2 * c) / inject_Z n) <= 5 # 2)%Q.
Proof.
  intros Hn Hc. apply Qabs_Qle_condition. split.
  - apply Qle_shift_div_l.
    + unfold Qlt, inject_Z. simpl. lia.
    + unfold Qle, Qmult, Qopp, inject_Z. simpl. lia.
  - apply Qle_shift_div_r.
    + unfold Qlt, inject_Z. simpl. lia.
    + unfold Qle, Qmult, inject_Z. simpl. lia.
Qed.

End Chsh.

(** C4. [verify_bell_inequality] returns [False] on every input: the
    aggregate [|2 * correlations / count|] never exceeds 2, the threshold is
    2.5, and with no qualifying trial the function returns [False] at once. *)
Theorem verify_bell_inequality_always_false :
  forall alice_bits bob_bits alice_bases bob_bases : list Z,
    QuantumKey.verify_bell_inequality alice_bits bob_bits alice_bases bob_bases = false.
Proof.
  intros. unfold QuantumKey.verify_bell_inequality.
  pose proof (chsh_loop_bound alice_bits bob_bits alice_bases bob_bases 0 0) as H.
  destruct (QuantumKey.chsh_loop alice_bits bob_bits alice_bases bob_bases 0 0)
    as [correlations count] eqn:E.
  simpl in H. specialize (H ltac:(lia)).
  destruct (count =? 0) eqn:E0; [reflexivity|].
  apply Z.eqb_neq in E0.
  apply negb_false_iff, Qle_bool_iff, chsh_value_le; lia.
Qed.

(** The trials that [main] passes on can never reach the later steps: the
    check fails even on perfectly correlated bits. *)
Example verify_bell_inequality_perfect_correlation :
  QuantumKey.verify_bell_inequality [0; 1; 1; 0] [0; 1; 1; 0] [0; 1; 0; 1] [0; 1; 0; 1]
  = false.
Proof. reflexivity. Qed.

(** ** Verdict thresholds ([main] of quantumkey.py and /eve_attack) *)

Section Verdicts.
Import QuantumKey.

Lemma Qle_bool_false (x y : Q) : Qle_bool x y = false <-> (y < x)%Q.
Proof.
  split; intros H.
  - apply Qnot_le_lt. intros Hle. apply Qle_bool_iff in Hle. congruence.
  - destruct (Qle_bool x y) eqn:E; [|reflexivity].
    apply Qle_bool_iff in E. exfalso. eapply Qlt_not_le; eassumption.
Qed.

Lemma classify_error_rate_safe r :
  classify_error_rate r = Safe <-> (r <= 1 # 4)%Q.
Proof.
  unfold classify_error_rate. split.
  - destruct (Qle_bool r (1 # 4)) eqn:E; [intros _; now apply Qle_bool_iff|].
    destruct (Qle_bool r (23 # 64)); [discriminate|].
    destruct (Qle_bool r (1 # 2)); discriminate.
  - intros H. apply Qle_bool_iff in H. now rewrite H.
Qed.

Lemma classify_error_rate_significant r :
  classify_error_rate r = Significant <-> (1 # 4 < r)%Q /\ (r <= 23 # 64)%Q.
Proof.
  unfold classify_error_rate. split.
  - destruct (Qle_bool r (1 # 4)) eqn:E; [discriminate|].
    destruct (Qle_bool r (23 # 64)) eqn:E1.
    + intros _. split; [now apply Qle_bool_false | now apply Qle_bool_iff].
    + destruct (Qle_bool r (1 # 2)); discriminate.
  - intros [H1 H2]. apply Qle_bool_false in H1. apply Qle_bool_iff in H2.
    now rewrite H1, H2.
Qed.

Lemma classify_error_rate_critical r :
  classify_error_rate r = Critical <-> (23 # 64 < r)%Q /\ (r <= 1 # 2)%Q.
Proof.
  unfold classify_error_rate. split.
  - destruct (Qle_bool r (1 # 4)) eqn:E; [discriminate|].
    destruct (Qle_bool r (23 # 64)) eqn:E1; [discriminate|].
    destruct (Qle_bool r (1 # 2)) eqn:E2; [|discriminate].
    intros _. split; [now apply Qle_bool_false | now apply Qle_bool_iff].
  - intros [H1 H2].
    assert (H0 : (1 # 4 < r)%Q) by (eapply Qlt_trans; [|exact H1]; reflexivity).
    apply Qle_bool_false in H0, H1. apply Qle_bool_iff in H2.
    now rewrite H0, H1, H2.
Qed.

Lemma classify_error_rate_severe r :
  classify_error_rate r = Severe <-> (1 # 2 < r)%Q.
Proof.
  unfold classify_error_rate. split.
  - destruct (Qle_bool r (1 # 4)) eqn:E; [discriminate|].
    destruct (Qle_bool r (23 # 64)) eqn:E1; [discriminate|].
    destruct (Qle_bool r (1 # 2)) eqn:E2; [discriminate|].
    intros _. now apply Qle_bool_false.
  - intros H2.
    assert (H1 : (23 # 64 < r)%Q) by (eapply Qlt_trans; [|exact H2]; reflexivity).
    assert (H0 : (1 # 4 < r)%Q) by (eapply Qlt_trans; [|exact H1]; reflexivity).
    apply Qle_bool_false in H0, H1, H2.
    now rewrite H0, H1, H2.
Qed.

Lemma match_verdict_spec m :
  (ApiServer.match_verdict m = Safe <-> m <= 16) /\
  (ApiServer.match_verdict m = Significant <-> 17 <= m <= 23) /\
  (ApiServer.match_verdict m = Critical <-> 24 <= m <= 31) /\
  (ApiServer.match_verdict m = Severe <-> 32 <= m).
Proof.
  unfold ApiServer.match_verdict.
  destruct (Z.leb_spec m 16); [repeat split; intros; try discriminate; try lia|].
  destruct (Z.ltb_spec m 24); [repeat split; intros; try discriminate; try lia|].
  destruct (Z.ltb_spec m 32); repeat split; intros; try discriminate; try lia.
Qed.

End Verdicts.

(** C1, the claim as stated fails: at the stated boundaries 24/64 and 32/64
    the match-count classification of /eve_attack answers with the
    higher-severity bucket (critical, severe), and [main] puts a rate of
    24/64 in the critical bucket too. *)
Lemma boundary_not_always_lower_bucket :
  ApiServer.match_verdict 24 = QuantumKey.Critical /\
  ApiServer.match_verdict 32 = QuantumKey.Severe /\
  QuantumKey.classify_error_rate (24 # 64) = QuantumKey.Critical.
Proof. repeat split. Qed.

(** C1, amended. A rate of exactly 16/64 is safe (the key is accepted) in
    both classifications. The buckets of [main] are closed on the right
    (r <= 16/64 safe, 16/64 < r <= 23/64 significant, 23/64 < r <= 32/64
    critical, above severe); the buckets of /eve_attack are m <= 16 safe,
    17..23 significant, 24..31 critical, m >= 32 severe, so its boundaries
    24 and 32 belong to the higher-severity bucket. *)
Theorem verdict_buckets :
  QuantumKey.classify_error_rate (16 # 64) = QuantumKey.Safe /\
  QuantumKey.key_accepted (QuantumKey.classify_error_rate (16 # 64)) = true /\
  ApiServer.match_verdict 16 = QuantumKey.Safe /\
  (forall r : Q,
     (QuantumKey.classify_error_rate r = QuantumKey.Safe <-> (r <= 16 # 64)%Q) /\
     (QuantumKey.classify_error_rate r = QuantumKey.Significant
        <-> (16 # 64 < r)%Q /\ (r <= 23 # 64)%Q) /\
     (QuantumKey.classify_error_rate r = QuantumKey.Critical
        <-> (23 # 64 < r)%Q /\ (r <= 32 # 64)%Q) /\
     (QuantumKey.classify_error_rate r = QuantumKey.Severe <-> (32 # 64 < r)%Q)) /\
  (forall m : Z,
     (ApiServer.match_verdict m = QuantumKey.Safe <-> m <= 16) /\
     (ApiServer.match_verdict m = QuantumKey.Significant <-> 17 <= m <= 23) /\
     (ApiServer.match_verdict m = QuantumKey.Critical <-> 24 <= m <= 31) /\
     (ApiServer.match_verdict m = QuantumKey.Severe <-> 32 <= m)).
Proof.
  split; [reflexivity|]. split; [reflexivity|]. split; [reflexivity|]. split.
  - intros r.
    assert (E1 : (16 # 64 == 1 # 4)%Q) by reflexivity.
    assert (E2 : (32 # 64 == 1 # 2)%Q) by reflexivity.
    rewrite classify_error_rate_safe, classify_error_rate_significant,
      classify_error_rate_critical, classify_error_rate_severe.
    rewrite E1, E2. tauto.
  - apply match_verdict_spec.
Qed.

(** ** Error-rate estimation (quantumkey.py) and QBER (api_server_short.py) *)

Section ErrorRate.
Import QuantumKey.

(** From four bits on, the default sample size is the one the
    specification names. *)
Lemma default_sample_size_from_4 (n : nat) :
  (4 <= n)%nat ->
  default_sample_size n = Nat.min (Nat.max 1 (n / 4)) 100.
Proof.
  intros H. unfold default_sample_size.
  assert (1 <= n / 4)%nat by (apply Nat.div_le_lower_bound; lia).
  lia.
Qed.

(** Below four bits it is 0. *)
Lemma default_sample_size_below_4 (n : nat) :
  (n < 4)%nat -> default_sample_size n = 0%nat.
Proof.
  intros H. unfold default_sample_size. rewrite Nat.div_small by exact H. reflexivity.
Qed.

(** With fewer than four bits and no sample size, every run raises: the
    division by the sample size is a division by zero, if nothing raised
    before. *)
Lemma estimate_error_rate_short_raises pick slot bits1 bits2 :
  (length bits1 < 4)%nat ->
  is_ok (estimate_error_rate pick slot bits1 bits2 None) = false.
Proof.
  intros H. unfold estimate_error_rate.
  rewrite default_sample_size_below_4 by exact H.
  unfold np_random_choice. rewrite andb_false_r. simpl.
  destruct (count_errors bits1 bits2 (merge_sort Nat.le pick)); reflexivity.
Qed.

(** [calculate_qber] returns 0.0 on empty or mismatched keys. *)
Lemma calculate_qber_no_information key1 key2 :
  key1 = [] \/ key2 = [] \/ length key1 <> length key2 ->
  ApiServer.calculate_qber key1 key2 = Ok 0%Q.
Proof.
  intros H. unfold ApiServer.calculate_qber.
  destruct H as [-> | [-> | H]].
  - reflexivity.
  - destruct (bool_decide (key1 = [])); reflexivity.
  - apply Nat.eqb_neq in H. rewrite H. simpl. now rewrite orb_true_r.
Qed.

(** [calculate_qber] never raises. *)
Lemma calculate_qber_total key1 key2 :
  is_ok (ApiServer.calculate_qber key1 key2) = true.
Proof.
  unfold ApiServer.calculate_qber.
  destruct (bool_decide (key1 = [])) eqn:E; [reflexivity|].
  destruct (bool_decide (key2 = [])); [reflexivity|].
  destruct (negb _); [reflexivity|]. simpl.
  unfold truediv. destruct key1 as [|x key1]; [discriminate|]. reflexivity.
Qed.

(** A step of a computation whose outcome is known. *)
Lemma result_bind_ok {A B} (m : result A) (f : A -> result B) (a : A) :
  m = Ok a -> m ≫= f = f a.
Proof. now intros ->. Qed.

(** The kept indices are the indices that were not sampled, in some order. *)
Lemma kept_indices_Permutation slot n sample_indices :
  kept_indices slot n sample_indices
  ≡ₚ filter (fun i => i ∉ sample_indices) (seq 0 n).
Proof. apply merge_sort_Permutation. Qed.

(** Reading equal elements gives the same list in every order. *)
Lemma remaining_bits_constant slot (bits : list Z) (x : Z) n sample_indices :
  Forall (fun i => bits !! i = Some x)
         (filter (fun i => i ∉ sample_indices) (seq 0 n)) ->
  mapM (index bits) (kept_indices slot n sample_indices)
  = Ok (replicate (length (filter (fun i => i ∉ sample_indices) (seq 0 n))) x).
Proof.
  intros H.
  rewrite <- (kept_indices_Permutation slot) in H.
  rewrite <- (Permutation_length (kept_indices_Permutation slot n sample_indices)).
  induction H as [|i l Hi _ IH]; [reflexivity|].
  cbn [mapM length replicate].
  rewrite (result_bind_ok _ _ x) by (unfold index; now rewrite Hi).
  rewrite IH. reflexivity.
Qed.

(** Reading at an index beyond the end raises, in every order. *)
Lemma remaining_bits_out_of_range slot (bits : list Z) n sample_indices i :
  i ∈ filter (fun j => j ∉ sample_indices) (seq 0 n) ->
  (length bits <= i)%nat ->
  mapM (index bits) (kept_indices slot n sample_indices) = Raise IndexError.
Proof.
  intros Hi Hlen.
  rewrite <- (kept_indices_Permutation slot) in Hi.
  induction (kept_indices slot n sample_indices) as [|j l IH];
    [now apply elem_of_nil in Hi|].
  cbn [mapM].
  destruct (bits !! j) as [x|] eqn:E; [|unfold index; now rewrite E].
  rewrite (result_bind_ok _ _ x) by (unfold index; now rewrite E).
  apply elem_of_cons in Hi as [->|Hi].
  - apply lookup_lt_Some in E. lia.
  - now rewrite (IH Hi).
Qed.

End ErrorRate.

(** C9, the code at the failing input. For a sequence of one to three bits
    the default sample size is [min(len // 4, 100) = 0], not
    [min(max(1, len // 4), 100) = 1], and the rate computation divides by
    zero. *)
Theorem default_sample_size_zero_divisor :
  QuantumKey.default_sample_size 3 = 0%nat /\
  Nat.min (Nat.max 1 (3 / 4)) 100 = 1%nat /\
  forall slot : nat -> nat,
    QuantumKey.estimate_error_rate [] slot [1; 0; 1] [1; 0; 1] None
    = Raise ZeroDivisionError.
Proof. repeat split. Qed.

(** C3, the code at the failing inputs. On empty sequences
    [estimate_error_rate] raises [ZeroDivisionError]; on sequences of
    different lengths it either returns the rate of the sampled positions
    (here 1.0) or raises [IndexError]; [calculate_qber] returns 0.0 on all
    of them. *)
Theorem estimate_error_rate_shape_mismatch :
  forall slot : nat -> nat,
    QuantumKey.estimate_error_rate [] slot [] [] None = Raise ZeroDivisionError /\
    QuantumKey.estimate_error_rate [0%nat] slot [0; 0; 0; 0] [1; 1; 1; 1; 1] None
      = Ok ((1 # 1)%Q, [0; 0; 0], [1; 1; 1]) /\
    QuantumKey.estimate_error_rate [0%nat; 1%nat] slot
        [0; 0; 0; 0; 0; 0; 0; 0] [0; 0; 0; 0] None
      = Raise IndexError /\
    ApiServer.calculate_qber [] [] = Ok 0%Q /\
    ApiServer.calculate_qber [0; 0; 0; 0] [1; 1; 1; 1; 1] = Ok 0%Q /\
    ApiServer.calculate_qber [0; 0; 0; 0; 0; 0; 0; 0] [0; 0; 0; 0] = Ok 0%Q.
Proof.
  intros slot. split; [reflexivity|]. split; [|split; [|repeat split]].
  - unfold QuantumKey.estimate_error_rate. cbv zeta.
    erewrite result_bind_ok by reflexivity.
    erewrite result_bind_ok by reflexivity.
    erewrite result_bind_ok by reflexivity.
    rewrite (remaining_bits_constant slot [0; 0; 0; 0] 0)
      by (vm_compute; repeat constructor).
    rewrite (remaining_bits_constant slot [1; 1; 1; 1; 1] 1)
      by (vm_compute; repeat constructor).
    reflexivity.
  - unfold QuantumKey.estimate_error_rate. cbv zeta.
    erewrite result_bind_ok by reflexivity.
    erewrite result_bind_ok by reflexivity.
    erewrite result_bind_ok by reflexivity.
    rewrite (remaining_bits_constant slot [0; 0; 0; 0; 0; 0; 0; 0] 0)
      by (vm_compute; repeat constructor).
    rewrite (remaining_bits_out_of_range slot [0; 0; 0; 0] _ _ 4%nat);
      [reflexivity | vm_compute; repeat constructor | vm_compute; lia].
Qed.

(** ** Privacy amplification (quantumkey.py) *)

Section Amplification.
Import QuantumKey.

Lemma sha256_length data : length (Sha256.sha256 data) = 32%nat.
Proof.
  unfold Sha256.sha256.
  destruct (Sha256.process_blocks _ _ _) as [[[[[[[a b] c] d] e] f] g] h].
  reflexivity.
Qed.

Lemma byte_bits_length b : length (byte_bits b) = 8%nat.
Proof. reflexivity. Qed.

Lemma byte_bits_are_bits b : Forall is_bit (byte_bits b).
Proof.
  unfold byte_bits. apply Forall_map, Forall_forall. intros i _.
  unfold is_bit. destruct (Z.testbit _ _); simpl; lia.
Qed.

Lemma concat_byte_bits_length (bs : list byte) :
  length (concat (map byte_bits bs)) = (8 * length bs)%nat.
Proof.
  induction bs as [|b bs IH]; [reflexivity|].
  cbn [map concat]. rewrite length_app, IH, byte_bits_length. simpl. lia.
Qed.

Lemma concat_byte_bits_are_bits (bs : list byte) :
  Forall is_bit (concat (map byte_bits bs)).
Proof.
  induction bs as [|b bs IH]; [constructor|].
  cbn [map concat]. apply Forall_app. split; [apply byte_bits_are_bits | exact IH].
Qed.

(** The weighted sum of bits at the positions [k], [k+1], ... *)
Lemma shifted_bits_bound (l : list Z) :
  Forall is_bit l ->
  forall k : nat,
    0 <= foldr Z.add 0 (imap (fun i bit => Z.shiftl bit (Z.of_nat (k + i))) l)
      <= 2 ^ Z.of_nat (k + length l) - 2 ^ Z.of_nat k.
Proof.
  induction 1 as [|x l Hx Hl IH]; intros k.
  - simpl. rewrite Nat.add_0_r. lia.
  - cbn [imap foldr length].
    rewrite (imap_ext _ (fun i bit => Z.shiftl bit (Z.of_nat (S k + i))));
      [|intros i y _; simpl; f_equal; lia].
    specialize (IH (S k)).
    rewrite Z.shiftl_mul_pow2 by lia.
    replace (k + 0)%nat with k by lia.
    replace (k + S (length l))%nat with (S k + length l)%nat by lia.
    assert (Hp : 2 ^ Z.of_nat (S k) = 2 * 2 ^ Z.of_nat k)
      by (rewrite Nat2Z.inj_succ, Z.pow_succ_r; lia).
    assert (0 < 2 ^ Z.of_nat k) by (apply Z.pow_pos_nonneg; lia).
    destruct Hx as [-> | ->]; lia.
Qed.

Lemma group_value_range (group : list Z) :
  Forall is_bit group -> (length group <= 8)%nat ->
  0 <= group_value group < 256.
Proof.
  intros Hb Hl. unfold group_value.
  pose proof (shifted_bits_bound (reverse group) (proj2 (Forall_reverse _ _) Hb) 0) as H.
  cbn [Nat.add] in H. rewrite length_reverse in H.
  assert (2 ^ Z.of_nat (length group) <= 2 ^ 8)
    by (apply Z.pow_le_mono_r; lia).
  change (2 ^ Z.of_nat 0) with 1 in H. change (2 ^ 8) with 256 in *.
  lia.
Qed.

Lemma groups_of_8_small fuel : forall key_bits,
  Forall is_bit key_bits ->
  Forall (fun group => Forall is_bit group /\ (length group <= 8)%nat)
         (groups_of_8 fuel key_bits).
Proof.
  induction fuel as [|fuel IH]; intros key_bits Hb; [constructor|].
  destruct key_bits as [|x key_bits]; [constructor|].
  cbn [groups_of_8]. constructor.
  - split; [now apply Forall_take | rewrite length_take; lia].
  - apply IH. now apply Forall_drop.
Qed.

Lemma bytes_of_ints_in_range (ints : list Z) :
  Forall (fun z => 0 <= z < 256) ints ->
  bytes_of_ints ints = Ok (map byte_of_Z ints).
Proof.
  unfold bytes_of_ints. induction 1 as [|z ints Hz _ IH]; [reflexivity|].
  cbn [mapM map]. 
  replace ((0 <=? z) && (z <? 256)) with true
    by (symmetry; apply andb_true_iff; split; [apply Z.leb_le | apply Z.ltb_lt]; lia).
  cbn. rewrite IH. reflexivity.
Qed.

Lemma slice_to_length {A} (l : list A) (n : Z) :
  Z.of_nat (length (slice_to l n)) =
  if 0 <=? n then Z.min n (Z.of_nat (length l))
  else Z.max (Z.of_nat (length l) + n) 0.
Proof.
  unfold slice_to. destruct (Z.leb_spec 0 n); rewrite length_take; lia.
Qed.

(** What [privacy_amplification] returns on bits: the first bits of the
    256-bit digest. *)
Lemma privacy_amplification_on_bits key_bits final_length :
  Forall is_bit key_bits ->
  exists digest_bits,
    length digest_bits = 256%nat /\ Forall is_bit digest_bits /\
    privacy_amplification key_bits final_length
    = Ok (slice_to digest_bits (effective_final_length key_bits final_length)).
Proof.
  intros Hb. unfold privacy_amplification.
  rewrite bytes_of_ints_in_range.
  - cbn. eexists. split; [|split; [|reflexivity]].
    + rewrite concat_byte_bits_length, sha256_length. reflexivity.
    + apply concat_byte_bits_are_bits.
  - apply Forall_map. eapply Forall_impl; [apply groups_of_8_small, Hb|].
    intros group [H1 H2]. now apply group_value_range.
Qed.

End Amplification.

(** C6, the claim as stated fails: the digest has 256 bits, so a request
    for 300 bits returns 256; a request for 0 bits counts as unspecified and
    returns the default; and the default itself exceeds 256 for an input of
    more than 512 bits. *)
Lemma amplify_length_not_always_requested :
  length <$> QuantumKey.privacy_amplification [1; 0; 1] (Some 300) = Ok 256%nat /\
  length <$> QuantumKey.privacy_amplification [1; 0; 1] (Some 0) = Ok 8%nat /\
  length <$> QuantumKey.privacy_amplification (replicate 600 1) None = Ok 256%nat.
Proof. vm_compute. repeat split. Qed.

(** C6, amended. [privacy_amplification] is a function of its two
    arguments (equal arguments give equal results), it never fails on a
    sequence of bits, its output consists of bits, and the output length is
    the requested [final_length] capped at the 256 bits of the digest:
    [min(final_length, 256)] for a positive [final_length], and
    [min(max(len // 2, 8), 256)] when [final_length] is [None] or 0. *)
Theorem privacy_amplification_length :
  forall (key_bits : list Z) (final_length : option Z),
    Forall is_bit key_bits ->
    (forall key_bits' final_length',
       key_bits' = key_bits -> final_length' = final_length ->
       QuantumKey.privacy_amplification key_bits' final_length'
       = QuantumKey.privacy_amplification key_bits final_length) /\
    exists out,
      QuantumKey.privacy_amplification key_bits final_length = Ok out /\
      Forall is_bit out /\
      (forall n, final_length = Some n -> 0 < n ->
         Z.of_nat (length out) = Z.min n 256) /\
      (final_length = None \/ final_length = Some 0 ->
         Z.of_nat (length out)
         = Z.min (Z.max (Z.of_nat (length key_bits) / 2) 8) 256).
Proof.
  intros key_bits final_length Hb. split.
  - intros ? ? -> ->. reflexivity.
  - destruct (privacy_amplification_on_bits key_bits final_length Hb)
      as (digest & Hlen & Hbits & ->).
    eexists. split; [reflexivity|]. split; [|split].
    + unfold slice_to. destruct (0 <=? _); now apply Forall_take.
    + intros n -> Hn. rewrite slice_to_length, Hlen. cbn.
      destruct (Z.eqb_spec n 0); [lia|].
      destruct (Z.leb_spec 0 n); lia.
    + intros H. rewrite slice_to_length, Hlen.
      assert (E : QuantumKey.effective_final_length key_bits final_length
                  = Z.max (Z.of_nat (length key_bits) / 2) 8)
        by (destruct H as [-> | ->]; reflexivity).
      rewrite E. destruct (Z.leb_spec 0 (Z.max (Z.of_nat (length key_bits) / 2) 8)); lia.
Qed.

(** The theorem at an 11-bit input and a request for 300 bits. *)
Lemma privacy_amplification_length_witness :
  Forall is_bit [1; 0; 1; 1; 0; 0; 1; 0; 1; 1; 1] /\
  exists out,
    QuantumKey.privacy_amplification [1; 0; 1; 1; 0; 0; 1; 0; 1; 1; 1] (Some 300) = Ok out /\
    Z.of_nat (length out) = 256.
Proof.
  assert (Hb : Forall is_bit [1; 0; 1; 1; 0; 0; 1; 0; 1; 1; 1])
    by each_bit.
  split; [exact Hb|].
  destruct (privacy_amplification_length
              [1; 0; 1; 1; 0; 0; 1; 0; 1; 1; 1] (Some 300) Hb)
    as (_ & out & Hout & _ & Hlen & _).
  exists out. split; [exact Hout|].
  apply (Hlen 300 eq_refl). lia.
Defined.

(** ** Cipher-key derivation (both adapters) *)

Section KeyDerivation.

(** One key byte: the eight bits at [i], most significant first. The byte
    is a valid [bytes] element, and reading its bits back gives the group. *)
Lemma pack_byte_spec (bits : list Z) (i : nat) :
  length (take 8 (drop i bits)) = 8%nat ->
  Forall is_bit bits ->
  exists v,
    pack_byte bits i (seq 0 8) 0 = Ok v /\
    0 <= v < 256 /\
    byte_bits (byte_of_Z v) = take 8 (drop i bits).
Proof.
  intros Hlen Hbits.
  assert (Hgroup : Forall is_bit (take 8 (drop i bits)))
    by now apply Forall_take, Forall_drop.
  assert (Hlook : forall j, (j < 8)%nat ->
            bits !! (i + j)%nat = take 8 (drop i bits) !! j)
    by (intros j Hj; rewrite lookup_take_lt, lookup_drop by exact Hj; reflexivity).
  destruct (take 8 (drop i bits))
    as [|b0 [|b1 [|b2 [|b3 [|b4 [|b5 [|b6 [|b7 [|? ?]]]]]]]]];
    try discriminate Hlen.
  cbn [seq pack_byte]. unfold index.
  rewrite !Hlook by lia. cbn [lookup list_lookup mbind result_bind].
  repeat match goal with
         | H : Forall _ (_ :: _) |- _ => inversion_clear H
         end.
  repeat match goal with
         | H : is_bit _ |- _ => destruct H as [-> | ->]
         end;
    (eexists; split; [cbv; reflexivity | split; [lia | vm_compute; reflexivity]]).
Qed.

Lemma chunks_of_64 (bits : list Z) :
  take 8 (drop 0 bits) ++ take 8 (drop 8 bits) ++ take 8 (drop 16 bits) ++
  take 8 (drop 24 bits) ++ take 8 (drop 32 bits) ++ take 8 (drop 40 bits) ++
  take 8 (drop 48 bits) ++ take 8 (drop 56 bits) ++ [] = take 64 bits.
Proof.
  rewrite app_nil_r, !app_assoc. cbn [drop].
  repeat (rewrite take_take_drop; cbn [Nat.add]). reflexivity.
Qed.

(** The two loops of the adapters on at least 64 bits: eight bytes whose
    bits, most significant first, are the first 64 bits. *)
Lemma pack_key_bytes_spec (bits : list Z) :
  (64 <= length bits)%nat ->
  Forall is_bit bits ->
  exists key,
    (pack_key_bytes bits ≫= bytes_of_ints) = Ok key /\
    length key = 8%nat /\
    concat (map byte_bits key) = take 64 bits.
Proof.
  intros Hlen Hbits. unfold pack_key_bytes. cbn [mapM].
  assert (Hchunk : forall i, (i + 8 <= 64)%nat ->
            length (take 8 (drop i bits)) = 8%nat)
    by (intros i Hi; rewrite length_take, length_drop; lia).
  destruct (pack_byte_spec bits 0 (Hchunk 0%nat ltac:(lia)) Hbits) as (v0 & -> & R0 & B0).
  destruct (pack_byte_spec bits 8 (Hchunk 8%nat ltac:(lia)) Hbits) as (v1 & -> & R1 & B1).
  destruct (pack_byte_spec bits 16 (Hchunk 16%nat ltac:(lia)) Hbits) as (v2 & -> & R2 & B2).
  destruct (pack_byte_spec bits 24 (Hchunk 24%nat ltac:(lia)) Hbits) as (v3 & -> & R3 & B3).
  destruct (pack_byte_spec bits 32 (Hchunk 32%nat ltac:(lia)) Hbits) as (v4 & -> & R4 & B4).
  destruct (pack_byte_spec bits 40 (Hchunk 40%nat ltac:(lia)) Hbits) as (v5 & -> & R5 & B5).
  destruct (pack_byte_spec bits 48 (Hchunk 48%nat ltac:(lia)) Hbits) as (v6 & -> & R6 & B6).
  destruct (pack_byte_spec bits 56 (Hchunk 56%nat ltac:(lia)) Hbits) as (v7 & -> & R7 & B7).
  cbn [mbind result_bind mret result_ret].
  rewrite bytes_of_ints_in_range by (repeat constructor; lia).
  eexists. split; [reflexivity|]. split; [reflexivity|].
  cbn [map concat]. rewrite B0, B1, B2, B3, B4, B5, B6, B7.
  apply chunks_of_64.
Qed.

Lemma optimized_init_spec (key_bits : list Z) :
  Forall is_bit key_bits ->
  exists key,
    ApiServer.OptimizedQuantumDES.init key_bits
      = Ok (ApiServer.OptimizedQuantumDES.Build key) /\
    length key = 8%nat /\
    concat (map byte_bits key)
      = take 64 (key_bits ++ replicate (64 - length key_bits) 0).
Proof.
  intros Hbits. unfold ApiServer.OptimizedQuantumDES.init.
  replace (Z.to_nat (64 - Z.of_nat (length key_bits)))
    with (64 - length key_bits)%nat by lia.
  destruct (pack_key_bytes_spec (key_bits ++ replicate (64 - length key_bits) 0))
    as (key & E & Hlen & Hkey).
  - rewrite length_app, length_replicate. lia.
  - apply Forall_app. split; [exact Hbits|]. apply Forall_replicate. now left.
  - exists key. split; [|split; assumption].
    unfold mbind, result_bind in E |- *.
    destruct (pack_key_bytes _); [|discriminate]. cbn in E |- *. now rewrite E.
Qed.

Lemma quantum_des_key_spec (key_bits : list Z) :
  Forall is_bit key_bits -> (64 <= length key_bits)%nat ->
  exists key,
    KeyDes.QuantumDES._bits_to_bytes key_bits = Ok key /\
    length key = 8%nat /\
    concat (map byte_bits key) = take 64 key_bits.
Proof.
  intros Hbits Hlen. unfold KeyDes.QuantumDES._bits_to_bytes.
  replace (length key_bits <? 64)%nat with false
    by (symmetry; apply Nat.ltb_ge; exact Hlen).
  exact (pack_key_bytes_spec key_bits Hlen Hbits).
Qed.

Lemma quantum_des_short_key (key_bits : list Z) :
  (length key_bits < 64)%nat ->
  KeyDes.QuantumDES._bits_to_bytes key_bits = Raise ValueError.
Proof.
  intros Hlen. unfold KeyDes.QuantumDES._bits_to_bytes.
  apply Nat.ltb_lt in Hlen. now rewrite Hlen.
Qed.

End KeyDerivation.

(** C8, the claim as stated fails for the adapter of keydes.py: on three
    bits [QuantumDES._bits_to_bytes] raises [ValueError], while
    [OptimizedQuantumDES] pads (101 followed by zeros is the byte 0xa0). *)
Lemma short_key_rejected_by_QuantumDES :
  KeyDes.QuantumDES._bits_to_bytes [1; 0; 1] = Raise ValueError /\
  ApiServer.OptimizedQuantumDES.init [1; 0; 1]
  = Ok (ApiServer.OptimizedQuantumDES.Build [xa0; x00; x00; x00; x00; x00; x00; x00]).
Proof. split; reflexivity. Qed.

(** C8, amended. On a bit sequence, [OptimizedQuantumDES] (the adapter of
    the API server) never fails: it returns 8 key bytes whose bits, most
    significant first, are the first 64 bits of the sequence padded with
    zero bits on the right. [QuantumDES._bits_to_bytes] (keydes.py) raises
    [ValueError] on fewer than 64 bits and returns the same 8 bytes as
    [OptimizedQuantumDES] on 64 bits or more. *)
Theorem derive_cipher_key :
  forall key_bits : list Z,
    Forall is_bit key_bits ->
    (exists key,
       ApiServer.OptimizedQuantumDES.init key_bits
         = Ok (ApiServer.OptimizedQuantumDES.Build key) /\
       length key = 8%nat /\
       concat (map byte_bits key)
         = take 64 (key_bits ++ replicate (64 - length key_bits) 0) /\
       ((64 <= length key_bits)%nat ->
          concat (map byte_bits key) = take 64 key_bits /\
          KeyDes.QuantumDES._bits_to_bytes key_bits = Ok key)) /\
    ((length key_bits < 64)%nat ->
       KeyDes.QuantumDES._bits_to_bytes key_bits = Raise ValueError).
Proof.
  intros key_bits Hbits. split; [|apply quantum_des_short_key].
  destruct (optimized_init_spec key_bits Hbits) as (key & E & Hlen & Hkey).
  exists key. repeat (split; [assumption|]).
  intros H64.
  assert (Hpad : take 64 (key_bits ++ replicate (64 - length key_bits) 0)
                 = take 64 key_bits)
    by (rewrite take_app_le by exact H64; reflexivity).
  split; [congruence|].
  destruct (quantum_des_key_spec key_bits Hbits H64) as (key' & E' & Hlen' & Hkey').
  rewrite E'. f_equal.
  unfold KeyDes.QuantumDES._bits_to_bytes in E'.
  unfold ApiServer.OptimizedQuantumDES.init in E.
  replace (length key_bits <? 64)%nat with false in E'
    by (symmetry; apply Nat.ltb_ge; exact H64).
  replace (Z.to_nat (64 - Z.of_nat (length key_bits))) with 0%nat in E by lia.
  cbn [replicate] in E. rewrite app_nil_r in E.
  unfold mbind, result_bind in E, E'.
  destruct (pack_key_bytes key_bits); [|discriminate].
  rewrite E' in E. congruence.
Qed.

(** The theorem at a key of three bits. *)
Lemma derive_cipher_key_witness :
  Forall is_bit [1; 0; 1] /\
  exists key,
    ApiServer.OptimizedQuantumDES.init [1; 0; 1]
      = Ok (ApiServer.OptimizedQuantumDES.Build key) /\
    length key = 8%nat.
Proof.
  assert (Hb : Forall is_bit [1; 0; 1]) by each_bit.
  split; [exact Hb|].
  destruct (derive_cipher_key [1; 0; 1] Hb) as [(key & E & Hlen & _) _].
  exists key. split; assumption.
Defined.

(** ** The key-regeneration loop (keydes.py) *)

Section Regeneration.
Import KeyDes.

Lemma regenerate_key_step fuel outcomes attempt :
  regenerate_key (S fuel) outcomes attempt =
  if (64 <=? length (attempt_key outcomes attempt))%nat
  then Some (attempt_key outcomes attempt, attempt)
  else regenerate_key fuel outcomes (S attempt).
Proof.
  unfold attempt_key. cbn [regenerate_key].
  destruct (QuantumKey.quantum_key_distribution _ _) as [[[k ?] ?] ?]. reflexivity.
Qed.

(** The loop ends at the first attempt that supplies 64 bits. *)
Lemma regenerate_key_first_supply outcomes n :
  forall fuel attempt,
    (forall k, (k < n)%nat ->
       (length (attempt_key outcomes (attempt + k)) < 64)%nat) ->
    (64 <= length (attempt_key outcomes (attempt + n)))%nat ->
    (n < fuel)%nat ->
    regenerate_key fuel outcomes attempt
    = Some (attempt_key outcomes (attempt + n), (attempt + n)%nat).
Proof.
  induction n as [|n IH]; intros fuel attempt Hshort Hsupply Hfuel;
    (destruct fuel as [|fuel]; [lia|]); rewrite regenerate_key_step.
  - rewrite Nat.add_0_r in *. apply Nat.leb_le in Hsupply. now rewrite Hsupply.
  - pose proof (Hshort 0%nat ltac:(lia)) as H0. rewrite Nat.add_0_r in H0.
    apply Nat.leb_gt in H0. rewrite H0.
    replace (attempt + S n)%nat with (S attempt + n)%nat in * by lia.
    apply IH; [|exact Hsupply|lia].
    intros k Hk. specialize (Hshort (S k) ltac:(lia)).
    now replace (attempt + S k)%nat with (S attempt + k)%nat in Hshort by lia.
Qed.

(** While every attempt undersupplies, the loop goes on. *)
Lemma regenerate_key_never outcomes :
  (forall n, (length (attempt_key outcomes n) < 64)%nat) ->
  forall fuel attempt, regenerate_key fuel outcomes attempt = None.
Proof.
  intros Hshort. induction fuel as [|fuel IH]; intros attempt; [reflexivity|].
  rewrite regenerate_key_step.
  pose proof (Hshort attempt) as H. apply Nat.leb_gt in H. rewrite H. apply IH.
Qed.

(** With too little fuel the model is still inside the loop. *)
Lemma regenerate_key_running outcomes n :
  forall fuel attempt,
    (forall k, (k < n)%nat ->
       (length (attempt_key outcomes (attempt + k)) < 64)%nat) ->
    (fuel <= n)%nat ->
    regenerate_key fuel outcomes attempt = None.
Proof.
  induction n as [|n IH]; intros fuel attempt Hshort Hfuel;
    (destruct fuel as [|fuel]; [reflexivity|]); [lia|].
  rewrite regenerate_key_step.
  pose proof (Hshort 0%nat ltac:(lia)) as H0. rewrite Nat.add_0_r in H0.
  apply Nat.leb_gt in H0. rewrite H0.
  apply IH; [|lia].
  intros k Hk. specialize (Hshort (S k) ltac:(lia)).
  now replace (attempt + S k)%nat with (S attempt + k)%nat in Hshort by lia.
Qed.

End Regeneration.

(** C7, the claim as stated fails: the loop has no bound. With a generator
    whose bases never match, the loop is still running after any number of
    attempts, and nothing like [ChannelUnstable] is ever produced; with one
    that undersupplies 1000 times, the loop retries 1000 times and then
    returns a key. *)
Lemma regeneration_loop_unbounded :
  (exists outcomes,
     forall fuel, KeyDes.establish_shared_key fuel outcomes = None) /\
  (exists outcomes key,
     KeyDes.establish_shared_key 1001 outcomes = Some (key, 1000%nat)).
Proof.
  split.
  - exists (fun _ _ => QuantumKey.Trial 0 1 1 1). intros fuel.
    unfold KeyDes.establish_shared_key.
    rewrite regenerate_key_never; [reflexivity|].
    intros n. vm_compute. lia.
  - exists (fun attempt _ =>
              QuantumKey.Trial 0 (if (attempt <? 1000)%nat then 1 else 0) 1 1).
    eexists. vm_compute. reflexivity.
Qed.

(** C7, amended. The regeneration loop has no retry bound and no
    [ChannelUnstable] outcome: it calls [quantum_key_distribution(64)] again
    for as long as the agreed key has fewer than 64 bits. If the first
    [n] calls undersupply and the next one does not, the loop ends after
    exactly [n] retries (and not before) with the first 64 bits of that key;
    if every call undersupplies, it never ends. *)
Theorem regeneration_loop_first_supply :
  forall outcomes : nat -> nat -> QuantumKey.trial,
    ((forall n, (length (KeyDes.attempt_key outcomes n) < 64)%nat) ->
     forall fuel, KeyDes.establish_shared_key fuel outcomes = None) /\
    (forall n,
       (forall k, (k < n)%nat ->
          (length (KeyDes.attempt_key outcomes k) < 64)%nat) ->
       (64 <= length (KeyDes.attempt_key outcomes n))%nat ->
       (forall fuel, (fuel <= n)%nat ->
          KeyDes.establish_shared_key fuel outcomes = None) /\
       (forall fuel, (n < fuel)%nat ->
          KeyDes.establish_shared_key fuel outcomes
            = Some (take 64 (KeyDes.attempt_key outcomes n), n) /\
          length (take 64 (KeyDes.attempt_key outcomes n)) = 64%nat)).
Proof.
  intros outcomes. unfold KeyDes.establish_shared_key. split.
  - intros Hshort fuel. now rewrite regenerate_key_never.
  - intros n Hshort Hsupply. split.
    + intros fuel Hfuel.
      now rewrite (regenerate_key_running outcomes n fuel 0%nat Hshort Hfuel).
    + intros fuel Hfuel.
      rewrite (regenerate_key_first_supply outcomes n fuel 0%nat Hshort Hsupply Hfuel).
      split; [reflexivity|]. rewrite length_take. lia.
Qed.

(** The theorem at a generator whose bases differ in the first two calls
    and agree in the third: two retries, then a key of 64 bits. *)
Lemma regeneration_loop_first_supply_witness :
  KeyDes.establish_shared_key 3
    (fun attempt _ => QuantumKey.Trial 0 (if (attempt <? 2)%nat then 1 else 0) 1 1)
  = Some (replicate 64 1, 2%nat).
Proof.
  pose (outcomes := fun (attempt : nat) (_ : nat) =>
          QuantumKey.Trial 0 (if (attempt <? 2)%nat then 1 else 0) 1 1).
  destruct (regeneration_loop_first_supply outcomes) as [_ H].
  destruct (H 2%nat) as [_ H2].
  - intros k Hk. destruct k as [|[|k]]; [vm_compute; lia | vm_compute; lia | lia].
  - vm_compute. lia.
  - destruct (H2 3%nat ltac:(lia)) as [E _]. exact E.
Defined.

(** ** Encryption round trip (both adapters) *)

Section Bytes.

Lemma byte_to_Z_range b : 0 <= byte_to_Z b < 256.
Proof.
  unfold byte_to_Z. pose proof (Byte.to_N_bounded b). lia.
Qed.

Lemma byte_of_to_Z b : byte_of_Z (byte_to_Z b) = b.
Proof.
  unfold byte_of_Z. pose proof (byte_to_Z_range b).
  rewrite Z.mod_small by lia. unfold byte_to_Z.
  rewrite N2Z.id, Byte.of_to_N. reflexivity.
Qed.

Lemma byte_to_of_Z z : 0 <= z < 256 -> byte_to_Z (byte_of_Z z) = z.
Proof.
  intros Hz. unfold byte_of_Z, byte_to_Z. rewrite Z.mod_small by lia.
  destruct (Byte.of_N (Z.to_N z)) as [b|] eqn:E.
  - apply Byte.to_of_N in E. rewrite E. lia.
  - apply Byte.of_N_None_iff in E. lia.
Qed.

End Bytes.

Section Utf8RoundTrip.
Import Utf8.

Lemma encode_char_ascii (c : Z) :
  0 <= c < 128 -> encode_char c = Ok [byte_of_Z c].
Proof.
  intros Hc. unfold encode_char.
  destruct (Z.ltb_spec c 0); [lia|]. destruct (Z.ltb_spec c 128); [reflexivity|lia].
Qed.

Lemma mapM_encode_char_ascii (s : list Z) :
  Forall (fun c => 0 <= c < 128) s ->
  mapM encode_char s = Ok (map (fun c => [byte_of_Z c]) s).
Proof.
  induction 1 as [|c s Hc _ IH]; [reflexivity|].
  cbn [mapM map]. rewrite encode_char_ascii, IH by exact Hc. reflexivity.
Qed.

(** ASCII text is encoded byte for byte. *)
Lemma encode_ascii (s : list Z) :
  Forall (fun c => 0 <= c < 128) s ->
  encode s = Ok (map byte_of_Z s).
Proof.
  intros H. unfold encode. rewrite mapM_encode_char_ascii by exact H.
  cbn [mbind result_bind]. f_equal.
  clear H. induction s as [|c s IH]; [reflexivity|].
  cbn [map concat app]. now rewrite IH.
Qed.

(** Bytes below 128 decode to themselves. *)
Lemma decode_ascii (bs : list byte) :
  Forall (fun b => byte_to_Z b < 128) bs ->
  decode bs = Ok (map byte_to_Z bs).
Proof.
  induction 1 as [|b bs Hb _ IH]; [reflexivity|].
  cbn [decode]. destruct (Z.ltb_spec (byte_to_Z b) 128); [|lia].
  rewrite IH. reflexivity.
Qed.

Lemma printable_is_ascii (s : list Z) :
  Forall printable_ascii s -> Forall (fun c => 0 <= c < 128) s.
Proof.
  intros H. eapply Forall_impl; [exact H|].
  unfold printable_ascii. intros; lia.
Qed.

Lemma decode_encode_ascii (s : list Z) :
  Forall (fun c => 0 <= c < 128) s ->
  decode (map byte_of_Z s) = Ok s.
Proof.
  intros H. rewrite decode_ascii.
  - f_equal. induction H as [|c s Hc _ IH]; [reflexivity|].
    cbn [map]. rewrite byte_to_of_Z by lia. now rewrite IH.
  - apply Forall_map. eapply Forall_impl; [exact H|].
    intros c Hc. cbv beta in Hc. change (byte_to_Z (byte_of_Z c) < 128).
    rewrite byte_to_of_Z; lia.
Qed.

End Utf8RoundTrip.

Section PaddingRoundTrip.
Import Padding.

Lemma pad_length (data : list byte) :
  (length (pad data 8) mod 8 = 0)%nat /\ (0 < length (pad data 8))%nat.
Proof.
  unfold pad. rewrite length_app, length_replicate.
  pose proof (Nat.mod_upper_bound (length data) 8 ltac:(lia)).
  pose proof (Nat.div_mod_eq (length data) 8).
  split; [|lia].
  replace (length data + (8 - length data mod 8))%nat
    with (8 * (length data / 8 + 1))%nat by lia.
  rewrite Nat.mul_comm. apply Nat.Div0.mod_mul.
Qed.

(** [unpad] undoes [pad] for the DES block size. *)
Lemma unpad_pad (data : list byte) : unpad (pad data 8) 8 = Ok data.
Proof.
  destruct (pad_length data) as [Hmod Hpos].
  unfold unpad. rewrite Hmod.
  destruct (Nat.eqb_spec (length (pad data 8)) 0); [lia|]. cbn [negb Nat.eqb].
  unfold pad in *.
  set (p := (8 - length data mod 8)%nat) in *.
  assert (Hp : (1 <= p <= 8)%nat)
    by (pose proof (Nat.mod_upper_bound (length data) 8 ltac:(lia)); lia).
  assert (Hlast : List.last (data ++ replicate p (byte_of_Z (Z.of_nat p))) x00
                  = byte_of_Z (Z.of_nat p)).
  { destruct p as [|p']; [lia|].
    rewrite replicate_S_end, app_assoc. apply List.last_last. }
  rewrite Hlast, byte_to_of_Z, Nat2Z.id by lia.
  rewrite length_app, length_replicate in *.
  destruct (Nat.ltb_spec p 1); [lia|].
  destruct (Nat.ltb_spec (Nat.min 8 (length data + p)) p); [lia|].
  cbn [orb].
  replace (length data + p - p)%nat with (length data) by lia.
  rewrite drop_app_length, take_app_length.
  rewrite bool_decide_eq_true_2 by reflexivity. reflexivity.
Qed.

End PaddingRoundTrip.

Section Base64RoundTrip.
Import Base64.

(** The alphabet, checked entry by entry: a value below 64 names a
    character that is not the padding character, is ASCII, and has that
    value. *)
Lemma alphabet_table :
  forallb (fun i => let ch := char_of (Z.of_nat i) in
                    negb (Byte.eqb ch pad_char)
                    && (byte_to_Z ch <? 128)
                    && bool_decide (value_of ch = Some (Z.of_nat i)))
          (seq 0 64) = true.
Proof. vm_compute. reflexivity. Qed.

Lemma char_of_spec (i : Z) :
  0 <= i < 64 ->
  Byte.eqb (char_of i) pad_char = false /\
  byte_to_Z (char_of i) < 128 /\
  value_of (char_of i) = Some i.
Proof.
  intros Hi. pose proof alphabet_table as H.
  rewrite forallb_forall in H. specialize (H (Z.to_nat i)).
  rewrite Z2Nat.id in H by lia.
  assert (Hin : In (Z.to_nat i) (seq 0 64)) by (apply in_seq; lia).
  apply H in Hin. cbv zeta in Hin.
  apply andb_true_iff in Hin as [Hin H3]. apply andb_true_iff in Hin as [H1 H2].
  apply negb_true_iff in H1. apply Z.ltb_lt in H2. apply bool_decide_eq_true_1 in H3.
  auto.
Qed.

Lemma pad_char_ascii : byte_to_Z pad_char < 128.
Proof. vm_compute. reflexivity. Qed.

(** Replaces an arithmetic expression under [byte_of_Z] that equals the
    value of the byte [x] by [x] itself. *)
Ltac recover_byte x :=
  match goal with
  | |- context [byte_of_Z ?e] =>
      replace e with (byte_to_Z x) by (Z.to_euclidean_division_equations; lia);
      rewrite (byte_of_to_Z x)
  end.

(** One data character moves the decoder one position on. *)
Lemma a2b_loop_data (i : Z) chars quad_pos leftchar pads bin_data :
  0 <= i < 64 ->
  a2b_loop (char_of i :: chars) quad_pos leftchar pads bin_data =
  if quad_pos =? 0 then a2b_loop chars 1 i 0 bin_data
  else if quad_pos =? 1 then
    a2b_loop chars 2 (i mod 16) 0 (bin_data ++ [byte_of_Z (leftchar * 4 + i / 16)])
  else if quad_pos =? 2 then
    a2b_loop chars 3 (i mod 4) 0 (bin_data ++ [byte_of_Z (leftchar * 16 + i / 4)])
  else a2b_loop chars 0 0 0 (bin_data ++ [byte_of_Z (leftchar * 64 + i)]).
Proof.
  intros Hi. destruct (char_of_spec i Hi) as (H1 & _ & H3).
  cbn [a2b_loop]. rewrite H1, H3. reflexivity.
Qed.

(** One padding character: the end of the data if the group is complete
    with it, skipped otherwise. *)
Lemma a2b_loop_pad chars quad_pos leftchar pads bin_data :
  a2b_loop (pad_char :: chars) quad_pos leftchar pads bin_data =
  if (2 <=? quad_pos) && (4 <=? quad_pos + (pads + 1)) then Ok bin_data
  else a2b_loop chars quad_pos leftchar (pads + 1) bin_data.
Proof. reflexivity. Qed.

(** Three bytes are four characters; the decoder gives the bytes back. *)
Lemma a2b_loop_group (a b c : byte) chars bin_data :
  a2b_loop (b64encode [a; b; c] ++ chars) 0 0 0 bin_data
  = a2b_loop chars 0 0 0 (bin_data ++ [a; b; c]).
Proof.
  pose proof (byte_to_Z_range a) as Ha.
  pose proof (byte_to_Z_range b) as Hb.
  pose proof (byte_to_Z_range c) as Hc.
  cbn [b64encode app].
  do 4 (rewrite a2b_loop_data by (Z.to_euclidean_division_equations; lia);
        cbn [Z.eqb Pos.eqb]).
  rewrite <- !app_assoc. cbn [app].
  recover_byte a. recover_byte b. recover_byte c. reflexivity.
Qed.

Lemma a2b_loop_one (a : byte) bin_data :
  a2b_loop (b64encode [a]) 0 0 0 bin_data = Ok (bin_data ++ [a]).
Proof.
  pose proof (byte_to_Z_range a) as Ha.
  cbn [b64encode].
  do 2 (rewrite a2b_loop_data by (Z.to_euclidean_division_equations; lia);
        cbn [Z.eqb Pos.eqb]).
  rewrite a2b_loop_pad.
  change ((2 <=? 2) && (4 <=? 2 + (0 + 1))) with false. cbv iota.
  rewrite a2b_loop_pad.
  change ((2 <=? 2) && (4 <=? 2 + (0 + 1 + 1))) with true. cbv iota.
  recover_byte a. reflexivity.
Qed.

Lemma a2b_loop_two (a b : byte) bin_data :
  a2b_loop (b64encode [a; b]) 0 0 0 bin_data = Ok (bin_data ++ [a; b]).
Proof.
  pose proof (byte_to_Z_range a) as Ha.
  pose proof (byte_to_Z_range b) as Hb.
  cbn [b64encode].
  do 3 (rewrite a2b_loop_data by (Z.to_euclidean_division_equations; lia);
        cbn [Z.eqb Pos.eqb]).
  rewrite a2b_loop_pad.
  change ((2 <=? 3) && (4 <=? 3 + (0 + 1))) with true. cbv iota.
  rewrite <- !app_assoc. cbn [app].
  recover_byte a. recover_byte b. reflexivity.
Qed.

Lemma b64encode_group (a b c : byte) (rest : list byte) :
  b64encode (a :: b :: c :: rest) = b64encode [a; b; c] ++ b64encode rest.
Proof. reflexivity. Qed.

(** Induction on a list three elements at a time. *)
Lemma list_ind_3 {A} (P : list A -> Prop) :
  P [] -> (forall a, P [a]) -> (forall a b, P [a; b]) ->
  (forall a b c l, P l -> P (a :: b :: c :: l)) ->
  forall l, P l.
Proof.
  intros H0 H1 H2 H3.
  assert (H : forall l, P l /\ (forall a, P (a :: l)) /\ (forall a b, P (a :: b :: l))).
  { induction l as [|x l (IH0 & IH1 & IH2)]; [auto|].
    split; [apply IH1|]. split; [intros a; apply IH2|]. intros a b. now apply H3. }
  intros l. apply H.
Qed.

Lemma a2b_loop_b64encode (s : list byte) :
  forall bin_data, a2b_loop (b64encode s) 0 0 0 bin_data = Ok (bin_data ++ s).
Proof.
  induction s as [|a|a b|a b c s IH] using list_ind_3; intros bin_data.
  - cbn. now rewrite app_nil_r.
  - apply a2b_loop_one.
  - apply a2b_loop_two.
  - rewrite b64encode_group, a2b_loop_group, IH, <- app_assoc. reflexivity.
Qed.

(** [a2b_base64] undoes [b64encode]. *)
Lemma a2b_base64_b64encode (s : list byte) : a2b_base64 (b64encode s) = Ok s.
Proof. unfold a2b_base64. now rewrite a2b_loop_b64encode. Qed.

(** The encoded text is ASCII. *)
Lemma b64encode_ascii (s : list byte) :
  Forall (fun ch => byte_to_Z ch < 128) (b64encode s).
Proof.
  induction s as [|a|a b|a b c s IH] using list_ind_3.
  - constructor.
  - pose proof (byte_to_Z_range a). cbn [b64encode].
    repeat constructor; try apply pad_char_ascii;
      apply char_of_spec; Z.to_euclidean_division_equations; lia.
  - pose proof (byte_to_Z_range a). pose proof (byte_to_Z_range b). cbn [b64encode].
    repeat constructor; try apply pad_char_ascii;
      apply char_of_spec; Z.to_euclidean_division_equations; lia.
  - pose proof (byte_to_Z_range a). pose proof (byte_to_Z_range b).
    pose proof (byte_to_Z_range c). cbn [b64encode].
    repeat (constructor; [apply char_of_spec; Z.to_euclidean_division_equations; lia|]).
    exact IH.
Qed.

(** The text that [.decode()] makes of the encoded bytes, given back to
    [b64decode], is decoded to the original bytes. *)
Lemma b64decode_b64encode (s : list byte) :
  Utf8.decode (b64encode s) = Ok (map byte_to_Z (b64encode s)) /\
  b64decode (map byte_to_Z (b64encode s)) = Ok s.
Proof.
  split; [apply decode_ascii, b64encode_ascii|].
  unfold b64decode.
  assert (E : ascii_bytes (map byte_to_Z (b64encode s)) = Ok (b64encode s)).
  { unfold ascii_bytes. pose proof (b64encode_ascii s) as H.
    induction H as [|ch chars Hch _ IH]; [reflexivity|].
    pose proof (byte_to_Z_range ch).
    cbn [map mapM].
    destruct (Z.leb_spec 0 (byte_to_Z ch)); [|lia].
    destruct (Z.ltb_spec (byte_to_Z ch) 128); [|lia].
    cbn. rewrite IH, byte_of_to_Z. reflexivity. }
  rewrite E. cbn [mbind result_bind]. apply a2b_base64_b64encode.
Qed.

End Base64RoundTrip.

Section DesRoundTrip.
Import Des.

Lemma permute_length table bits : length (permute table bits) = length table.
Proof. unfold permute. apply length_map. Qed.


(** The final permutation is the inverse of the initial one. *)
Lemma final_initial (bits : list bool) :
  length bits = 64%nat ->
  permute final_permutation (permute initial_permutation bits) = bits.
Proof.
  intros H.
  do 64 (destruct bits as [|? bits]; [discriminate H|]).
  destruct bits; [reflexivity | discriminate H].
Qed.

Lemma initial_final (bits : list bool) :
  length bits = 64%nat ->
  permute initial_permutation (permute final_permutation bits) = bits.
Proof.
  intros H.
  do 64 (destruct bits as [|? bits]; [discriminate H|]).
  destruct bits; [reflexivity | discriminate H].
Qed.

Lemma xor_bits_length x y :
  length x = length y -> length (xor_bits x y) = length x.
Proof. intros H. unfold xor_bits. rewrite length_zip_with. lia. Qed.

(** Adding the same bits twice changes nothing. *)
Lemma xor_bits_cancel x : forall y,
  length x = length y -> xor_bits (xor_bits x y) y = x.
Proof.
  unfold xor_bits. induction x as [|a x IH]; intros [|b y] H; try discriminate H.
  - reflexivity.
  - cbn [zip_with]. rewrite IH by (cbn in H; lia).
    f_equal. destruct a, b; reflexivity.
Qed.

Lemma feistel_length r k : length (feistel r k) = 32%nat.
Proof. unfold feistel. now rewrite permute_length. Qed.

(** A round, the swap of the halves, and the same round again: the swap. *)
Lemma round_swap_round l r k :
  length l = 32%nat ->
  round (snd (round (l, r) k), fst (round (l, r) k)) k = (r, l).
Proof.
  intros Hl. unfold round. cbn [fst snd].
  rewrite xor_bits_cancel by (now rewrite feistel_length). reflexivity.
Qed.

Lemma rounds_length ks : forall l r,
  length l = 32%nat -> length r = 32%nat ->
  length (fst (fold_left round ks (l, r))) = 32%nat /\
  length (snd (fold_left round ks (l, r))) = 32%nat.
Proof.
  induction ks as [|k ks IH]; intros l r Hl Hr; [auto|].
  cbn [fold_left]. unfold round at 2. cbn [fst snd]. apply IH; [exact Hr|].
  rewrite xor_bits_length; [exact Hl | now rewrite feistel_length].
Qed.

(** The rounds run backwards on the swapped result undo the rounds. *)
Lemma rounds_reverse ks : forall l r,
  length l = 32%nat -> length r = 32%nat ->
  fold_left round (reverse ks)
    (snd (fold_left round ks (l, r)), fst (fold_left round ks (l, r)))
  = (r, l).
Proof.
  induction ks as [|k ks IH] using rev_ind; intros l r Hl Hr; [reflexivity|].
  rewrite reverse_snoc, fold_left_app. cbn [fold_left].
  destruct (rounds_length ks l r Hl Hr) as [Hl' Hr'].
  destruct (fold_left round ks (l, r)) as [l' r'] eqn:E. cbn [fst snd] in Hl', Hr'.
  rewrite (round_swap_round l' r' k Hl').
  specialize (IH l r Hl Hr). rewrite E in IH. exact IH.
Qed.

Lemma crypt_bits_length ks block : length (crypt_bits ks block) = 64%nat.
Proof. unfold crypt_bits. now rewrite permute_length. Qed.

(** Decryption is encryption with the round keys in reverse order. *)
Lemma crypt_bits_inverse ks block :
  length block = 64%nat ->
  crypt_bits (reverse ks) (crypt_bits ks block) = block.
Proof.
  intros H. unfold crypt_bits.
  set (ip := permute initial_permutation block).
  assert (Hip : length ip = 64%nat) by (unfold ip; now rewrite permute_length).
  assert (Hl : length (take 32 ip) = 32%nat) by (rewrite length_take; lia).
  assert (Hr : length (drop 32 ip) = 32%nat) by (rewrite length_drop; lia).
  destruct (rounds_length ks _ _ Hl Hr) as [Hl' Hr'].
  pose proof (rounds_reverse ks _ _ Hl Hr) as Hrev.
  destruct (fold_left round ks (take 32 ip, drop 32 ip)) as [l' r'].
  cbn [fst snd] in *.
  rewrite initial_final by (rewrite length_app; lia).
  rewrite take_app_length', drop_app_length' by lia.
  rewrite Hrev. cbn [fst snd]. rewrite take_drop.
  unfold ip. apply final_initial, H.
Qed.

Lemma bits_of_bytes_length (bs : list byte) :
  length (bits_of_bytes bs) = (8 * length bs)%nat.
Proof.
  unfold bits_of_bytes. induction bs as [|b bs IH]; [reflexivity|].
  cbn [map concat]. rewrite length_app, IH. unfold bits_of_byte.
  destruct (Byte.to_bits b) as (?&?&?&?&?&?&?&?). cbn [length]. lia.
Qed.

Lemma bytes_of_bits_of_bytes (bs : list byte) :
  bytes_of_bits (bits_of_bytes bs) = bs.
Proof.
  unfold bits_of_bytes. induction bs as [|b bs IH]; [reflexivity|].
  cbn [map concat]. unfold bits_of_byte at 1.
  pose proof (Byte.of_bits_to_bits b) as Hb.
  destruct (Byte.to_bits b) as (b0&b1&b2&b3&b4&b5&b6&b7).
  cbn [app bytes_of_bits]. rewrite Hb, IH. reflexivity.
Qed.

Lemma bits_of_bytes_of_bits (n : nat) : forall bits : list bool,
  length bits = (8 * n)%nat ->
  bits_of_bytes (bytes_of_bits bits) = bits.
Proof.
  induction n as [|n IH]; intros bits H.
  - destruct bits; [reflexivity | discriminate H].
  - destruct bits as [|b7 [|b6 [|b5 [|b4 [|b3 [|b2 [|b1 [|b0 rest]]]]]]]];
      try (cbn in H; lia).
    cbn [bytes_of_bits]. unfold bits_of_bytes. cbn [map concat].
    unfold bits_of_byte at 1. rewrite Byte.to_bits_of_bits. cbn [app].
    do 8 f_equal. apply IH. cbn [length] in H. lia.
Qed.

Lemma bytes_of_bits_length (n : nat) : forall bits : list bool,
  length bits = (8 * n)%nat -> length (bytes_of_bits bits) = n.
Proof.
  induction n as [|n IH]; intros bits H.
  - destruct bits; [reflexivity | discriminate H].
  - destruct bits as [|b7 [|b6 [|b5 [|b4 [|b3 [|b2 [|b1 [|b0 rest]]]]]]]];
      try (cbn in H; lia).
    cbn [bytes_of_bits length]. f_equal. apply IH. cbn [length] in H. lia.
Qed.

Lemma encrypt_block_length key block : length (encrypt_block key block) = 8%nat.
Proof.
  unfold encrypt_block. apply bytes_of_bits_length. now rewrite crypt_bits_length.
Qed.

Lemma decrypt_block_length key block : length (decrypt_block key block) = 8%nat.
Proof.
  unfold decrypt_block. apply bytes_of_bits_length. now rewrite crypt_bits_length.
Qed.

(** One block: decryption undoes encryption under the same key. *)
Lemma decrypt_encrypt_block key block :
  length block = 8%nat ->
  decrypt_block key (encrypt_block key block) = block.
Proof.
  intros H. unfold decrypt_block, encrypt_block.
  rewrite (bits_of_bytes_of_bits 8) by apply crypt_bits_length.
  rewrite crypt_bits_inverse by (rewrite bits_of_bytes_length; lia).
  apply bytes_of_bits_of_bytes.
Qed.

Lemma ecb_block f (block rest : list byte) :
  length block = 8%nat -> ecb f (block ++ rest) = f block ++ ecb f rest.
Proof.
  intros H.
  destruct block as [|b0 [|b1 [|b2 [|b3 [|b4 [|b5 [|b6 [|b7 [|? ?]]]]]]]]];
    try discriminate H.
  reflexivity.
Qed.

(** On whole blocks, ECB keeps the length, and ECB decryption undoes ECB
    encryption. *)
Lemma ecb_whole_blocks key (n : nat) : forall data : list byte,
  length data = (8 * n)%nat ->
  length (ecb (encrypt_block key) data) = length data /\
  ecb (decrypt_block key) (ecb (encrypt_block key) data) = data.
Proof.
  induction n as [|n IH]; intros data H.
  - destruct data; [split; reflexivity | discriminate H].
  - rewrite <- (take_drop 8 data).
    assert (Hb : length (take 8 data) = 8%nat) by (rewrite length_take; lia).
    assert (Hr : length (drop 8 data) = (8 * n)%nat) by (rewrite length_drop; lia).
    destruct (IH _ Hr) as [IHl IHe].
    rewrite (ecb_block _ _ _ Hb). split.
    + rewrite !length_app, encrypt_block_length, IHl, Hb. reflexivity.
    + rewrite ecb_block by apply encrypt_block_length.
      rewrite decrypt_encrypt_block by exact Hb. now rewrite IHe.
Qed.

(** The cipher object: encrypt, then decrypt, on padded data. *)
Lemma des_decrypt_encrypt (c : cipher) (data : list byte) :
  (length data mod 8 = 0)%nat ->
  exists encrypted,
    encrypt c data = Ok encrypted /\ decrypt c encrypted = Ok data.
Proof.
  intros H. unfold encrypt, decrypt, block_size. rewrite H. cbn [Nat.eqb].
  assert (Hn : length data = (8 * (length data / 8))%nat)
    by (pose proof (Nat.div_mod_eq (length data) 8); lia).
  destruct (ecb_whole_blocks (cipher_key c) _ data Hn) as [Hl He].
  eexists. split; [reflexivity|]. rewrite Hl, H, He. reflexivity.
Qed.

End DesRoundTrip.

Section AdapterRoundTrip.

(** The bodies of [encrypt] and [decrypt], which the two adapter classes
    share word for word, on a key of eight bytes. *)
Lemma adapter_round_trip (key : list byte) (message : list Z) :
  length key = 8%nat ->
  Forall Utf8.printable_ascii message ->
  exists encrypted_message,
    (cipher ← Des.new key;
     data ← Utf8.encode message;
     encrypted ← Des.encrypt cipher (Padding.pad data Des.block_size);
     Utf8.decode (Base64.b64encode encrypted)) = Ok encrypted_message /\
    (cipher ← Des.new key;
     encrypted ← Base64.b64decode encrypted_message;
     decrypted ← Des.decrypt cipher encrypted;
     unpadded ← Padding.unpad decrypted Des.block_size;
     Utf8.decode unpadded) = Ok message.
Proof.
  intros Hkey Hmsg. apply printable_is_ascii in Hmsg.
  unfold Des.new. rewrite Hkey. cbn [Nat.eqb mbind result_bind].
  rewrite (encode_ascii message Hmsg). cbn [mbind result_bind].
  destruct (des_decrypt_encrypt (Des.Cipher key)
              (Padding.pad (map byte_of_Z message) Des.block_size))
    as (encrypted & Henc & Hdec).
  { apply pad_length. }
  rewrite Henc. cbn [mbind result_bind].
  destruct (b64decode_b64encode encrypted) as [Htext Hback].
  rewrite Htext. eexists. split; [reflexivity|].
  rewrite Hback. cbn [mbind result_bind].
  rewrite Hdec. cbn [mbind result_bind].
  unfold Des.block_size. rewrite unpad_pad. cbn [mbind result_bind].
  apply decode_encode_ascii, Hmsg.
Qed.

End AdapterRoundTrip.

(** C5. For every 64-bit key and every printable-ASCII message, both
    adapters ([QuantumDES] of keydes.py and [OptimizedQuantumDES] of the API
    server) accept the key, encrypt the message, and decrypt the result to
    the original message. *)
Theorem encrypt_decrypt_round_trip :
  forall (key_bits message : list Z),
    length key_bits = 64%nat ->
    Forall is_bit key_bits ->
    Forall Utf8.printable_ascii message ->
    (exists cipher encrypted,
       KeyDes.QuantumDES.init key_bits = Ok cipher /\
       KeyDes.QuantumDES.encrypt cipher message = Ok encrypted /\
       KeyDes.QuantumDES.decrypt cipher encrypted = Ok message) /\
    (exists cipher encrypted,
       ApiServer.OptimizedQuantumDES.init key_bits = Ok cipher /\
       ApiServer.OptimizedQuantumDES.encrypt cipher message = Ok encrypted /\
       ApiServer.OptimizedQuantumDES.decrypt cipher encrypted = Ok message).
Proof.
  intros key_bits message Hlen Hbits Hmsg. split.
  - destruct (quantum_des_key_spec key_bits Hbits) as (key & Hq & Hkey & _);
      [lia|].
    destruct (adapter_round_trip key message Hkey Hmsg)
      as (encrypted & Henc & Hdec).
    exists (KeyDes.QuantumDES.Build key), encrypted.
    unfold KeyDes.QuantumDES.init. rewrite Hq. auto.
  - destruct (optimized_init_spec key_bits Hbits) as (key & Hinit & Hkey & _).
    destruct (adapter_round_trip key message Hkey Hmsg)
      as (encrypted & Henc & Hdec).
    exists (ApiServer.OptimizedQuantumDES.Build key), encrypted. auto.
Qed.

(** The theorem at the key 133457799BBCDFF1 and the message "hello". *)
Lemma encrypt_decrypt_round_trip_witness :
  exists cipher encrypted,
    ApiServer.OptimizedQuantumDES.init
      [0; 0; 0; 1; 0; 0; 1; 1;  0; 0; 1; 1; 0; 1; 0; 0;
       0; 1; 0; 1; 0; 1; 1; 1;  0; 1; 1; 1; 1; 0; 0; 1;
       1; 0; 0; 1; 1; 0; 1; 1;  1; 0; 1; 1; 1; 1; 0; 0;
       1; 1; 0; 1; 1; 1; 1; 1;  1; 1; 1; 1; 0; 0; 0; 1] = Ok cipher /\
    ApiServer.OptimizedQuantumDES.encrypt cipher [104; 101; 108; 108; 111]
      = Ok encrypted /\
    ApiServer.OptimizedQuantumDES.decrypt cipher encrypted
      = Ok [104; 101; 108; 108; 111].
Proof.
  refine (proj2 (encrypt_decrypt_round_trip _ [104; 101; 108; 108; 111] _ _ _)).
  - reflexivity.
  - each_bit.
  - each_element ltac:(unfold Utf8.printable_ascii; lia).
Defined.

(** The same key and message, computed: the ciphertext is the text
    GA+LBEohHUc= that OpenSSL's DES-ECB gives for them. *)
Example encrypt_hello :
  (cipher ← ApiServer.OptimizedQuantumDES.init
      [0; 0; 0; 1; 0; 0; 1; 1;  0; 0; 1; 1; 0; 1; 0; 0;
       0; 1; 0; 1; 0; 1; 1; 1;  0; 1; 1; 1; 1; 0; 0; 1;
       1; 0; 0; 1; 1; 0; 1; 1;  1; 0; 1; 1; 1; 1; 0; 0;
       1; 1; 0; 1; 1; 1; 1; 1;  1; 1; 1; 1; 0; 0; 0; 1];
   ApiServer.OptimizedQuantumDES.encrypt cipher [104; 101; 108; 108; 111])
  = Ok (map byte_to_Z (String.list_byte_of_string "GA+LBEohHUc=")).
Proof. vm_compute. reflexivity. Qed.

(** ** The session cache and the request handlers (api_server_short.py) *)

Section ServerLogic.
Import ApiServer.

(** *** Heap changes *)

Lemma extends_refl s : extends s s.
Proof. split; [lia|]. intros l bits H. eauto. Qed.

Lemma extends_trans s1 s2 s3 : extends s1 s2 -> extends s2 s3 -> extends s1 s3.
Proof.
  intros [H1 H1'] [H2 H2']. split; [lia|].
  intros l bits H. destruct (H1' _ _ H) as (bits' & Hb & Hl).
  destruct (H2' _ _ Hb) as (bits'' & Hb' & Hl'). exists bits''. split; [exact Hb'|lia].
Qed.

Lemma value_ok_stable v : stable (fun s => value_ok s v).
Proof.
  intros s s' [_ H] Hv. destruct v as [|?|l|?]; try exact Hv.
  destruct Hv as (bits & Hb & Hl). destruct (H _ _ Hb) as (bits' & Hb' & Hl').
  exists bits'. split; [exact Hb'|lia].
Qed.

(** *** Rules for [triple] *)

Lemma triple_ret {A} (a : A) (Q : A -> state -> Prop) :
  triple (Q a) (mret a) Q.
Proof.
  intros s Hi HP. cbn. split; [apply extends_refl|]. split; [exact Hi|].
  intros a' [= <-]. exact HP.
Qed.

Lemma triple_raise {A} (e : exn) P (Q : A -> state -> Prop) :
  triple P (raise e) Q.
Proof.
  intros s Hi HP. cbn. split; [apply extends_refl|]. split; [exact Hi|].
  intros a' [=].
Qed.

Lemma triple_bind {A B} P (m : M A) Q (f : A -> M B) R :
  triple P m Q -> (forall a, triple (Q a) (f a) R) -> triple P (m ≫= f) R.
Proof.
  intros Hm Hf s Hi HP. destruct (Hm s Hi HP) as (He & Hi' & HQ).
  unfold mbind, M_bind. destruct (m s) as [[a|e] s1]; cbn [fst snd] in *.
  - destruct (Hf a s1 Hi' (HQ a eq_refl)) as (He' & Hi'' & HR).
    split; [eapply extends_trans; eassumption|]. split; assumption.
  - split; [exact He|]. split; [exact Hi'|]. intros b [=].
Qed.

Lemma triple_conseq {A} (P P' : state -> Prop) (m : M A) (Q Q' : A -> state -> Prop) :
  triple P m Q ->
  (forall s, invariant s -> P' s -> P s) ->
  (forall a s, invariant s -> Q a s -> Q' a s) ->
  triple P' m Q'.
Proof.
  intros Hm HP HQ s Hi HP'. destruct (Hm s Hi (HP s Hi HP')) as (He & Hi' & H).
  split; [exact He|]. split; [exact Hi'|]. intros a Ha. apply HQ; auto.
Qed.

Lemma triple_frame {A} (F P : state -> Prop) (m : M A) (Q : A -> state -> Prop) :
  stable F -> triple P m Q ->
  triple (fun s => F s /\ P s) m (fun a s => F s /\ Q a s).
Proof.
  intros HF Hm s Hi [HFs HP]. destruct (Hm s Hi HP) as (He & Hi' & H).
  split; [exact He|]. split; [exact Hi'|]. intros a Ha. split; [|auto].
  eapply HF; eassumption.
Qed.

(** A command that leaves the state alone keeps every property of it, and
    its result is the one it has in that state. *)
Lemma triple_readonly {A} (m : M A) (P : state -> Prop) :
  readonly m -> triple P m (fun a s => P s /\ fst (m s) = Ok a).
Proof.
  intros Hr s Hi HP. rewrite (Hr s).
  split; [apply extends_refl|]. split; [exact Hi|]. intros a Ha. auto.
Qed.

Lemma readonly_ret {A} (a : A) : readonly (mret a : M A).
Proof. intros s. reflexivity. Qed.

Lemma readonly_raise {A} e : readonly (raise e : M A).
Proof. intros s. reflexivity. Qed.

Lemma readonly_lift {A} (r : result A) : readonly (lift r).
Proof. intros s. reflexivity. Qed.

Lemma readonly_read_list l : readonly (read_list l).
Proof. intros s. unfold read_list. destruct (heap s !! l); reflexivity. Qed.

Lemma readonly_as_list v : readonly (as_list v).
Proof. intros s. destruct v; reflexivity. Qed.

Lemma readonly_cache_get key subkey : readonly (cache_get key subkey).
Proof. intros s. reflexivity. Qed.

Lemma readonly_bind {A B} (m : M A) (f : A -> M B) :
  readonly m -> (forall a, readonly (f a)) -> readonly (m ≫= f).
Proof.
  intros Hm Hf s. unfold mbind, M_bind. specialize (Hm s).
  destruct (m s) as [[a|e] s1]; cbn [snd] in *; subst s1; [apply Hf | reflexivity].
Qed.

Lemma readonly_truthy v : readonly (truthy v).
Proof.
  destruct v; cbn [truthy]; try apply readonly_ret.
  apply readonly_bind; [apply readonly_read_list | intros; apply readonly_ret].
Qed.

(** *** The commands that change the state *)

Lemma triple_new_list (bits : list Z) :
  Forall is_bit bits ->
  triple (fun _ => True) (new_list bits) (fun l s => heap s !! l = Some bits).
Proof.
  intros Hb s [Hh Hc] _. unfold new_list. cbn [fst snd].
  assert (Hfresh : heap s !! next_loc s = None).
  { destruct (heap s !! next_loc s) eqn:E; [|reflexivity].
    apply Hh in E. lia. }
  assert (He : extends s (State (<[next_loc s := bits]> (heap s))
                                (S (next_loc s)) (_cache s))).
  { split; [cbn; lia|]. intros l bits' H. cbn [heap].
    exists bits'. split; [|reflexivity].
    rewrite lookup_insert_ne; [exact H|]. intros <-. congruence. }
  split; [exact He|]. split.
  - split.
    + intros l bits' H. cbn [heap next_loc] in *.
      destruct (decide (next_loc s = l)) as [<-|Hne].
      * rewrite lookup_insert_eq in H. injection H as <-. split; [lia|exact Hb].
      * rewrite lookup_insert_ne in H by exact Hne. apply Hh in H. split; [lia|tauto].
    + intros role Hr. cbn [_cache]. eapply value_ok_stable; [exact He|]. now apply Hc.
  - intros l [= <-]. cbn [heap]. apply lookup_insert_eq.
Qed.

Lemma triple_write_item l i x :
  is_bit x ->
  triple (fun _ => True) (write_item l i x) (fun _ _ => True).
Proof.
  intros Hx s [Hh Hc] _. unfold write_item.
  destruct (heap s !! l) as [bits|] eqn:E;
    [|cbn; split; [apply extends_refl|]; split; [split; assumption | auto]].
  destruct (i <? length bits)%nat;
    [|cbn; split; [apply extends_refl|]; split; [split; assumption | auto]].
  cbn [fst snd].
  assert (He : extends s (State (<[l := <[i := x]> bits]> (heap s))
                                (next_loc s) (_cache s))).
  { split; [cbn; lia|]. intros l' bits' H. cbn [heap].
    destruct (decide (l = l')) as [<-|Hne].
    - rewrite lookup_insert_eq. eexists. split; [reflexivity|].
      rewrite length_insert. congruence.
    - rewrite lookup_insert_ne by exact Hne. eauto. }
  split; [exact He|]. split; [|auto]. split.
  - intros l' bits' H. cbn [heap next_loc] in *.
    destruct (decide (l = l')) as [<-|Hne].
    + rewrite lookup_insert_eq in H. injection H as <-.
      destruct (Hh _ _ E) as [Hlt Hbits]. split; [exact Hlt|].
      apply Forall_insert; assumption.
    + rewrite lookup_insert_ne in H by exact Hne. now apply Hh.
  - intros role Hr. cbn [_cache]. eapply value_ok_stable; [exact He|]. now apply Hc.
Qed.

Lemma stable_pure (phi : Prop) : stable (fun _ => phi).
Proof. intros s s' _ H. exact H. Qed.

Lemma stable_and (F G : state -> Prop) :
  stable F -> stable G -> stable (fun s => F s /\ G s).
Proof. intros HF HG s s' He [H1 H2]. split; [eapply HF | eapply HG]; eassumption. Qed.

(** One step of a handler: the command [m] under the frame [F]. *)
Lemma triple_step {A B} (F P Pm : state -> Prop) (m : M A) Q (f : A -> M B) R :
  stable F ->
  triple Pm m Q ->
  (forall s, invariant s -> P s -> F s /\ Pm s) ->
  (forall a, triple (fun s => F s /\ Q a s) (f a) R) ->
  triple P (m ≫= f) R.
Proof.
  intros HF Hm HP Hf. eapply triple_bind; [|exact Hf].
  eapply triple_conseq; [apply (triple_frame F Pm m Q HF Hm) | exact HP | auto].
Qed.

(** A step that only reads. *)
Lemma triple_read {A B} (P : state -> Prop) (m : M A) (f : A -> M B) R :
  readonly m ->
  (forall a, triple (fun s => P s /\ fst (m s) = Ok a) (f a) R) ->
  triple P (m ≫= f) R.
Proof.
  intros Hr Hf. eapply triple_bind; [apply triple_readonly, Hr | exact Hf].
Qed.

(** A fact that follows from the precondition may be used outright. *)
Lemma triple_exploit {A} (phi : Prop) (P : state -> Prop) (m : M A) Q :
  (forall s, invariant s -> P s -> phi) -> (phi -> triple P m Q) -> triple P m Q.
Proof. intros H1 H2 s Hi HP. exact (H2 (H1 s Hi HP) s Hi HP). Qed.

(** Weakening the precondition. *)
Lemma triple_weaken {A} (P P' : state -> Prop) (m : M A) Q :
  (forall s, invariant s -> P' s -> P s) -> triple P m Q -> triple P' m Q.
Proof. intros HP Hm. eapply triple_conseq; [exact Hm | exact HP | auto]. Qed.

Lemma triple_done {A} (P : state -> Prop) (a : A) :
  triple P (mret a) (fun _ _ => True).
Proof.
  intros s Hi _. cbn. split; [apply extends_refl|]. split; [exact Hi | auto].
Qed.

(** Reading an entry back after [cache.set("keys", subkey, v)]. *)
Lemma lookup_cache_set s subkey v role :
  v <> VNone -> role <> "" ->
  lookup_cache (_cache (snd (cache_set "keys" subkey v s))) "keys" (Some role)
  = if decide (subkey = role) then v
    else lookup_cache (_cache s) "keys" (Some role).
Proof.
  intros Hv Hr. destruct role as [|a role]; [congruence|].
  assert (E : _cache (snd (cache_set "keys" subkey v s))
              = <["keys" := VDict (<[subkey := v]>
                   match _cache s !! "keys" with Some (VDict d) => d | _ => ∅ end)]>
                (_cache s))
    by (destruct v; [congruence | reflexivity ..]).
  rewrite E. unfold lookup_cache. rewrite lookup_insert_eq.
  destruct (decide (subkey = String a role)) as [->|Hne].
  - now rewrite lookup_insert_eq.
  - rewrite lookup_insert_ne by exact Hne.
    destruct (_cache s !! "keys") as [[| | |d]|]; try reflexivity.
Qed.

Lemma cache_set_heap key subkey v s :
  heap (snd (cache_set key subkey v s)) = heap s /\
  next_loc (snd (cache_set key subkey v s)) = next_loc s.
Proof. destruct v; split; reflexivity. Qed.

Lemma role_nonempty role : role ∈ roles -> role <> "".
Proof.
  unfold roles. intros H ->.
  repeat (apply elem_of_cons in H as [H|H]; [discriminate H|]).
  now apply elem_of_nil in H.
Qed.

Lemma triple_cache_set subkey v :
  v <> VNone ->
  triple (fun s => value_ok s v) (cache_set "keys" subkey v) (fun _ _ => True).
Proof.
  intros Hv s [Hh Hc] Hok.
  destruct (cache_set_heap "keys" subkey v s) as [Eh En].
  assert (He : extends s (snd (cache_set "keys" subkey v s))).
  { split; [lia|]. intros l bits H. rewrite Eh. eauto. }
  split; [exact He|]. split; [|auto]. split.
  - intros l bits H. rewrite Eh in H. rewrite En. now apply Hh.
  - intros role Hr.
    rewrite lookup_cache_set by (auto using role_nonempty).
    destruct (decide (subkey = role)).
    + eapply value_ok_stable; [exact He | exact Hok].
    + eapply value_ok_stable; [exact He | now apply Hc].
Qed.

(** *** ThreadSafeCache: construction and [clear] *)

Lemma triple_put_cache c :
  (forall role, role ∈ roles -> lookup_cache c "keys" (Some role) = VNone) ->
  triple (fun _ => True) (put_cache c) (fun _ _ => True).
Proof.
  intros Hc s [Hh _] _. unfold put_cache. cbn [fst snd].
  split; [split; [cbn; lia | cbn; eauto]|]. split; [|auto]. split.
  - exact Hh.
  - intros role Hr. cbn [_cache]. now rewrite Hc.
Qed.

Lemma triple_ThreadSafeCache_init :
  triple (fun _ => True) ThreadSafeCache_init (fun _ _ => True).
Proof.
  unfold ThreadSafeCache_init.
  eapply (triple_step (fun _ => True));
    [apply stable_pure | apply triple_new_list; constructor
    | intros; split; exact I | intros circuits].
  eapply (triple_step (fun _ => True));
    [apply stable_pure | apply triple_new_list; constructor
    | intros; split; exact I | intros qber_history].
  eapply triple_conseq;
    [apply triple_put_cache | intros; exact I | intros; exact I].
  intros role Hr. unfold roles in Hr.
  repeat (apply elem_of_cons in Hr as [->|Hr]; [reflexivity|]).
  now apply elem_of_nil in Hr.
Qed.

Lemma invariant_initial : invariant initial_state.
Proof.
  assert (H0 : invariant (State ∅ 0%nat ∅)).
  { split.
    - intros l bits H. cbn in H. now rewrite lookup_empty in H.
    - intros role _. unfold lookup_cache. cbn [_cache].
      rewrite lookup_empty. destruct role; exact I. }
  exact (proj1 (proj2 (triple_ThreadSafeCache_init _ H0 I))).
Qed.

(** *** Keys the handlers make *)

Lemma randint_bit r : is_bit (randint 0 1 r).
Proof.
  unfold randint, is_bit. change (1 - 0 + 1) with 2.
  pose proof (Z.mod_pos_bound (Z.of_nat r) 2 ltac:(lia)). lia.
Qed.

Lemma random_bits_spec rnd first :
  length (random_bits rnd first) = 64%nat /\ Forall is_bit (random_bits rnd first).
Proof.
  unfold random_bits. split; [now rewrite length_map, length_seq|].
  apply Forall_map, Forall_forall. intros i _. apply randint_bit.
Qed.

Lemma measured_bits_spec (measure : nat -> bool) :
  length (map (fun i => Z.b2z (measure i)) (seq 0 64)) = 64%nat /\
  Forall is_bit (map (fun i => Z.b2z (measure i)) (seq 0 64)).
Proof.
  split; [now rewrite length_map, length_seq|].
  apply Forall_map, Forall_forall. intros i _.
  unfold is_bit. destruct (measure i); cbn; lia.
Qed.

(** A new key of 64 bits, in the heap from then on. *)
Lemma triple_new_key (bits : list Z) :
  length bits = 64%nat -> Forall is_bit bits ->
  triple (fun _ => True) (new_list bits) (fun l s => value_ok s (VList l)).
Proof.
  intros Hl Hb. eapply triple_conseq; [apply (triple_new_list bits Hb) | auto |].
  intros l s _ H. exists bits. auto.
Qed.

(** *** The handlers keep the invariant *)

Ltac solve_readonly :=
  repeat first
    [ apply readonly_ret | apply readonly_raise | apply readonly_lift
    | apply readonly_read_list | apply readonly_as_list
    | apply readonly_cache_get | apply readonly_truthy
    | apply readonly_bind; [|intros ?]
    | match goal with
      | |- readonly (if ?b then _ else _) => destruct b
      | |- readonly (match ?x with _ => _ end) => destruct x
      end ].

Lemma readonly_encrypt request_json : readonly (encrypt request_json).
Proof. unfold encrypt. solve_readonly. Qed.

Lemma readonly_decrypt request_json : readonly (decrypt request_json).
Proof. unfold decrypt. solve_readonly. Qed.

(** What a successful read through a value tells. *)
Lemma read_value_spec v s bits :
  fst ((as_list v ≫= read_list) s) = Ok bits ->
  exists l, v = VList l /\ heap s !! l = Some bits.
Proof.
  destruct v as [| |l|]; try discriminate.
  change ((as_list (VList l) ≫= read_list) s) with (read_list l s).
  unfold read_list. destruct (heap s !! l) as [bits'|] eqn:E; [|discriminate].
  cbn [fst]. intros [= <-]. eauto.
Qed.

Lemma triple_overwrite_loop rnd current_key eve_attempt_key n :
  forall draw,
    triple (fun _ => True)
      (overwrite_loop rnd current_key eve_attempt_key draw n) (fun _ _ => True).
Proof.
  induction n as [|n IH]; intros draw; [apply triple_done|].
  cbn [overwrite_loop].
  apply triple_read; [solve_readonly | intros key_bits].
  apply (triple_exploit (Forall is_bit key_bits)).
  { intros s [Hh _] [_ H]. apply read_value_spec in H as (l & _ & H).
    now apply Hh in H. }
  intros Hbits.
  apply triple_read; [solve_readonly | intros x].
  apply (triple_exploit (is_bit x)).
  { intros s _ [_ H]. cbn in H. unfold index in H.
    destruct (key_bits !! _) as [y|] eqn:E; [|discriminate].
    injection H as <-. rewrite Forall_forall in Hbits.
    apply Hbits. eapply list_elem_of_lookup_2, E. }
  intros Hx.
  eapply (triple_step (fun _ => True));
    [apply stable_pure | apply triple_write_item, Hx
    | intros; split; exact I | intros []].
  eapply triple_weaken; [|apply IH]. intros; exact I.
Qed.

(** A valid key type is the string classic or the string quantum. *)
Lemma valid_key_type_spec v key_type :
  valid_key_type v = Some key_type <->
  (key_type = "classic" \/ key_type = "quantum") /\
  v = JsonString (code_points key_type).
Proof.
  unfold valid_key_type. cbn [find]. split.
  - destruct (json_is_str "classic" v) eqn:E1.
    + intros [= <-]. split; [now left|].
      destruct v; try discriminate E1. cbn in E1.
      apply bool_decide_eq_true_1 in E1. now subst.
    + destruct (json_is_str "quantum" v) eqn:E2; [|discriminate].
      intros [= <-]. split; [now right|].
      destruct v; try discriminate E2. cbn in E2.
      apply bool_decide_eq_true_1 in E2. now subst.
  - intros [[-> | ->] ->]; reflexivity.
Qed.

Lemma valid_key_type_role v key_type :
  valid_key_type v = Some key_type -> key_type ∈ roles.
Proof.
  intros H. apply valid_key_type_spec in H as [[-> | ->] _]; unfold roles.
  - apply elem_of_cons. now left.
  - apply elem_of_cons. right. apply elem_of_cons. now left.
Qed.

Lemma triple_init_keys method rnd measure_quantum measure_eve :
  triple (fun _ => True) (init_keys method rnd measure_quantum measure_eve)
         (fun _ _ => True).
Proof.
  unfold init_keys, generate_quantum_key.
  destruct (random_bits_spec rnd 0) as [Hcl Hcb].
  destruct (measured_bits_spec measure_quantum) as [Hql Hqb].
  destruct (measured_bits_spec measure_eve) as [Hel Heb].
  destruct method; try apply triple_done.
  all: eapply (triple_step (fun _ => True));
    [apply stable_pure | apply triple_new_key; assumption
    | intros; split; exact I | intros classic_key].
  all: eapply (triple_step (fun s => value_ok s (VList classic_key)));
    [apply value_ok_stable | apply triple_new_key; assumption
    | intros s _ H; split; [apply H | exact I] | intros quantum_key].
  all: eapply (triple_step (fun s => value_ok s (VList classic_key) /\
                                     value_ok s (VList quantum_key)));
    [apply stable_and; apply value_ok_stable | apply triple_new_key; assumption
    | intros s _ H; split; [exact H | exact I] | intros eve_bits].
  all: apply triple_read; [solve_readonly | intros quantum_bits].
  all: apply triple_read; [solve_readonly | intros eve_bits'].
  all: apply triple_read; [solve_readonly | intros qber].
  all: eapply (triple_step (fun s => value_ok s (VList quantum_key) /\
                                     value_ok s (VList eve_bits)));
    [apply stable_and; apply value_ok_stable
    | apply triple_cache_set; discriminate
    | intros s _ H; tauto | intros []].
  all: eapply (triple_step (fun s => value_ok s (VList eve_bits)));
    [apply value_ok_stable
    | apply triple_cache_set; discriminate
    | intros s _ H; tauto | intros []].
  all: eapply (triple_step (fun _ => True));
    [apply stable_pure
    | apply triple_cache_set; discriminate
    | intros s _ H; tauto | intros []].
  all: apply triple_read; [solve_readonly | intros classic_bits].
  all: apply triple_done.
Qed.

Lemma truthy_not_none v s :
  fst (truthy v s) = Ok true -> v <> VNone.
Proof. intros H ->. discriminate H. Qed.

Lemma triple_eve_attack request_json rnd measure :
  triple (fun _ => True) (eve_attack request_json rnd measure) (fun _ _ => True).
Proof.
  unfold eve_attack, generate_quantum_key.
  destruct (random_bits_spec rnd 0) as [Hgl Hgb].
  destruct (measured_bits_spec measure) as [Hml Hmb].
  apply triple_read; [solve_readonly | intros data].
  apply triple_read; [solve_readonly | intros missing].
  destruct missing; [apply triple_done|].
  apply triple_read; [solve_readonly | intros key_type'].
  destruct (valid_key_type key_type') as [key_type|] eqn:Hvalid; [|apply triple_done].
  apply valid_key_type_role in Hvalid.
  eapply (triple_weaken (fun _ => True)); [intros; exact I|].
  apply triple_read; [solve_readonly | intros current_key].
  apply triple_read; [solve_readonly | intros eve_key].
  apply triple_read; [solve_readonly | intros have_key].
  apply triple_read; [solve_readonly | intros have_eve].
  destruct have_key; [|apply triple_done].
  destruct have_eve; [|apply triple_done].
  cbn [andb negb].
  apply (triple_exploit (current_key <> VNone)).
  { intros s _ [[[_ _] H] _]. now apply truthy_not_none in H. }
  intros Hsome.
  eapply (triple_weaken (fun s => value_ok s current_key)).
  { intros s [_ Hc] [[[[_ H] _] _] _]. cbn in H. injection H as <-. now apply Hc. }
  assert (Hguess : forall (rest : loc -> M response),
    (forall eve_attempt_key,
       triple (fun s => value_ok s current_key) (rest eve_attempt_key)
              (fun _ _ => True)) ->
    triple (fun s => value_ok s current_key)
      (eve_attempt_key ← new_list (random_bits rnd 0);
       cache_set "keys" "eve" (VList eve_attempt_key);; rest eve_attempt_key)
      (fun _ _ => True)).
  { intros rest Hrest.
    eapply (triple_step (fun s => value_ok s current_key));
      [apply value_ok_stable | apply triple_new_key; assumption
      | intros s _ H; split; [exact H | exact I] | intros eve_attempt_key].
    eapply (triple_step (fun s => value_ok s current_key));
      [apply value_ok_stable | apply triple_cache_set; discriminate
      | intros s _ H; exact H | intros []].
    eapply triple_weaken; [|apply Hrest]. intros s _ H. apply H. }
  destruct (bool_decide (key_type = "classic")).
  - apply (Hguess (fun eve_attempt_key => _)). intros eve_attempt_key.
    eapply (triple_step (fun s => value_ok s current_key));
      [apply value_ok_stable | apply triple_overwrite_loop
      | intros s _ H; split; [exact H | exact I] | intros []].
    apply triple_read; [solve_readonly | intros key_bits].
    apply triple_read; [solve_readonly | intros eve_bits].
    destruct (48 <? count_matches key_bits eve_bits); [|apply triple_done].
    eapply (triple_step (fun _ => True));
      [apply stable_pure | apply triple_cache_set, Hsome
      | intros s _ H; split; [exact I | apply H] | intros []].
    apply triple_done.
  - apply (Hguess (fun eve_attempt_key => _)). intros eve_attempt_key.
    apply triple_read; [solve_readonly | intros key_bits].
    apply triple_read; [solve_readonly | intros eve_bits].
    destruct (match_verdict (count_matches key_bits eve_bits));
      [apply triple_done | | | ].
    all: eapply (triple_step (fun _ => True));
      [apply stable_pure | apply triple_new_key; assumption
      | intros; split; exact I | intros new_quantum_key].
    all: eapply (triple_step (fun _ => True));
      [apply stable_pure | apply triple_cache_set; discriminate
      | intros s _ H; split; [exact I | apply H] | intros []].
    all: apply triple_read; [solve_readonly | intros new_bits].
    all: apply triple_done.
Qed.

Lemma triple_invariant {A} (m : M A) s :
  triple (fun _ => True) m (fun _ _ => True) ->
  invariant s -> invariant (snd (m s)).
Proof. intros H Hi. exact (proj1 (proj2 (H s Hi I))). Qed.

Lemma readonly_triple {A} (m : M A) :
  readonly m -> triple (fun _ => True) m (fun _ _ => True).
Proof.
  intros Hr.
  eapply triple_conseq;
    [apply (triple_readonly m (fun _ => True) Hr) | intros; exact I | intros; exact I].
Qed.

Lemma try_except_state m s : snd (try_except m s) = snd (m s).
Proof. unfold try_except. destruct (m s) as [[r|e] s']; reflexivity. Qed.

(** Every request keeps the invariant. *)
Lemma step_invariant r s : invariant s -> invariant (snd (step r s)).
Proof.
  intros Hi. destruct r; cbn [step]; rewrite try_except_state;
    apply triple_invariant; try exact Hi.
  - apply triple_init_keys.
  - apply readonly_triple, readonly_encrypt.
  - apply readonly_triple, readonly_decrypt.
  - apply triple_eve_attack.
  - eapply triple_bind; [apply triple_ThreadSafeCache_init | intros []].
    apply triple_done.
Qed.

Lemma run_invariant requests : forall s,
  invariant s -> invariant (run requests s).
Proof.
  unfold run. induction requests as [|r requests IH]; intros s Hi; [exact Hi|].
  cbn [fold_left]. apply IH, step_invariant, Hi.
Qed.

Lemma cached_key_spec s role bits :
  invariant s -> role ∈ roles ->
  cached_key s role = Some bits ->
  length bits = 64%nat /\ Forall is_bit bits.
Proof.
  intros [Hh Hc] Hr. unfold cached_key. specialize (Hc role Hr).
  destruct (lookup_cache (_cache s) "keys" (Some role)) as [| |l|]; try discriminate.
  intros H. destruct Hc as (bits' & Hb & Hl). split; [congruence|].
  now apply Hh in H.
Qed.

End ServerLogic.

(** C10. After any sequence of requests (init_keys, encrypt, decrypt,
    eve_attack, clear) from the initial state, the entry of every role
    (classic, quantum, eve) in the keys mapping of the cache is either
    [None] or a list object of exactly 64 bits. *)
Theorem cache_keys_have_64_bits :
  forall (requests : list ApiServer.request) (role : string),
    role ∈ ApiServer.roles ->
    let s := ApiServer.run requests ApiServer.initial_state in
    ApiServer.lookup_cache (ApiServer._cache s) "keys" (Some role) = ApiServer.VNone \/
    exists l bits,
      ApiServer.lookup_cache (ApiServer._cache s) "keys" (Some role) = ApiServer.VList l /\
      ApiServer.heap s !! l = Some bits /\
      length bits = 64%nat /\ Forall is_bit bits.
Proof.
  intros requests role Hr s.
  destruct (run_invariant requests _ invariant_initial) as [Hh Hc]. fold s in Hh, Hc.
  specialize (Hc role Hr).
  destruct (ApiServer.lookup_cache (ApiServer._cache s) "keys" (Some role))
    as [| |l|]; try contradiction.
  - now left.
  - right. destruct Hc as (bits & Hb & Hl). exists l, bits.
    repeat split; try assumption. now apply Hh in Hb.
Qed.

(** *** What /eve_attack answers *)

Section EveAttack.
Import ApiServer.

(** Running a sequence when the first command returns. *)
Lemma run_bind {A B} (m : M A) (f : A -> M B) s a :
  fst (m s) = Ok a -> (m ≫= f) s = f a (snd (m s)).
Proof.
  unfold mbind, M_bind. destruct (m s) as [[a'|e] s']; cbn; [|discriminate].
  now intros [= ->].
Qed.

Lemma read_list_run l s bits :
  heap s !! l = Some bits -> read_list l s = (Ok bits, s).
Proof. intros H. unfold read_list. now rewrite H. Qed.

Lemma truthy_list_run l s bits :
  heap s !! l = Some bits -> bits <> [] -> truthy (VList l) s = (Ok true, s).
Proof.
  intros H Hne. cbn [truthy]. rewrite (run_bind _ _ _ bits) by now rewrite (read_list_run l s bits).
  rewrite (read_list_run l s bits H). cbn [snd].
  rewrite bool_decide_eq_false_2 by exact Hne. reflexivity.
Qed.

Lemma cached_key_inv s role bits :
  cached_key s role = Some bits ->
  exists l, lookup_cache (_cache s) "keys" (Some role) = VList l /\
            heap s !! l = Some bits.
Proof.
  unfold cached_key.
  destruct (lookup_cache (_cache s) "keys" (Some role)) as [| |l|]; try discriminate.
  eauto.
Qed.

Lemma key64_nonempty (bits : list Z) : length bits = 64%nat -> bits <> [].
Proof. intros H ->. discriminate H. Qed.

(** The heap after a new list, at an older location. *)
Lemma new_list_old bits s l old :
  heap_ok s -> heap s !! l = Some old ->
  heap (snd (new_list bits s)) !! l = Some old /\ l <> next_loc s.
Proof.
  intros Hh H. pose proof (Hh _ _ H) as [Hlt _]. cbn.
  split; [|lia]. rewrite lookup_insert_ne by lia. exact H.
Qed.

(** The in-place loop computes [overwritten_guess]. *)
Lemma overwrite_loop_run rnd lk le key n : forall draw s guess,
  lk <> le ->
  heap s !! lk = Some key -> length key = 64%nat ->
  heap s !! le = Some guess -> length guess = 64%nat ->
  overwrite_loop rnd (VList lk) le draw n s
  = (Ok (),
     State (<[le := overwritten_guess rnd key guess draw n]> (heap s))
           (next_loc s) (_cache s)).
Proof.
  induction n as [|n IH]; intros draw s guess Hne Hk Hkl Hg Hgl.
  - cbn [overwrite_loop overwritten_guess]. cbn.
    rewrite insert_id by exact Hg. now destruct s.
  - cbn [overwrite_loop overwritten_guess].
    set (bit_pos := Z.to_nat (randint 0 63 (rnd draw))).
    assert (Hpos : (bit_pos < 64)%nat).
    { unfold bit_pos, randint. change (63 - 0 + 1) with 64.
      pose proof (Z.mod_pos_bound (Z.of_nat (rnd draw)) 64 ltac:(lia)). lia. }
    destruct (lookup_lt_is_Some_2 key bit_pos ltac:(lia)) as [x Hx].
    rewrite (run_bind _ _ s key)
      by (change ((as_list (VList lk) ≫= read_list) s) with (read_list lk s);
          now rewrite (read_list_run lk s key Hk)).
    change ((as_list (VList lk) ≫= read_list) s) with (read_list lk s).
    rewrite (read_list_run lk s key Hk). cbn [snd].
    rewrite (run_bind _ _ s x) by (cbn; unfold index; now rewrite Hx).
    cbn [lift snd].
    assert (Hw : write_item le bit_pos x s
                 = (Ok (), State (<[le := <[bit_pos := x]> guess]> (heap s))
                                 (next_loc s) (_cache s))).
    { unfold write_item. rewrite Hg.
      replace (bit_pos <? length guess)%nat with true
        by (symmetry; apply Nat.ltb_lt; lia).
      reflexivity. }
    rewrite (run_bind _ _ s ()) by now rewrite Hw.
    rewrite Hw. cbn [snd].
    rewrite (IH (S draw) _ (<[bit_pos := x]> guess)); cbn [heap next_loc _cache].
    + rewrite Hx. cbn [default]. now rewrite insert_insert_eq.
    + exact Hne.
    + rewrite lookup_insert_ne by auto. exact Hk.
    + exact Hkl.
    + apply lookup_insert_eq.
    + now rewrite length_insert.
Qed.

(** Steps through one command whose outcome in the current state is known. *)
Ltac run_step a Heq :=
  rewrite (run_bind _ _ _ a) by (rewrite Heq; reflexivity);
  rewrite Heq; cbn [snd].

Lemma lift_run {A} (r : result A) (a : A) s : r = Ok a -> lift r s = (Ok a, s).
Proof. now intros ->. Qed.

(** A JSON object that has the named members has no parameter missing. *)
Lemma missing_parameters_object names members :
  names <> [] ->
  Forall (fun x => is_Some (members !! x)) names ->
  missing_parameters names (JsonObject members) = Ok false.
Proof.
  intros Hne H. unfold missing_parameters, json_truthy.
  rewrite bool_decide_eq_false_2.
  - cbn [negb]. induction H as [|x names [v Hx] _ IH]; [reflexivity|].
    cbn [any_not_in json_contains]. rewrite Hx. cbn.
    destruct names as [|y names]; [reflexivity|]. now apply IH.
  - intros ->. destruct H as [|x names [v Hx] _]; [congruence|].
    now rewrite lookup_empty in Hx.
Qed.

Lemma json_getitem_object x members v :
  members !! x = Some v -> json_getitem x (JsonObject members) = Ok v.
Proof. intros H. cbn. now rewrite H. Qed.

(** The first lines of [eve_attack] on a JSON object with a valid key type. *)
Ltac run_key_type s data kt Hkt :=
  run_step (JsonObject data) (lift_run (Ok (JsonObject data)) _ s eq_refl);
  run_step false
    (lift_run _ _ s
       (missing_parameters_object ["key_type"] data ltac:(discriminate)
          ltac:(repeat constructor; rewrite Hkt; eauto)));
  run_step (JsonString (code_points kt))
    (lift_run _ _ s (json_getitem_object "key_type" data _ Hkt));
  change (valid_key_type (JsonString (code_points kt))) with (Some kt);
  cbv iota beta.

Lemma cache_get_run key subkey s :
  cache_get key subkey s = (Ok (lookup_cache (_cache s) key subkey), s).
Proof. reflexivity. Qed.

Lemma cache_set_list_run subkey l s :
  cache_set "keys" subkey (VList l) s
  = (Ok (), snd (cache_set "keys" subkey (VList l) s)).
Proof. reflexivity. Qed.

Lemma new_list_run bits s :
  new_list bits s = (Ok (next_loc s), snd (new_list bits s)).
Proof. reflexivity. Qed.

Lemma heap_ok_fresh s l : heap_ok s -> (next_loc s <= l)%nat -> heap s !! l = None.
Proof.
  intros Hh Hl. destruct (heap s !! l) as [bits|] eqn:E; [|reflexivity].
  apply Hh in E. lia.
Qed.

(** The state after Eve's guess is made and handed to the cache. *)
Lemma guess_cached s guess lk key :
  heap_ok s -> heap s !! lk = Some key ->
  let s2 := snd (cache_set "keys" "eve" (VList (next_loc s)) (snd (new_list guess s))) in
  heap s2 = <[next_loc s := guess]> (heap s) /\
  next_loc s2 = S (next_loc s) /\
  heap s2 !! lk = Some key /\
  heap s2 !! next_loc s = Some guess /\
  lk <> next_loc s /\
  lookup_cache (_cache s2) "keys" (Some "eve") = VList (next_loc s) /\
  (forall role, role <> "" -> role <> "eve" ->
     lookup_cache (_cache s2) "keys" (Some role)
     = lookup_cache (_cache s) "keys" (Some role)).
Proof.
  intros Hh Hk s2.
  destruct (new_list_old guess s lk key Hh Hk) as [Hold Hne].
  assert (Eh : heap s2 = <[next_loc s := guess]> (heap s)) by reflexivity.
  split; [exact Eh|]. split; [reflexivity|]. split; [exact Hold|].
  split; [rewrite Eh; apply lookup_insert_eq|]. split; [exact Hne|]. split.
  - unfold s2. rewrite lookup_cache_set by discriminate.
    now rewrite decide_True by reflexivity.
  - intros role Hr Hre. unfold s2. rewrite lookup_cache_set by (discriminate || exact Hr).
    rewrite decide_False by congruence. reflexivity.
Qed.

(** The quantum branch, run from a state where both keys are there. *)
Lemma eve_attack_quantum_run s data rnd measure lk key le0 eve :
  heap_ok s ->
  data !! "key_type" = Some (JsonString (code_points "quantum")) ->
  lookup_cache (_cache s) "keys" (Some "quantum") = VList lk ->
  heap s !! lk = Some key -> key <> [] ->
  lookup_cache (_cache s) "keys" (Some "eve") = VList le0 ->
  heap s !! le0 = Some eve -> eve <> [] ->
  let guess := random_bits rnd 0 in
  let measured := map (fun i => Z.b2z (measure i)) (seq 0 64) in
  exists resp s',
    eve_attack (Ok (JsonObject data)) rnd measure s = (Ok resp, s') /\
    status_code resp = 200%nat /\
    cached_key s' "eve" = Some guess /\
    match match_verdict (count_matches key guess) with
    | QuantumKey.Safe =>
        body resp !! "status" = Some (JStr "detected_safe") /\
        body resp !! "new_quantum_key" = None /\
        lookup_cache (_cache s') "keys" (Some "quantum") = VList lk /\
        heap s' !! lk = Some key
    | _ =>
        body resp !! "status" = Some (JStr "detected_reinit") /\
        body resp !! "new_quantum_key" = Some (JBits measured) /\
        exists l,
          heap s !! l = None /\
          lookup_cache (_cache s') "keys" (Some "quantum") = VList l /\
          heap s' !! l = Some measured
    end.
Proof.
  intros Hh Hkt Hck Hk Hkne Hce He Hene guess measured.
  unfold eve_attack. run_key_type s data "quantum" Hkt.
  rewrite (run_bind _ _ _ (VList lk)) by (rewrite cache_get_run, Hck; reflexivity).
  rewrite cache_get_run. cbn [snd].
  rewrite (run_bind _ _ _ (VList le0)) by (rewrite cache_get_run, Hce; reflexivity).
  rewrite cache_get_run. cbn [snd].
  run_step true (truthy_list_run lk s key Hk Hkne).
  run_step true (truthy_list_run le0 s eve He Hene).
  cbn [andb negb].
  change (bool_decide ("quantum" = "classic")) with false. cbv iota.
  run_step (next_loc s) (new_list_run (random_bits rnd 0) s).
  run_step tt (cache_set_list_run "eve" (next_loc s) (snd (new_list (random_bits rnd 0) s))).
  fold guess.
  destruct (guess_cached s guess lk key Hh Hk) as (Eh & En & Hk2 & Hg2 & Hne & Hev & Hother).
  set (s2 := snd (cache_set "keys" "eve" (VList (next_loc s)) (snd (new_list guess s)))) in *.
  change ((as_list (VList lk) ≫= read_list) ≫= ?f) with (read_list lk ≫= f).
  run_step key (read_list_run lk s2 key Hk2).
  run_step guess (read_list_run (next_loc s) s2 guess Hg2).
  assert (Heve : cached_key s2 "eve" = Some guess)
    by (unfold cached_key; now rewrite Hev).
  assert (Hreinit : forall text,
    exists resp s',
      (new_quantum_key ← generate_quantum_key measure 64;
       cache_set "keys" "quantum" (VList new_quantum_key);;
       new_bits ← read_list new_quantum_key;
       mret (Response 200
               (<["status" := JStr "detected_reinit"]>
                (<["log_msg" := JLog text (count_matches key guess)]>
                 (<["eve_key" := JBits (slice_to guess 16)]>
                  (<["new_quantum_key" := JBits new_bits]> ∅)))))) s2
      = (Ok resp, s') /\
      status_code resp = 200%nat /\
      cached_key s' "eve" = Some guess /\
      body resp !! "status" = Some (JStr "detected_reinit") /\
      body resp !! "new_quantum_key" = Some (JBits measured) /\
      exists l,
        heap s !! l = None /\
        lookup_cache (_cache s') "keys" (Some "quantum") = VList l /\
        heap s' !! l = Some measured).
  { intros text. unfold generate_quantum_key. fold measured.
    run_step (next_loc s2) (new_list_run measured s2).
    run_step tt (cache_set_list_run "quantum" (next_loc s2) (snd (new_list measured s2))).
    set (s4 := snd (cache_set "keys" "quantum" (VList (next_loc s2))
                      (snd (new_list measured s2)))).
    assert (Eh4 : heap s4 = <[next_loc s2 := measured]> (heap s2)) by reflexivity.
    assert (Hm4 : heap s4 !! next_loc s2 = Some measured)
      by (rewrite Eh4; apply lookup_insert_eq).
    run_step measured (read_list_run (next_loc s2) s4 measured Hm4).
    eexists _, _. split; [reflexivity|]. split; [reflexivity|]. split; [|split; [|split]].
    - unfold cached_key, s4. rewrite lookup_cache_set by discriminate.
      rewrite decide_False by discriminate.
      change (_cache (snd (new_list measured s2))) with (_cache s2).
      rewrite Hev. fold s4. rewrite Eh4, En.
      rewrite lookup_insert_ne by lia. exact Hg2.
    - reflexivity.
    - cbn [body]. now rewrite !lookup_insert_ne, lookup_insert_eq by discriminate.
    - exists (next_loc s2). split; [apply heap_ok_fresh; [exact Hh | lia]|].
      split; [|exact Hm4].
      unfold s4. rewrite lookup_cache_set by discriminate.
      now rewrite decide_True by reflexivity. }
  destruct (match_verdict (count_matches key guess)).
  - eexists _, _. split; [reflexivity|]. split; [reflexivity|]. split; [exact Heve|].
    split; [reflexivity|]. split; [|split; [|exact Hk2]].
    + cbn [body]. now rewrite !lookup_insert_ne, lookup_empty by discriminate.
    + rewrite Hother by discriminate. exact Hck.
  - destruct (Hreinit (reinit_log QuantumKey.Significant)) as (resp & s' & E & H).
    exists resp, s'. split; [exact E | exact H].
  - destruct (Hreinit (reinit_log QuantumKey.Critical)) as (resp & s' & E & H).
    exists resp, s'. split; [exact E | exact H].
  - destruct (Hreinit (reinit_log QuantumKey.Severe)) as (resp & s' & E & H).
    exists resp, s'. split; [exact E | exact H].
Qed.

(** The classic branch, run from a state where both keys are there. Eve's
    list is in the cache while the loop updates it, so the cache ends with
    the overwritten guess, or with the true key once the key is cracked. *)
Lemma eve_attack_classic_run s data rnd measure lk key le0 eve :
  heap_ok s ->
  data !! "key_type" = Some (JsonString (code_points "classic")) ->
  lookup_cache (_cache s) "keys" (Some "classic") = VList lk ->
  heap s !! lk = Some key -> length key = 64%nat ->
  lookup_cache (_cache s) "keys" (Some "eve") = VList le0 ->
  heap s !! le0 = Some eve -> eve <> [] ->
  let final :=
    overwritten_guess rnd key (random_bits rnd 0) 65
      (Z.to_nat (randint 32 58 (rnd 64%nat))) in
  let matches := count_matches key final in
  exists resp s',
    eve_attack (Ok (JsonObject data)) rnd measure s = (Ok resp, s') /\
    status_code resp = 200%nat /\
    body resp !! "status"
      = Some (JStr (if 48 <? matches then "cracked" else "progress")) /\
    cached_key s' "eve" = Some (if 48 <? matches then key else final) /\
    cached_key s' "classic" = Some key.
Proof.
  intros Hh Hkt Hck Hk Hkl Hce He Hene final matches.
  pose proof (key64_nonempty key Hkl) as Hkne.
  unfold eve_attack. run_key_type s data "classic" Hkt.
  rewrite (run_bind _ _ _ (VList lk)) by (rewrite cache_get_run, Hck; reflexivity).
  rewrite cache_get_run. cbn [snd].
  rewrite (run_bind _ _ _ (VList le0)) by (rewrite cache_get_run, Hce; reflexivity).
  rewrite cache_get_run. cbn [snd].
  run_step true (truthy_list_run lk s key Hk Hkne).
  run_step true (truthy_list_run le0 s eve He Hene).
  cbn [andb negb].
  change (bool_decide ("classic" = "classic")) with true. cbv iota.
  run_step (next_loc s) (new_list_run (random_bits rnd 0) s).
  run_step tt (cache_set_list_run "eve" (next_loc s) (snd (new_list (random_bits rnd 0) s))).
  destruct (guess_cached s (random_bits rnd 0) lk key Hh Hk)
    as (Eh & En & Hk2 & Hg2 & Hne & Hev & Hother).
  set (s2 := snd (cache_set "keys" "eve" (VList (next_loc s))
                    (snd (new_list (random_bits rnd 0) s)))) in *.
  pose proof (overwrite_loop_run rnd lk (next_loc s) key
                (Z.to_nat (randint 32 58 (rnd 64%nat))) 65%nat s2 (random_bits rnd 0)
                Hne Hk2 Hkl Hg2 (proj1 (random_bits_spec rnd 0))) as Hloop.
  fold final in Hloop.
  run_step tt Hloop.
  set (s3 := State (<[next_loc s := final]> (heap s2)) (next_loc s2) (_cache s2)).
  assert (Hk3 : heap s3 !! lk = Some key)
    by (cbn [s3 heap]; rewrite lookup_insert_ne by auto; exact Hk2).
  assert (Hg3 : heap s3 !! next_loc s = Some final)
    by (cbn [s3 heap]; apply lookup_insert_eq).
  change ((as_list (VList lk) ≫= read_list) ≫= ?f) with (read_list lk ≫= f).
  run_step key (read_list_run lk s3 key Hk3).
  run_step final (read_list_run (next_loc s) s3 final Hg3).
  fold matches.
  assert (Hcl3 : lookup_cache (_cache s3) "keys" (Some "classic") = VList lk)
    by (cbn [s3 _cache]; rewrite Hother by discriminate; exact Hck).
  destruct (48 <? matches).
  - run_step tt (cache_set_list_run "eve" lk s3).
    eexists _, _. split; [reflexivity|]. split; [reflexivity|].
    split; [reflexivity|]. split.
    + unfold cached_key. rewrite lookup_cache_set by discriminate.
      rewrite decide_True by reflexivity. exact Hk3.
    + unfold cached_key. rewrite lookup_cache_set by discriminate.
      rewrite decide_False by discriminate. rewrite Hcl3. exact Hk3.
  - eexists _, _. split; [reflexivity|]. split; [reflexivity|].
    split; [reflexivity|]. split.
    + unfold cached_key. cbn [s3 _cache]. rewrite Hev. exact Hg3.
    + unfold cached_key. rewrite Hcl3. exact Hk3.
Qed.

Lemma try_except_ok m s resp s' :
  m s = (Ok resp, s') -> try_except m s = (resp, s').
Proof. intros H. unfold try_except. now rewrite H. Qed.

End EveAttack.

(** C2. In /eve_attack with both keys initialized (in any state the server
    can reach): for key_type classic the status is "cracked" exactly when
    more than 48 of the 64 positions of Eve's overwritten guess match the
    true key, and "progress" otherwise; for key_type quantum, 24 matches or
    more give "detected_reinit" with a newly made list of 64 bits, which is
    both in the response and the quantum key of the cache afterwards, and 16
    matches or fewer give "detected_safe" with no new key in the response
    and the quantum key of the cache unchanged. *)
Theorem eve_attack_verdicts :
  forall (requests : list ApiServer.request)
         (data : gmap string ApiServer.json_value)
         (rnd : nat -> nat) (measure : nat -> bool)
         (kt : string) (key eve : list Z),
    let s := ApiServer.run requests ApiServer.initial_state in
    let request :=
      ApiServer.ReqEveAttack (Ok (ApiServer.JsonObject data)) rnd measure in
    let resp := fst (ApiServer.step request s) in
    let s' := snd (ApiServer.step request s) in
    data !! "key_type" = Some (ApiServer.JsonString (ApiServer.code_points kt)) ->
    ApiServer.cached_key s kt = Some key ->
    ApiServer.cached_key s "eve" = Some eve ->
    (kt = "classic" ->
       let matches :=
         count_matches key
           (ApiServer.overwritten_guess rnd key (ApiServer.random_bits rnd 0) 65
              (Z.to_nat (randint 32 58 (rnd 64%nat)))) in
       (ApiServer.body resp !! "status" = Some (ApiServer.JStr "cracked")
          <-> 48 < matches) /\
       (ApiServer.body resp !! "status" = Some (ApiServer.JStr "progress")
          <-> matches <= 48)) /\
    (kt = "quantum" ->
       let matches := count_matches key (ApiServer.random_bits rnd 0) in
       (24 <= matches ->
          ApiServer.body resp !! "status" = Some (ApiServer.JStr "detected_reinit") /\
          exists l new_key,
            ApiServer.heap s !! l = None /\
            length new_key = 64%nat /\ Forall is_bit new_key /\
            ApiServer.body resp !! "new_quantum_key"
              = Some (ApiServer.JBits new_key) /\
            ApiServer.lookup_cache (ApiServer._cache s') "keys" (Some "quantum")
              = ApiServer.VList l /\
            ApiServer.heap s' !! l = Some new_key) /\
       (matches <= 16 ->
          ApiServer.body resp !! "status" = Some (ApiServer.JStr "detected_safe") /\
          ApiServer.body resp !! "new_quantum_key" = None /\
          ApiServer.lookup_cache (ApiServer._cache s') "keys" (Some "quantum")
            = ApiServer.lookup_cache (ApiServer._cache s) "keys" (Some "quantum") /\
          ApiServer.cached_key s' "quantum" = Some key)).
Proof.
  intros requests data rnd measure kt key eve s request resp s' Hkt Hkey Heve.
  pose proof (run_invariant requests _ invariant_initial) as Hinv. fold s in Hinv.
  pose proof Hinv as [Hh _].
  destruct (cached_key_inv _ _ _ Heve) as (le0 & Hce & He).
  assert (Hene : eve <> []).
  { apply key64_nonempty. eapply cached_key_spec; [exact Hinv | | exact Heve].
    unfold ApiServer.roles. do 2 (apply elem_of_cons; right).
    apply elem_of_cons. now left. }
  split; intros ->.
  - destruct (cached_key_inv _ _ _ Hkey) as (lk & Hck & Hk).
    assert (Hkl : length key = 64%nat).
    { eapply cached_key_spec; [exact Hinv | | exact Hkey].
      apply elem_of_cons. now left. }
    destruct (eve_attack_classic_run s data rnd measure lk key le0 eve
                Hh Hkt Hck Hk Hkl Hce He Hene)
      as (r & t & Hrun & _ & Hstatus & _).
    intros matches. fold matches in Hstatus.
    assert (E : resp = r)
      by (unfold resp, request; cbn [ApiServer.step];
          now rewrite (try_except_ok _ _ _ _ Hrun)).
    rewrite E, Hstatus.
    destruct (Z.ltb_spec 48 matches); split; split; intros H0;
      try lia; try reflexivity; discriminate H0.
  - destruct (cached_key_inv _ _ _ Hkey) as (lk & Hck & Hk).
    assert (Hkl : length key = 64%nat).
    { eapply cached_key_spec; [exact Hinv | | exact Hkey].
      apply elem_of_cons. right. apply elem_of_cons. now left. }
    destruct (eve_attack_quantum_run s data rnd measure lk key le0 eve
                Hh Hkt Hck Hk (key64_nonempty key Hkl) Hce He Hene)
      as (r & t & Hrun & _ & _ & Hverdict).
    intros matches. fold matches in Hverdict.
    assert (E : resp = r /\ s' = t)
      by (unfold resp, s', request; cbn [ApiServer.step];
          now rewrite (try_except_ok _ _ _ _ Hrun)).
    destruct E as [-> ->].
    destruct (match_verdict_spec matches) as (Hsafe & Hsig & Hcrit & Hsev).
    destruct (measured_bits_spec measure) as [Hml Hmb].
    split.
    + intros Hm.
      assert (N1 : ApiServer.match_verdict matches <> QuantumKey.Safe)
        by (intros Ev; apply Hsafe in Ev; lia).
      assert (N2 : ApiServer.match_verdict matches <> QuantumKey.Significant)
        by (intros Ev; apply Hsig in Ev; lia).
      clear Hsafe Hsig Hcrit Hsev.
      destruct (ApiServer.match_verdict matches).
      * now destruct N1.
      * now destruct N2.
      * destruct Hverdict as (H1 & H2 & l & H3 & H4 & H5). split; [exact H1|].
        eexists l, _. repeat split; eassumption.
      * destruct Hverdict as (H1 & H2 & l & H3 & H4 & H5). split; [exact H1|].
        eexists l, _. repeat split; eassumption.
    + intros Hm.
      assert (Ev : ApiServer.match_verdict matches = QuantumKey.Safe)
        by now apply Hsafe.
      rewrite Ev in Hverdict. destruct Hverdict as (H1 & H2 & H3 & H4).
      repeat split; try assumption; [congruence|].
      unfold ApiServer.cached_key. now rewrite H3.
Qed.


Lemma eve_attack_verdicts_witness :
  ApiServer.body
    (fst (ApiServer.step
            (ApiServer.ReqEveAttack
               (Ok (ApiServer.JsonObject
       (<["key_type" := ApiServer.JsonString (ApiServer.code_points "quantum")]> ∅))) S Nat.odd)
            (ApiServer.run
               [ApiServer.ReqInitKeys ApiServer.POST (fun i => i) Nat.even Nat.odd]
               ApiServer.initial_state)))
    !! "status"
  = Some (ApiServer.JStr "detected_reinit").
Proof.
  refine (proj1 (proj1 (proj2
    (eve_attack_verdicts
       [ApiServer.ReqInitKeys ApiServer.POST (fun i => i) Nat.even Nat.odd]
       (<["key_type" := ApiServer.JsonString (ApiServer.code_points "quantum")]> ∅)
       S Nat.odd "quantum"
       (map (fun i => Z.b2z (Nat.even i)) (seq 0 64))
       (map (fun i => Z.b2z (Nat.odd i)) (seq 0 64))
       _ _ _) eq_refl) _)).
  - reflexivity.
  - vm_compute. reflexivity.
  - vm_compute. reflexivity.
  - vm_compute. intros E. discriminate E.
Defined.

Lemma cache_keys_have_64_bits_witness :
  ApiServer.lookup_cache
    (ApiServer._cache
       (ApiServer.run
          [ApiServer.ReqInitKeys ApiServer.POST (fun i => i) Nat.even Nat.odd;
           ApiServer.ReqEveAttack
             (Ok (ApiServer.JsonObject
       (<["key_type" := ApiServer.JsonString (ApiServer.code_points "classic")]> ∅))) S Nat.odd]
          ApiServer.initial_state))
    "keys" (Some "quantum") = ApiServer.VNone \/
  exists l bits,
    ApiServer.lookup_cache
      (ApiServer._cache
         (ApiServer.run
            [ApiServer.ReqInitKeys ApiServer.POST (fun i => i) Nat.even Nat.odd;
             ApiServer.ReqEveAttack
               (Ok (ApiServer.JsonObject
       (<["key_type" := ApiServer.JsonString (ApiServer.code_points "classic")]> ∅))) S Nat.odd]
            ApiServer.initial_state))
      "keys" (Some "quantum") = ApiServer.VList l /\
    ApiServer.heap
      (ApiServer.run
         [ApiServer.ReqInitKeys ApiServer.POST (fun i => i) Nat.even Nat.odd;
          ApiServer.ReqEveAttack
            (Ok (ApiServer.JsonObject
       (<["key_type" := ApiServer.JsonString (ApiServer.code_points "classic")]> ∅))) S Nat.odd]
         ApiServer.initial_state) !! l = Some bits /\
    length bits = 64%nat /\ Forall is_bit bits.
Proof.
  apply (cache_keys_have_64_bits
           [ApiServer.ReqInitKeys ApiServer.POST (fun i => i) Nat.even Nat.odd;
            ApiServer.ReqEveAttack
              (Ok (ApiServer.JsonObject
       (<["key_type" := ApiServer.JsonString (ApiServer.code_points "classic")]> ∅))) S Nat.odd]
           "quantum").
  apply elem_of_cons. right. apply elem_of_cons. now left.
Defined.

(** ** Further properties of quantumkey.py *)

Section KeyDistribution.
Import QuantumKey.

(** Reading position [i] of a column of the trials. *)
Lemma nth_trial_column (f : trial -> Z) (outcome : nat -> trial) (n i : nat) :
  (i < n)%nat -> nth i (map f (map outcome (seq 0 n))) 0 = f (outcome i).
Proof.
  intros Hi. rewrite <- map_map with (g := f), !map_map.
  rewrite nth_indep with (d' := f (outcome 0%nat)) by now rewrite length_map, length_seq.
  rewrite (map_nth (fun x => f (outcome x)) (seq 0 n) 0%nat i).
  now rewrite seq_nth by exact Hi.
Qed.

Lemma filter_ext_elem_of {A} (P Q : A -> Prop) `{!forall x, Decision (P x)}
    `{!forall x, Decision (Q x)} (l : list A) :
  (forall x, x ∈ l -> P x <-> Q x) -> filter P l = filter Q l.
Proof.
  induction l as [|x l IH]; intros Hext; [reflexivity|].
  rewrite !filter_cons.
  rewrite IH by (intros y Hy; apply Hext; now apply elem_of_cons; right).
  assert (Hx : P x <-> Q x) by (apply Hext, elem_of_cons; now left).
  destruct (decide (P x)), (decide (Q x)); tauto.
Qed.

Lemma filter_all {A} (P : A -> Prop) `{!forall x, Decision (P x)} (l : list A) :
  (forall x, x ∈ l -> P x) -> filter P l = l.
Proof.
  induction l as [|x l IH]; intros Hall; [reflexivity|].
  rewrite filter_cons_True by (apply Hall, elem_of_cons; now left).
  rewrite IH; [reflexivity|]. intros y Hy. apply Hall, elem_of_cons. now right.
Qed.

Lemma filter_none {A} (P : A -> Prop) `{!forall x, Decision (P x)} (l : list A) :
  (forall x, x ∈ l -> ~ P x) -> filter P l = [].
Proof.
  induction l as [|x l IH]; intros Hnone; [reflexivity|].
  rewrite filter_cons_False by (apply Hnone, elem_of_cons; now left).
  apply IH. intros y Hy. apply Hnone, elem_of_cons. now right.
Qed.

Lemma filter_ext_seq (P Q : nat -> Prop) `{!forall x, Decision (P x)}
    `{!forall x, Decision (Q x)} (n : nat) :
  (forall i, (i < n)%nat -> P i <-> Q i) ->
  filter P (seq 0 n) = filter Q (seq 0 n).
Proof.
  intros Hext. apply filter_ext_elem_of.
  intros i Hi. apply elem_of_seq in Hi. apply Hext. lia.
Qed.

Lemma map_ext_filter_seq {A} (f g : nat -> A) (P : nat -> Prop)
    `{!forall x, Decision (P x)} (n : nat) :
  (forall i, (i < n)%nat -> f i = g i) ->
  map f (filter P (seq 0 n)) = map g (filter P (seq 0 n)).
Proof.
  intros Hext. apply map_ext_in. intros i Hi.
  apply list_elem_of_In, list_elem_of_filter in Hi as [_ Hi].
  apply elem_of_seq in Hi. apply Hext. lia.
Qed.

(** The lists [quantum_key_distribution] returns, as functions of its
    fourth result. *)
Lemma quantum_key_distribution_shape_aux (outcome : nat -> trial) (num_bits : Z) :
  let '(shared_key, alice_bits, bob_bits, matching_bases) :=
    quantum_key_distribution outcome num_bits in
  alice_bits = map (fun i => alice_bit (outcome i)) matching_bases /\
  bob_bits = map (fun i => bob_bit (outcome i)) matching_bases.
Proof.
  unfold quantum_key_distribution. rewrite !length_map, length_seq.
  split; apply map_ext_in; intros i Hi;
    apply list_elem_of_In, list_elem_of_filter in Hi as [_ Hi];
    apply elem_of_seq in Hi; apply nth_trial_column; lia.
Qed.

End KeyDistribution.

(** X1. [quantum_key_distribution(num_bits)] runs [2 * num_bits] trials and
    keeps the trials in which the two bases are equal: [matching_bases] are
    their indices in ascending order, the key and the second list are
    Alice's bits at these indices, the third list Bob's. The key therefore
    has as many bits as there are such trials, between 0 and
    [2 * num_bits], and not [num_bits] in general: it is empty when no
    trial has equal bases, and for a [num_bits] of 0 or less. *)
Theorem quantum_key_distribution_shape :
  forall (outcome : nat -> QuantumKey.trial) (num_bits : Z),
    let trials := Z.to_nat (num_bits * 2) in
    let same_basis i :=
      QuantumKey.alice_basis (outcome i) = QuantumKey.bob_basis (outcome i) in
    let '(shared_key, alice_bits, bob_bits, matching_bases) :=
      QuantumKey.quantum_key_distribution outcome num_bits in
    matching_bases = filter same_basis (seq 0 trials) /\
    shared_key = map (fun i => QuantumKey.alice_bit (outcome i)) matching_bases /\
    alice_bits = shared_key /\
    bob_bits = map (fun i => QuantumKey.bob_bit (outcome i)) matching_bases /\
    (length shared_key <= trials)%nat /\
    ((forall i, (i < trials)%nat -> same_basis i) -> length shared_key = trials) /\
    ((forall i, (i < trials)%nat -> ~ same_basis i) -> shared_key = []) /\
    (num_bits <= 0 -> shared_key = []).
Proof.
  intros outcome num_bits trials same_basis.
  unfold QuantumKey.quantum_key_distribution. fold trials.
  rewrite !length_map, length_seq.
  assert (Em : filter
                 (fun i => nth i (map QuantumKey.alice_basis (map outcome (seq 0 trials))) 0
                           = nth i (map QuantumKey.bob_basis (map outcome (seq 0 trials))) 0)
                 (seq 0 trials)
               = filter same_basis (seq 0 trials)).
  { apply filter_ext_seq. intros i Hi. unfold same_basis.
    now rewrite !nth_trial_column by exact Hi. }
  rewrite Em.
  assert (Ea : map (fun i => nth i (map QuantumKey.alice_bit (map outcome (seq 0 trials))) 0)
                   (filter same_basis (seq 0 trials))
               = map (fun i => QuantumKey.alice_bit (outcome i))
                     (filter same_basis (seq 0 trials))).
  { apply map_ext_filter_seq. intros i Hi. now apply nth_trial_column. }
  assert (Eb : map (fun i => nth i (map QuantumKey.bob_bit (map outcome (seq 0 trials))) 0)
                   (filter same_basis (seq 0 trials))
               = map (fun i => QuantumKey.bob_bit (outcome i))
                     (filter same_basis (seq 0 trials))).
  { apply map_ext_filter_seq. intros i Hi. now apply nth_trial_column. }
  rewrite Ea, Eb.
  split; [reflexivity|]. split; [reflexivity|]. split; [reflexivity|].
  split; [reflexivity|].
  split; [|split; [|split]].
  - pose proof (length_filter same_basis (seq 0 trials)) as H.
    rewrite length_seq in H. exact H.
  - intros Hall.
    replace (filter same_basis (seq 0 trials)) with (seq 0 trials);
      [apply length_seq|].
    symmetry. apply filter_all. intros i Hi.
    apply elem_of_seq in Hi. apply Hall. lia.
  - intros Hnone.
    replace (filter same_basis (seq 0 trials)) with (@nil nat); [reflexivity|].
    symmetry. apply filter_none. intros i Hi.
    apply elem_of_seq in Hi. apply Hnone. lia.
  - intros Hn. replace trials with 0%nat by (unfold trials; lia). reflexivity.
Qed.

Lemma quantum_key_distribution_shape_witness :
  fst (fst (fst (QuantumKey.quantum_key_distribution
                   (fun i => QuantumKey.Trial 0 1 1 1) 16))) = [].
Proof.
  pose proof (quantum_key_distribution_shape
                (fun i => QuantumKey.Trial 0 1 1 1) 16) as H.
  cbv zeta in H.
  destruct (QuantumKey.quantum_key_distribution
              (fun i => QuantumKey.Trial 0 1 1 1) 16) as [[[k a] b] m].
  destruct H as (_ & _ & _ & _ & _ & _ & H & _).
  apply H. intros i _. cbn. discriminate.
Defined.

(** X2. [main] never returns a key: whatever the trials measure, whatever
    the sampling picks and in whatever order a set is iterated, it returns
    [None]. When at least one trial
    has equal bases, reading the unbound name [alice_bases] raises
    [NameError] before the Bell check, and the [except] clause ends the
    function; when no trial has equal bases, the Bell check runs on empty
    lists, fails, and [main] returns at once. *)
Theorem main_never_returns_a_key :
  forall (outcome : nat -> QuantumKey.trial) (pick : list nat)
         (slot : nat -> nat),
    let matching_bases :=
      snd (QuantumKey.quantum_key_distribution outcome 16) in
    QuantumKey.main outcome pick slot = None /\
    (matching_bases <> [] ->
       QuantumKey.main_try outcome pick slot = inl QuantumKey.NameError) /\
    (matching_bases = [] -> QuantumKey.main_try outcome pick slot = inr None).
Proof.
  intros outcome pick slot matching_bases.
  pose proof (quantum_key_distribution_shape_aux outcome 16) as Hshape.
  unfold QuantumKey.main, QuantumKey.main_try. subst matching_bases.
  destruct (QuantumKey.quantum_key_distribution outcome 16)
    as [[[shared_key alice_bits] bob_bits] matching_bases].
  cbn [snd]. destruct Hshape as (Ha & Hb).
  destruct matching_bases as [|i matching_bases].
  - cbn in Ha, Hb. subst alice_bits bob_bits. cbn.
    split; [reflexivity|]. split; [intros H; now destruct H | reflexivity].
  - cbn [QuantumKey.unbound_bases].
    split; [reflexivity|]. split; [reflexivity | discriminate].
Qed.

Section SampledErrorRate.
Import QuantumKey.

(** [mapM] in the exception monad, when every call returns. *)
Lemma mapM_result_ok {A B} (f : A -> result B) (g : A -> B) (l : list A) :
  Forall (fun x => f x = Ok (g x)) l -> mapM f l = Ok (map g l).
Proof.
  induction 1 as [|x l Hx _ IH]; [reflexivity|].
  cbn [mapM]. rewrite Hx. cbn. rewrite IH. reflexivity.
Qed.

Lemma index_lt {A} (d : A) (l : list A) (i : nat) :
  (i < length l)%nat -> index l i = Ok (nth i l d).
Proof.
  intros Hi. unfold index.
  destruct (lookup_lt_is_Some_2 l i Hi) as [x Hx]. rewrite Hx.
  f_equal. symmetry. now apply nth_lookup_Some.
Qed.

(** Distinct indices below [n] are at most [n]. *)
Lemma distinct_indices_le (pick : list nat) (n : nat) :
  NoDup pick -> Forall (fun i => (i < n)%nat) pick -> (length pick <= n)%nat.
Proof.
  intros Hnd Hlt. rewrite <- (length_seq n 0).
  apply submseteq_length, NoDup_submseteq; [exact Hnd|].
  intros i Hi. rewrite Forall_forall in Hlt. apply elem_of_seq.
  specialize (Hlt i Hi). lia.
Qed.

(** The indices that are left when [k] distinct ones are taken out. *)
Lemma kept_indices_length (sample : list nat) (n : nat) :
  NoDup sample -> Forall (fun i => (i < n)%nat) sample ->
  length (filter (fun i => i ∉ sample) (seq 0 n)) = (n - length sample)%nat.
Proof.
  intros Hnd Hlt.
  pose proof (filter_app_complement (fun i => i ∈ sample) (seq 0 n)) as Hp.
  apply Permutation_length in Hp. rewrite length_app, length_seq in Hp.
  assert (Hs : filter (fun i => i ∈ sample) (seq 0 n) ≡ₚ sample).
  { apply NoDup_Permutation; [apply NoDup_filter, NoDup_seq | exact Hnd |].
    intros i. rewrite list_elem_of_filter, elem_of_seq.
    rewrite Forall_forall in Hlt. split; [tauto|]. intros Hi.
    specialize (Hlt i Hi). split; [exact Hi | lia]. }
  apply Permutation_length in Hs. lia.
Qed.

(** The sum over the sampled positions. *)
Lemma count_errors_run (bits1 bits2 : list Z) (sample : list nat) :
  length bits2 = length bits1 ->
  Forall (fun i => (i < length bits1)%nat) sample ->
  count_errors bits1 bits2 sample
  = Ok (Z.of_nat (length (filter (fun i => bits1 !! i <> bits2 !! i) sample))).
Proof.
  intros Hlen. induction 1 as [|i sample Hi _ IH]; [reflexivity|].
  cbn [count_errors]. rewrite IH.
  destruct (lookup_lt_is_Some_2 bits1 i Hi) as [x Hx].
  destruct (lookup_lt_is_Some_2 bits2 i ltac:(lia)) as [y Hy].
  unfold index. rewrite Hx, Hy. cbn [mbind result_bind]. rewrite filter_cons.
  destruct (Z.eqb_spec x y) as [->|Hne].
  - rewrite decide_False by (rewrite Hx, Hy; intros H; now apply H). reflexivity.
  - rewrite decide_True by (rewrite Hx, Hy; congruence).
    cbn [length]. f_equal. lia.
Qed.

Lemma ratio_in_unit_interval (a b : Z) :
  0 <= a <= b -> 0 < b ->
  (0 <= inject_Z a / inject_Z b)%Q /\ (inject_Z a / inject_Z b <= 1)%Q.
Proof.
  intros Ha Hb.
  assert (Hb' : (0 < inject_Z b)%Q)
    by (change (inject_Z 0 < inject_Z b)%Q; rewrite <- Zlt_Qlt; exact Hb).
  split.
  - apply Qle_shift_div_l; [exact Hb'|]. rewrite Qmult_0_l.
    change (inject_Z 0 <= inject_Z a)%Q. rewrite <- Zle_Qle. lia.
  - apply Qle_shift_div_r; [exact Hb'|]. rewrite Qmult_1_l.
    rewrite <- Zle_Qle. lia.
Qed.

End SampledErrorRate.

(** X3. On two sequences of the same length, with a sample size [k] of at
    least 1 (given, or the default [min(len // 4, 100)] of a sequence of
    four bits or more) and [k] distinct sampled positions,
    [estimate_error_rate] returns: the rate is the number of sampled
    positions at which the sequences differ, divided by [k], a value from 0
    to 1; in whatever order the set of kept indices is iterated, each
    remaining list has [len - k] elements; and on equal sequences the rate
    is 0 and the remaining lists are equal. *)
Theorem estimate_error_rate_on_sample :
  forall (pick : list nat) (slot : nat -> nat) (bits1 bits2 : list Z)
         (sample_size : option nat),
    let n := length bits1 in
    let k :=
      match sample_size with
      | Some (S m) => S m
      | _ => QuantumKey.default_sample_size n
      end in
    let errors :=
      Z.of_nat (length (filter (fun i => bits1 !! i <> bits2 !! i) pick)) in
    length bits2 = n ->
    (1 <= k)%nat ->
    QuantumKey.valid_pick pick n k ->
    exists error_rate remaining_bits1 remaining_bits2,
      QuantumKey.estimate_error_rate pick slot bits1 bits2 sample_size
        = Ok (error_rate, remaining_bits1, remaining_bits2) /\
      error_rate = (inject_Z errors / inject_Z (Z.of_nat k))%Q /\
      (0 <= error_rate)%Q /\ (error_rate <= 1)%Q /\
      length remaining_bits1 = (n - k)%nat /\
      length remaining_bits2 = (n - k)%nat /\
      (bits1 = bits2 -> (error_rate == 0)%Q /\ remaining_bits1 = remaining_bits2).
Proof.
  intros pick slot bits1 bits2 sample_size n k errors Hlen Hk (Hpl & Hnd & Hlt).
  pose proof (distinct_indices_le pick n Hnd Hlt) as Hkn. rewrite Hpl in Hkn.
  unfold QuantumKey.estimate_error_rate. fold n. fold k.
  unfold QuantumKey.np_random_choice.
  replace (n =? 0)%nat with false by (symmetry; apply Nat.eqb_neq; lia).
  replace (n <? k)%nat with false by (symmetry; apply Nat.ltb_ge; lia).
  cbn [andb mbind result_bind].
  set (sample := merge_sort Nat.le pick).
  assert (Hperm : sample ≡ₚ pick) by apply merge_sort_Permutation.
  assert (Hnd' : NoDup sample) by (rewrite Hperm; exact Hnd).
  assert (Hlt' : Forall (fun i => (i < n)%nat) sample) by (rewrite Hperm; exact Hlt).
  rewrite (count_errors_run bits1 bits2 sample Hlen Hlt').
  cbn [mbind result_bind].
  assert (He : Z.of_nat (length (filter (fun i => bits1 !! i <> bits2 !! i) sample))
               = errors).
  { unfold errors. f_equal. apply Permutation_length. now rewrite Hperm. }
  rewrite He. unfold truediv.
  replace (Z.of_nat k =? 0) with false by (symmetry; apply Z.eqb_neq; lia).
  cbn [mbind result_bind].
  set (keep := QuantumKey.kept_indices slot n sample).
  assert (Hkeep : Forall (fun i => (i < n)%nat) keep).
  { apply Forall_forall. intros i Hi.
    unfold keep in Hi. rewrite kept_indices_Permutation in Hi.
    apply list_elem_of_filter in Hi as [_ Hi]. apply elem_of_seq in Hi. lia. }
  rewrite (mapM_result_ok (index bits1) (fun i => nth i bits1 0) keep)
    by (eapply Forall_impl; [exact Hkeep | intros i Hi; now apply index_lt]).
  cbn [mbind result_bind].
  rewrite (mapM_result_ok (index bits2) (fun i => nth i bits2 0) keep)
    by (eapply Forall_impl;
          [exact Hkeep | intros i Hi; apply index_lt; rewrite Hlen; exact Hi]).
  cbn [mbind result_bind].
  assert (Hkl : length keep = (n - k)%nat).
  { unfold keep.
    rewrite (Permutation_length (kept_indices_Permutation slot n sample)).
    rewrite (kept_indices_length sample n Hnd' Hlt').
    f_equal. rewrite <- Hpl. apply Permutation_length, Hperm. }
  assert (Herr : 0 <= errors <= Z.of_nat k).
  { unfold errors. rewrite <- Hpl.
    pose proof (length_filter (fun i => bits1 !! i <> bits2 !! i) pick). lia. }
  destruct (ratio_in_unit_interval errors (Z.of_nat k) Herr ltac:(lia)) as [H0 H1].
  eexists _, _, _. split; [reflexivity|]. split; [reflexivity|].
  split; [exact H0|]. split; [exact H1|].
  split; [now rewrite length_map|]. split; [now rewrite length_map|].
  intros <-. split; [|reflexivity].
  assert (E0 : errors = 0).
  { unfold errors. rewrite filter_none; [reflexivity|]. intros i _ H. now apply H. }
  rewrite E0. unfold Qdiv. apply Qmult_0_l.
Qed.

Lemma estimate_error_rate_on_sample_witness :
  exists error_rate remaining_bits1 remaining_bits2,
    QuantumKey.estimate_error_rate [2%nat; 0%nat] (fun i => (7 - i)%nat)
      [0; 1; 0; 1; 1; 0; 1; 1] [0; 1; 1; 1; 1; 0; 1; 0] None
      = Ok (error_rate, remaining_bits1, remaining_bits2) /\
    error_rate = (inject_Z 1 / inject_Z 2)%Q /\
    (0 <= error_rate)%Q /\ (error_rate <= 1)%Q /\
    length remaining_bits1 = 6%nat /\
    length remaining_bits2 = 6%nat /\
    ([0; 1; 0; 1; 1; 0; 1; 1] = [0; 1; 1; 1; 1; 0; 1; 0] ->
       (error_rate == 0)%Q /\ remaining_bits1 = remaining_bits2).
Proof.
  apply (estimate_error_rate_on_sample [2%nat; 0%nat] (fun i => (7 - i)%nat)
           [0; 1; 0; 1; 1; 0; 1; 1] [0; 1; 1; 1; 1; 0; 1; 0] None).
  - reflexivity.
  - vm_compute. lia.
  - split; [reflexivity|]. split.
    + apply NoDup_cons. split; [|apply NoDup_singleton].
      intros H. apply list_elem_of_singleton in H. discriminate H.
    + repeat constructor.
Defined.

Section AmplificationGroups.
Import QuantumKey.

(** The groups of a sequence that starts with [q] whole groups. *)
Lemma groups_of_8_app (q : nat) : forall (full rest : list Z) (fuel : nat),
  length full = (8 * q)%nat -> (q <= fuel)%nat ->
  groups_of_8 fuel (full ++ rest)
  = groups_of_8 q full ++ groups_of_8 (fuel - q) rest.
Proof.
  induction q as [|q IH]; intros full rest fuel Hlen Hfuel.
  - destruct full; [|discriminate Hlen]. cbn [app groups_of_8].
    now rewrite Nat.sub_0_r.
  - destruct fuel as [|fuel]; [lia|].
    destruct full as [|x full]; [discriminate Hlen|].
    cbn [groups_of_8 app].
    change (x :: full ++ rest) with ((x :: full) ++ rest).
    rewrite take_app_le by lia. rewrite drop_app_le by lia.
    rewrite (IH (drop 8 (x :: full)) rest fuel) by (rewrite ?length_drop; lia).
    replace (S fuel - S q)%nat with (fuel - q)%nat by lia. reflexivity.
Qed.

(** A last group of one to eight elements. *)
Lemma groups_of_8_last (g : list Z) (fuel : nat) :
  (0 < length g <= 8)%nat -> (0 < fuel)%nat -> groups_of_8 fuel g = [g].
Proof.
  intros Hg Hf. destruct fuel as [|fuel]; [lia|].
  destruct g as [|x g]; [cbn in Hg; lia|].
  cbn [groups_of_8]. rewrite take_ge by lia. rewrite drop_ge by lia.
  destruct fuel; reflexivity.
Qed.

Lemma sum_of_shifted_zeros (k : nat) : forall f : nat -> Z -> Z,
  (forall i, f i 0 = 0) -> foldr Z.add 0 (imap f (replicate k 0)) = 0.
Proof.
  induction k as [|k IH]; intros f Hf; [reflexivity|].
  cbn [replicate imap foldr]. rewrite Hf, IH; [reflexivity|].
  intros i. apply Hf.
Qed.

(** Zeros in front of a group do not change the integer it stands for. *)
Lemma group_value_leading_zeros (k : nat) (g : list Z) :
  group_value (replicate k 0 ++ g) = group_value g.
Proof.
  unfold group_value. rewrite reverse_app, reverse_replicate, imap_app, foldr_app.
  rewrite sum_of_shifted_zeros; [reflexivity|].
  intros i. apply Z.shiftl_0_l.
Qed.

End AmplificationGroups.

(** X4. [privacy_amplification] reads a last group of fewer than eight
    elements as the low bits of a byte: the same sequence with the last
    group filled up to eight elements by zeros in front of it gives the same
    output, for every [final_length] other than 0. So sequences of different
    lengths, such as [1] and [0,0,0,0,0,0,0,1], are amplified to the same
    key. *)
Theorem privacy_amplification_last_group :
  forall (full last_group : list Z) (final_length : Z),
    (length full mod 8 = 0)%nat ->
    (0 < length last_group < 8)%nat ->
    final_length <> 0 ->
    QuantumKey.privacy_amplification (full ++ last_group) (Some final_length)
    = QuantumKey.privacy_amplification
        (full ++ replicate (8 - length last_group) 0 ++ last_group)
        (Some final_length).
Proof.
  intros full g n Hfull Hg Hn.
  destruct (Nat.Div0.mod_divides (length full) 8) as [[q Hq] _]; [exact Hfull|].
  unfold QuantumKey.privacy_amplification, QuantumKey.effective_final_length.
  replace (n =? 0) with false by (symmetry; apply Z.eqb_neq; exact Hn).
  rewrite (groups_of_8_app q full g) by (rewrite ?length_app; lia).
  rewrite (groups_of_8_app q full (replicate (8 - length g) 0 ++ g))
    by (rewrite ?length_app, ?length_replicate; lia).
  rewrite (groups_of_8_last g) by (rewrite ?length_app; lia).
  rewrite (groups_of_8_last (replicate (8 - length g) 0 ++ g))
    by (rewrite ?length_app, ?length_replicate; lia).
  rewrite !map_app. cbn [map].
  now rewrite group_value_leading_zeros.
Qed.

Lemma privacy_amplification_last_group_witness :
  QuantumKey.privacy_amplification [1] (Some 64)
  = QuantumKey.privacy_amplification [0; 0; 0; 0; 0; 0; 0; 1] (Some 64).
Proof.
  apply (privacy_amplification_last_group [] [1] 64).
  - reflexivity.
  - cbn. lia.
  - discriminate.
Defined.

(** ** Further properties of api_server_short.py *)

(** X5. [ThreadSafeCache]: what [set(key, subkey, value)] stores under a
    non-empty sub-key, with a value other than [None], is what
    [get(key, subkey)] returns afterwards; [get] with another key or another
    sub-key returns what it returned before, and so does [get(key')] for
    another key. No list object changes. *)
Theorem cache_set_then_get :
  forall (s : ApiServer.state) (key subkey : string) (v : ApiServer.value),
    v <> ApiServer.VNone ->
    subkey <> "" ->
    let s' := snd (ApiServer.cache_set key subkey v s) in
    fst (ApiServer.cache_set key subkey v s) = Ok () /\
    fst (ApiServer.cache_get key (Some subkey) s') = Ok v /\
    (forall key' subkey',
       subkey' <> "" -> key' <> key \/ subkey' <> subkey ->
       fst (ApiServer.cache_get key' (Some subkey') s')
       = fst (ApiServer.cache_get key' (Some subkey') s)) /\
    (forall key',
       key' <> key ->
       fst (ApiServer.cache_get key' None s') = fst (ApiServer.cache_get key' None s)) /\
    ApiServer.heap s' = ApiServer.heap s.
Proof.
  intros s key subkey v Hv Hsk s'.
  assert (Ec : ApiServer._cache s'
               = <[key := ApiServer.VDict
                     (<[subkey := v]>
                        match ApiServer._cache s !! key with
                        | Some (ApiServer.VDict d) => d
                        | _ => ∅
                        end)]> (ApiServer._cache s))
    by (unfold s'; destruct v; [congruence | reflexivity ..]).
  split; [destruct v; reflexivity|].
  unfold ApiServer.cache_get. cbn [fst]. split; [|split; [|split]].
  - f_equal. destruct subkey as [|a subkey]; [congruence|].
    unfold ApiServer.lookup_cache. rewrite Ec, lookup_insert_eq.
    now rewrite lookup_insert_eq.
  - intros key' subkey' Hsk' Hdiff. f_equal.
    destruct subkey' as [|a subkey']; [congruence|].
    unfold ApiServer.lookup_cache. rewrite Ec.
    destruct (decide (key' = key)) as [->|Hk].
    + destruct Hdiff as [Hdiff|Hdiff]; [congruence|].
      rewrite lookup_insert_eq, lookup_insert_ne by congruence.
      destruct (ApiServer._cache s !! key) as [[| | |d]|]; reflexivity.
    + now rewrite lookup_insert_ne by congruence.
  - intros key' Hk. f_equal. unfold ApiServer.lookup_cache.
    rewrite Ec. now rewrite lookup_insert_ne by congruence.
  - unfold s'. destruct v; reflexivity.
Qed.

Lemma cache_set_then_get_witness :
  fst (ApiServer.cache_get "measurements" (Some "run1")
         (snd (ApiServer.cache_set "measurements" "run1" (ApiServer.VStr "00")
                 ApiServer.initial_state)))
  = Ok (ApiServer.VStr "00").
Proof.
  refine (proj1 (proj2 (cache_set_then_get ApiServer.initial_state
                          "measurements" "run1" (ApiServer.VStr "00") _ _)));
    discriminate.
Defined.

(** X6. Two cases in which [get] does not return what [set] was given.
    With a value of [None], [set(key, subkey, None)] is the two-parameter
    form: it replaces the whole entry of [key] by [subkey], so that
    afterwards [get(key)] is [subkey] and [get(key, sk)] is [None] for every
    sub-key ([set("keys", "classic", None)] forgets all three keys). With an
    empty sub-key, the value is stored under [""], but [get(key, "")] takes
    the empty sub-key for no sub-key and returns the whole dict. *)
Theorem cache_set_without_round_trip :
  forall (s : ApiServer.state) (key subkey : string) (v : ApiServer.value),
    (let s' := snd (ApiServer.cache_set key subkey ApiServer.VNone s) in
     fst (ApiServer.cache_get key None s') = Ok (ApiServer.VStr subkey) /\
     forall sk, sk <> "" ->
       fst (ApiServer.cache_get key (Some sk) s') = Ok ApiServer.VNone) /\
    (v <> ApiServer.VNone ->
     let s' := snd (ApiServer.cache_set key "" v s) in
     exists d,
       fst (ApiServer.cache_get key (Some "") s') = Ok (ApiServer.VDict d) /\
       d !! "" = Some v).
Proof.
  intros s key subkey v. split.
  - intros s'.
    assert (Ec : ApiServer._cache s'
                 = <[key := ApiServer.VStr subkey]> (ApiServer._cache s))
      by reflexivity.
    unfold ApiServer.cache_get, ApiServer.lookup_cache. cbn [fst]. rewrite Ec.
    split; [now rewrite lookup_insert_eq|].
    intros [|a sk] Hsk; [congruence|]. now rewrite lookup_insert_eq.
  - intros Hv s'.
    assert (Ec : ApiServer._cache s'
                 = <[key := ApiServer.VDict
                       (<["" := v]>
                          match ApiServer._cache s !! key with
                          | Some (ApiServer.VDict d) => d
                          | _ => ∅
                          end)]> (ApiServer._cache s))
      by (unfold s'; destruct v; [congruence | reflexivity ..]).
    eexists. unfold ApiServer.cache_get, ApiServer.lookup_cache. cbn [fst].
    rewrite Ec, lookup_insert_eq. split; [reflexivity|]. apply lookup_insert_eq.
Qed.

Lemma cache_set_without_round_trip_witness :
  exists d,
    fst (ApiServer.cache_get "measurements" (Some "")
           (snd (ApiServer.cache_set "measurements" "" (ApiServer.VStr "00")
                   ApiServer.initial_state)))
    = Ok (ApiServer.VDict d) /\
    d !! "" = Some (ApiServer.VStr "00").
Proof.
  refine (proj2 (cache_set_without_round_trip ApiServer.initial_state
                   "measurements" "" (ApiServer.VStr "00")) _).
  discriminate.
Defined.

Section BitErrorRate.

(** Positions that differ and positions that match make up the keys. *)
Lemma differing_plus_matching (key1 key2 : list Z) :
  length key1 = length key2 ->
  Z.of_nat (length (filter (fun p : Z * Z => fst p ≠ snd p) (zip key1 key2)))
  = Z.of_nat (length key1) - count_matches key1 key2.
Proof.
  intros Hlen. unfold count_matches.
  pose proof (filter_app_complement (fun p : Z * Z => fst p = snd p) (zip key1 key2)) as Hp.
  apply Permutation_length in Hp. rewrite length_app, length_zip in Hp.
  rewrite <- Hlen, Nat.min_id in Hp. lia.
Qed.

Lemma no_differing_position (key1 key2 : list Z) :
  length key1 = length key2 ->
  filter (fun p : Z * Z => fst p ≠ snd p) (zip key1 key2) = [] <-> key1 = key2.
Proof.
  revert key2. induction key1 as [|x key1 IH]; intros [|y key2] Hlen;
    try discriminate Hlen.
  - split; reflexivity.
  - injection Hlen as Hlen. cbn [zip zip_with]. rewrite filter_cons. cbn [fst snd].
    destruct (decide (x ≠ y)) as [Hne|He].
    + split; [discriminate | congruence].
    + assert (x = y) as -> by (destruct (decide (x = y)); tauto).
      rewrite (IH key2 Hlen). split; [congruence | now intros [= ->]].
Qed.

Lemma differing_symmetric (key1 : list Z) : forall key2,
  length (filter (fun p : Z * Z => fst p ≠ snd p) (zip key1 key2))
  = length (filter (fun p : Z * Z => fst p ≠ snd p) (zip key2 key1)).
Proof.
  induction key1 as [|x key1 IH]; intros [|y key2]; try reflexivity.
  cbn [zip zip_with]. rewrite !filter_cons. cbn [fst snd].
  destruct (decide (x = y)) as [->|Hne].
  - rewrite !decide_False by (intros H; now apply H). apply IH.
  - rewrite !decide_True by congruence. cbn [length]. now rewrite (IH key2).
Qed.

Lemma ratio_zero (a b : Z) :
  0 < b -> (inject_Z a / inject_Z b == 0)%Q <-> a = 0.
Proof.
  intros Hb. destruct b as [|p|p]; try lia.
  unfold Qeq, Qdiv, Qmult, Qinv, inject_Z. cbn. lia.
Qed.

End BitErrorRate.

(** X7. On two non-empty keys of the same length, [calculate_qber] is the
    share of positions at which the keys differ, that is
    [(len - matches) / len] with [matches] the number of equal positions
    ([eve_attack] counts the same); it lies between 0 and 1 and is 0 exactly
    when the keys are equal. For all keys, also empty or of different
    lengths, the result does not depend on the order of the arguments. *)
Theorem calculate_qber_share_of_differences :
  forall key1 key2 : list Z,
    ApiServer.calculate_qber key1 key2 = ApiServer.calculate_qber key2 key1 /\
    (key1 <> [] -> length key1 = length key2 ->
     let len := Z.of_nat (length key1) in
     exists qber,
       ApiServer.calculate_qber key1 key2 = Ok qber /\
       qber = (inject_Z (len - count_matches key1 key2) / inject_Z len)%Q /\
       (0 <= qber)%Q /\ (qber <= 1)%Q /\
       ((qber == 0)%Q <-> key1 = key2)).
Proof.
  intros key1 key2. split.
  - unfold ApiServer.calculate_qber.
    rewrite (differing_symmetric key1 key2).
    rewrite (Nat.eqb_sym (length key1) (length key2)).
    destruct (bool_decide (key1 = [])), (bool_decide (key2 = []));
      cbn [orb]; try reflexivity.
    destruct (Nat.eqb_spec (length key2) (length key1)) as [->|]; reflexivity.
  - intros Hne Hlen len. subst len.
    assert (Hpos : 0 < Z.of_nat (length key1))
      by (destruct key1; [congruence | cbn; lia]).
    unfold ApiServer.calculate_qber.
    rewrite bool_decide_eq_false_2 by exact Hne.
    rewrite bool_decide_eq_false_2
      by (intros ->; destruct key1; [congruence | discriminate]).
    rewrite <- Hlen, Nat.eqb_refl. cbn [orb negb].
    pose proof (differing_plus_matching key1 key2 Hlen) as Hd.
    pose proof (length_filter (fun p : Z * Z => fst p ≠ snd p) (zip key1 key2)) as Hf.
    rewrite length_zip, <- Hlen, Nat.min_id in Hf.
    rewrite Hd. unfold truediv.
    replace (Z.of_nat (length key1) =? 0) with false
      by (symmetry; apply Z.eqb_neq; lia).
    destruct (ratio_in_unit_interval
                (Z.of_nat (length key1) - count_matches key1 key2)
                (Z.of_nat (length key1)) ltac:(lia) Hpos) as [H0 H1].
    eexists. split; [reflexivity|]. split; [reflexivity|].
    split; [exact H0|]. split; [exact H1|].
    rewrite (ratio_zero _ _ Hpos).
    rewrite <- (no_differing_position key1 key2 Hlen).
    rewrite <- Hd. split.
    + intros H. apply length_zero_iff_nil. lia.
    + intros ->. reflexivity.
Qed.

Lemma calculate_qber_share_of_differences_witness :
  exists qber,
    ApiServer.calculate_qber [0; 1; 1; 0] [0; 1; 0; 1] = Ok qber /\
    qber = (inject_Z (4 - count_matches [0; 1; 1; 0]%Z [0; 1; 0; 1]%Z) / inject_Z 4)%Q /\
    (0 <= qber)%Q /\ (qber <= 1)%Q /\
    ((qber == 0)%Q <-> [0; 1; 1; 0] = [0; 1; 0; 1]).
Proof.
  apply (proj2 (calculate_qber_share_of_differences [0; 1; 1; 0] [0; 1; 0; 1]));
    [discriminate | reflexivity].
Defined.

(** *** Running the handlers *)

(** Steps through one command whose outcome in the current state is known. *)
Ltac exec_step a Heq :=
  rewrite (run_bind _ _ _ a) by (rewrite Heq; reflexivity);
  rewrite Heq; cbn [snd].

Section InitKeys.
Import ApiServer.

Lemma step_ok r m s resp s' :
  step r s = try_except m s -> m s = (Ok resp, s') -> step r s = (resp, s').
Proof. intros -> H. now apply try_except_ok. Qed.

Lemma new_list_heap bits s :
  heap (snd (new_list bits s)) = <[next_loc s := bits]> (heap s) /\
  next_loc (snd (new_list bits s)) = S (next_loc s) /\
  _cache (snd (new_list bits s)) = _cache s.
Proof. repeat split. Qed.

Lemma calculate_qber_value key1 key2 :
  exists qber, calculate_qber key1 key2 = Ok qber.
Proof.
  pose proof (calculate_qber_total key1 key2) as H.
  destruct (calculate_qber key1 key2) as [q|e]; [eauto | discriminate H].
Qed.

(** /init_keys with GET or POST, from a state whose heap is in order. *)
Lemma init_keys_run method rnd measure_quantum measure_eve s :
  heap_ok s -> method <> OPTIONS ->
  let classic := random_bits rnd 0 in
  let quantum := map (fun i => Z.b2z (measure_quantum i)) (seq 0 64) in
  let eve := map (fun i => Z.b2z (measure_eve i)) (seq 0 64) in
  exists qber s',
    calculate_qber quantum eve = Ok qber /\
    init_keys method rnd measure_quantum measure_eve s
    = (Ok (Response 200
             (<["classic_key" := JBits classic]>
              (<["quantum_key" := JBits quantum]>
               (<["qber" := JNum qber]> ∅)))), s') /\
    lookup_cache (_cache s') "keys" (Some "classic") = VList (next_loc s) /\
    lookup_cache (_cache s') "keys" (Some "quantum") = VList (S (next_loc s)) /\
    lookup_cache (_cache s') "keys" (Some "eve") = VList (S (S (next_loc s))) /\
    heap s'
    = <[S (S (next_loc s)) := eve]>
        (<[S (next_loc s) := quantum]> (<[next_loc s := classic]> (heap s))) /\
    next_loc s' = S (S (S (next_loc s))).
Proof.
  intros Hh Hm classic quantum eve.
  destruct (calculate_qber_value quantum eve) as [qber Hq].
  exists qber.
  assert (E : init_keys method rnd measure_quantum measure_eve s
              = init_keys POST rnd measure_quantum measure_eve s)
    by (destruct method; [reflexivity | reflexivity | congruence]).
  rewrite E. unfold init_keys, generate_quantum_key. fold classic quantum eve.
  exec_step (next_loc s) (new_list_run classic s).
  set (s1 := snd (new_list classic s)).
  exec_step (next_loc s1) (new_list_run quantum s1).
  set (s2 := snd (new_list quantum s1)).
  exec_step (next_loc s2) (new_list_run eve s2).
  set (s3 := snd (new_list eve s2)).
  assert (Eh : heap s3
               = <[S (S (next_loc s)) := eve]>
                   (<[S (next_loc s) := quantum]> (<[next_loc s := classic]> (heap s))))
    by reflexivity.
  assert (Hc3 : heap s3 !! next_loc s = Some classic).
  { rewrite Eh, !lookup_insert_ne by lia. apply lookup_insert_eq. }
  assert (Hq3 : heap s3 !! next_loc s1 = Some quantum).
  { rewrite Eh. change (next_loc s1) with (S (next_loc s)).
    rewrite lookup_insert_ne by lia. apply lookup_insert_eq. }
  assert (He3 : heap s3 !! next_loc s2 = Some eve).
  { rewrite Eh. change (next_loc s2) with (S (S (next_loc s))).
    apply lookup_insert_eq. }
  exec_step quantum (read_list_run (next_loc s1) s3 quantum Hq3).
  exec_step eve (read_list_run (next_loc s2) s3 eve He3).
  rewrite (run_bind _ _ _ qber) by (unfold lift; cbn [fst]; exact Hq).
  unfold lift at 1. cbn [snd].
  exec_step tt (cache_set_list_run "classic" (next_loc s) s3).
  set (s4 := snd (cache_set "keys" "classic" (VList (next_loc s)) s3)).
  exec_step tt (cache_set_list_run "quantum" (next_loc s1) s4).
  set (s5 := snd (cache_set "keys" "quantum" (VList (next_loc s1)) s4)).
  exec_step tt (cache_set_list_run "eve" (next_loc s2) s5).
  set (s6 := snd (cache_set "keys" "eve" (VList (next_loc s2)) s5)).
  assert (Eh6 : heap s6 = heap s3) by reflexivity.
  assert (Hc6 : heap s6 !! next_loc s = Some classic) by (rewrite Eh6; exact Hc3).
  exec_step classic (read_list_run (next_loc s) s6 classic Hc6).
  exists s6. split; [exact Hq|]. split; [reflexivity|].
  split; [|split; [|split; [|split; [exact Eh | reflexivity]]]].
  - unfold s6, s5, s4. rewrite !lookup_cache_set by discriminate.
    rewrite decide_False by discriminate. rewrite decide_False by discriminate.
    now rewrite decide_True by reflexivity.
  - unfold s6, s5. rewrite !lookup_cache_set by discriminate.
    rewrite decide_False by discriminate. now rewrite decide_True by reflexivity.
  - unfold s6. rewrite lookup_cache_set by discriminate.
    now rewrite decide_True by reflexivity.
Qed.

End InitKeys.

(** X8. /init_keys. With GET or POST, in every state the server can reach,
    the handler answers 200: it makes three new lists of 64 bits and stores
    them as the classic, the quantum and Eve's key; the response holds the
    classic and the quantum key that are now in the cache and the bit error
    rate between the quantum key and Eve's key, and nothing else (Eve's key
    is not sent); the list objects that existed before are unchanged. With
    OPTIONS it answers 200 with an empty body and changes nothing. *)
Theorem init_keys_replaces_all_keys :
  forall (requests : list ApiServer.request) (method : ApiServer.http_method)
         (rnd : nat -> nat) (measure_quantum measure_eve : nat -> bool),
    let s := ApiServer.run requests ApiServer.initial_state in
    let resp :=
      fst (ApiServer.step
             (ApiServer.ReqInitKeys method rnd measure_quantum measure_eve) s) in
    let s' :=
      snd (ApiServer.step
             (ApiServer.ReqInitKeys method rnd measure_quantum measure_eve) s) in
    let classic := ApiServer.random_bits rnd 0 in
    let quantum := map (fun i => Z.b2z (measure_quantum i)) (seq 0 64) in
    let eve := map (fun i => Z.b2z (measure_eve i)) (seq 0 64) in
    (method = ApiServer.OPTIONS -> resp = ApiServer.Response 200 ∅ /\ s' = s) /\
    (method <> ApiServer.OPTIONS ->
       (exists qber,
          ApiServer.calculate_qber quantum eve = Ok qber /\
          resp = ApiServer.Response 200
                   (<["classic_key" := ApiServer.JBits classic]>
                    (<["quantum_key" := ApiServer.JBits quantum]>
                     (<["qber" := ApiServer.JNum qber]> ∅)))) /\
       ApiServer.cached_key s' "classic" = Some classic /\
       ApiServer.cached_key s' "quantum" = Some quantum /\
       ApiServer.cached_key s' "eve" = Some eve /\
       length classic = 64%nat /\ length quantum = 64%nat /\ length eve = 64%nat /\
       (forall l bits,
          ApiServer.heap s !! l = Some bits -> ApiServer.heap s' !! l = Some bits)).
Proof.
  intros requests method rnd measure_quantum measure_eve s resp s' classic quantum eve.
  split.
  - intros ->. split; reflexivity.
  - intros Hm.
    pose proof (run_invariant requests _ invariant_initial) as [Hh _]. fold s in Hh.
    destruct (init_keys_run method rnd measure_quantum measure_eve s Hh Hm)
      as (qber & t & Hq & Hrun & Hc & Hqu & He & Eh & _).
    fold classic quantum eve in Hq, Hrun, Eh.
    assert (E : ApiServer.step
                  (ApiServer.ReqInitKeys method rnd measure_quantum measure_eve) s
                = (ApiServer.Response 200
                     (<["classic_key" := ApiServer.JBits classic]>
                      (<["quantum_key" := ApiServer.JBits quantum]>
                       (<["qber" := ApiServer.JNum qber]> ∅))), t))
      by (eapply step_ok; [reflexivity | exact Hrun]).
    unfold resp, s'. rewrite E. cbn [fst snd].
    split; [exists qber; split; [exact Hq | reflexivity]|].
    unfold ApiServer.cached_key. rewrite Hc, Hqu, He, Eh.
    split; [rewrite !lookup_insert_ne by lia; apply lookup_insert_eq|].
    split; [rewrite lookup_insert_ne by lia; apply lookup_insert_eq|].
    split; [apply lookup_insert_eq|].
    split; [apply random_bits_spec|].
    split; [apply measured_bits_spec|]. split; [apply measured_bits_spec|].
    intros l bits Hl. pose proof (Hh _ _ Hl) as [Hlt _].
    rewrite !lookup_insert_ne by lia. exact Hl.
Qed.

Section Handlers.
Import ApiServer.

Lemma lift_bind {A B} (r : result A) (f : A -> M B) s :
  (lift r ≫= f) s = match r with Ok a => f a s | Raise e => (Raise e, s) end.
Proof. destruct r; reflexivity. Qed.

(** Under the invariant a role's entry is [None] or a list of 64 bits. *)
Lemma role_entry s role :
  invariant s -> role ∈ roles ->
  (lookup_cache (_cache s) "keys" (Some role) = VNone /\ cached_key s role = None) \/
  (exists l bits,
     lookup_cache (_cache s) "keys" (Some role) = VList l /\
     heap s !! l = Some bits /\ cached_key s role = Some bits /\
     length bits = 64%nat /\ Forall is_bit bits).
Proof.
  intros [Hh Hc] Hr. specialize (Hc role Hr). unfold cached_key.
  destruct (lookup_cache (_cache s) "keys" (Some role)) as [| |l|];
    try contradiction.
  - left. split; reflexivity.
  - right. destruct Hc as (bits & Hb & Hl). exists l, bits.
    repeat split; try assumption. now apply Hh in Hb.
Qed.

Lemma valid_key_type_str kt :
  kt = "classic" \/ kt = "quantum" ->
  valid_key_type (JsonString (code_points kt)) = Some kt.
Proof. intros H. apply valid_key_type_spec. auto. Qed.

Lemma key_type_role kt : kt = "classic" \/ kt = "quantum" -> kt ∈ roles.
Proof. intros H. eapply valid_key_type_role, valid_key_type_str, H. Qed.

(** The first lines of /encrypt and /decrypt on a JSON object that has both
    parameters, with a valid key type. *)
Lemma parameters_run (text_name : string) data text kt
    (f : json_value -> string -> M response) s :
  data !! text_name = Some text ->
  data !! "key_type" = Some (JsonString (code_points kt)) ->
  kt = "classic" \/ kt = "quantum" ->
  ((data ← lift (Ok (JsonObject data));
   missing ← lift (missing_parameters [text_name; "key_type"] data);
   if (missing : bool)
   then mret (error_response 400 "Missing required parameters")
   else
     text ← lift (json_getitem text_name data);
     key_type ← lift (json_getitem "key_type" data);
     match valid_key_type key_type with
     | None => mret (error_response 400 "Invalid key type")
     | Some key_type => f text key_type
     end) : M response) s
  = f text kt s.
Proof.
  intros Hm Hkt Hv. rewrite lift_bind. cbv beta iota.
  rewrite lift_bind, missing_parameters_object
    by (discriminate || (repeat constructor; eauto)).
  cbv beta iota.
  rewrite lift_bind, (json_getitem_object _ _ _ Hm). cbv beta iota.
  rewrite lift_bind, (json_getitem_object _ _ _ Hkt). cbv beta iota.
  rewrite (valid_key_type_str kt Hv). reflexivity.
Qed.

(** The two handlers after their checks, with the key in the cache. *)
Lemma encrypt_run s data text kt l key :
  data !! "message" = Some text ->
  data !! "key_type" = Some (JsonString (code_points kt)) ->
  kt = "classic" \/ kt = "quantum" ->
  lookup_cache (_cache s) "keys" (Some kt) = VList l ->
  heap s !! l = Some key -> key <> [] ->
  encrypt (Ok (JsonObject data)) s
  = ((fun encrypted_msg =>
        Response 200
          (<["encrypted_msg" := JText encrypted_msg]>
           (<["key_used" := JBits (slice_to key 16)]> ∅)))
     <$> (cipher ← OptimizedQuantumDES.init key; cipher_encrypt cipher text), s).
Proof.
  intros Hm Hkt Hv Hl Hk Hne. unfold encrypt.
  rewrite (parameters_run "message" data text kt _ s Hm Hkt Hv).
  rewrite (run_bind _ _ _ (VList l)) by (rewrite cache_get_run, Hl; reflexivity).
  rewrite cache_get_run. cbn [snd].
  exec_step true (truthy_list_run l s key Hk Hne). cbn [negb].
  change ((as_list (VList l) ≫= read_list) ≫= ?f) with (read_list l ≫= f).
  exec_step key (read_list_run l s key Hk).
  rewrite lift_bind. destruct (OptimizedQuantumDES.init key) as [cipher|e]; [|reflexivity].
  rewrite lift_bind. cbn [mbind result_bind].
  destruct (cipher_encrypt cipher text); reflexivity.
Qed.

Lemma decrypt_run s data text kt l key :
  data !! "encrypted_msg" = Some text ->
  data !! "key_type" = Some (JsonString (code_points kt)) ->
  kt = "classic" \/ kt = "quantum" ->
  lookup_cache (_cache s) "keys" (Some kt) = VList l ->
  heap s !! l = Some key -> key <> [] ->
  decrypt (Ok (JsonObject data)) s
  = ((fun decrypted_msg =>
        Response 200 (<["decrypted_msg" := JText decrypted_msg]> ∅))
     <$> (cipher ← OptimizedQuantumDES.init key; cipher_decrypt cipher text), s).
Proof.
  intros Hm Hkt Hv Hl Hk Hne. unfold decrypt.
  rewrite (parameters_run "encrypted_msg" data text kt _ s Hm Hkt Hv).
  rewrite (run_bind _ _ _ (VList l)) by (rewrite cache_get_run, Hl; reflexivity).
  rewrite cache_get_run. cbn [snd].
  exec_step true (truthy_list_run l s key Hk Hne). cbn [negb].
  change ((as_list (VList l) ≫= read_list) ≫= ?f) with (read_list l ≫= f).
  exec_step key (read_list_run l s key Hk).
  rewrite lift_bind. destruct (OptimizedQuantumDES.init key) as [cipher|e]; [|reflexivity].
  rewrite lift_bind. cbn [mbind result_bind].
  destruct (cipher_decrypt cipher text); reflexivity.
Qed.

End Handlers.

(** X9. /encrypt and /decrypt never change the state of the server: from
    any state and for any request, whether it has a JSON body or not and
    whether the answer is 200, 400 or 500, the cache and every list object
    are afterwards what they were. *)
Theorem encrypt_decrypt_leave_state :
  forall (request_json : result ApiServer.json_value) (s : ApiServer.state),
    snd (ApiServer.step (ApiServer.ReqEncrypt request_json) s) = s /\
    snd (ApiServer.step (ApiServer.ReqDecrypt request_json) s) = s.
Proof.
  intros request_json s. cbn [ApiServer.step]. rewrite !try_except_state.
  split; [apply readonly_encrypt | apply readonly_decrypt].
Qed.

(** X10. Round trip through the server. In every state the server can
    reach in which the key of the chosen type (classic or quantum) is
    initialized, /encrypt of a printable-ASCII message answers 200 with a
    ciphertext and the first 16 bits of the key, and /decrypt of that
    ciphertext with the same key type answers 200 with the message. *)
Theorem server_encrypt_then_decrypt :
  forall (requests : list ApiServer.request) (kt : string) (key text : list Z)
         (to_encrypt : gmap string ApiServer.json_value),
    let s := ApiServer.run requests ApiServer.initial_state in
    kt = "classic" \/ kt = "quantum" ->
    ApiServer.cached_key s kt = Some key ->
    Forall Utf8.printable_ascii text ->
    to_encrypt !! "message" = Some (ApiServer.JsonString text) ->
    to_encrypt !! "key_type"
      = Some (ApiServer.JsonString (ApiServer.code_points kt)) ->
    exists encrypted_msg,
      fst (ApiServer.step
             (ApiServer.ReqEncrypt (Ok (ApiServer.JsonObject to_encrypt))) s)
      = ApiServer.Response 200
          (<["encrypted_msg" := ApiServer.JText encrypted_msg]>
           (<["key_used" := ApiServer.JBits (take 16 key)]> ∅)) /\
      forall to_decrypt : gmap string ApiServer.json_value,
        to_decrypt !! "encrypted_msg" = Some (ApiServer.JsonString encrypted_msg) ->
        to_decrypt !! "key_type"
          = Some (ApiServer.JsonString (ApiServer.code_points kt)) ->
        fst (ApiServer.step
               (ApiServer.ReqDecrypt (Ok (ApiServer.JsonObject to_decrypt))) s)
        = ApiServer.Response 200 (<["decrypted_msg" := ApiServer.JText text]> ∅).
Proof.
  intros requests kt key text to_encrypt s Hv Hkey Htext Hm Hke.
  pose proof (run_invariant requests _ invariant_initial) as Hinv. fold s in Hinv.
  destruct (cached_key_inv _ _ _ Hkey) as (l & Hl & Hk).
  destruct (cached_key_spec s kt key Hinv (key_type_role kt Hv) Hkey)
    as [Hlen Hbits].
  pose proof (key64_nonempty key Hlen) as Hne.
  destruct (optimized_init_spec key Hbits) as (key8 & Hinit & Hlen8 & _).
  destruct (adapter_round_trip key8 text Hlen8 Htext) as (encrypted & Henc & Hdec).
  exists encrypted. split.
  - cbn [ApiServer.step]. unfold ApiServer.try_except.
    rewrite (encrypt_run s to_encrypt _ kt l key Hm Hke Hv Hl Hk Hne).
    rewrite Hinit. cbn [mbind result_bind ApiServer.cipher_encrypt].
    unfold ApiServer.OptimizedQuantumDES.encrypt.
    cbn [ApiServer.OptimizedQuantumDES.key]. rewrite Henc. reflexivity.
  - intros to_decrypt Hmd Hkd. cbn [ApiServer.step]. unfold ApiServer.try_except.
    rewrite (decrypt_run s to_decrypt _ kt l key Hmd Hkd Hv Hl Hk Hne).
    rewrite Hinit. cbn [mbind result_bind ApiServer.cipher_decrypt].
    unfold ApiServer.OptimizedQuantumDES.decrypt.
    cbn [ApiServer.OptimizedQuantumDES.key]. rewrite Hdec. reflexivity.
Qed.

Lemma server_encrypt_then_decrypt_witness :
  exists encrypted_msg,
    fst (ApiServer.step
           (ApiServer.ReqEncrypt
              (Ok (ApiServer.JsonObject
                     (<["message" := ApiServer.JsonString [72; 105]]>
                      (<["key_type" :=
                           ApiServer.JsonString (ApiServer.code_points "quantum")]>
                       ∅)))))
           (ApiServer.run
              [ApiServer.ReqInitKeys ApiServer.POST (fun i => i) Nat.even Nat.odd]
              ApiServer.initial_state))
    = ApiServer.Response 200
        (<["encrypted_msg" := ApiServer.JText encrypted_msg]>
         (<["key_used" := ApiServer.JBits
              (take 16 (map (fun i => Z.b2z (Nat.even i)) (seq 0 64)))]> ∅)) /\
    forall to_decrypt : gmap string ApiServer.json_value,
      to_decrypt !! "encrypted_msg" = Some (ApiServer.JsonString encrypted_msg) ->
      to_decrypt !! "key_type"
        = Some (ApiServer.JsonString (ApiServer.code_points "quantum")) ->
      fst (ApiServer.step
             (ApiServer.ReqDecrypt (Ok (ApiServer.JsonObject to_decrypt)))
             (ApiServer.run
                [ApiServer.ReqInitKeys ApiServer.POST (fun i => i) Nat.even Nat.odd]
                ApiServer.initial_state))
      = ApiServer.Response 200
          (<["decrypted_msg" := ApiServer.JText [72; 105]]> ∅).
Proof.
  apply (server_encrypt_then_decrypt
           [ApiServer.ReqInitKeys ApiServer.POST (fun i => i) Nat.even Nat.odd]
           "quantum" (map (fun i => Z.b2z (Nat.even i)) (seq 0 64)) [72; 105]
           (<["message" := ApiServer.JsonString [72; 105]]>
            (<["key_type" :=
                 ApiServer.JsonString (ApiServer.code_points "quantum")]> ∅))).
  - now right.
  - vm_compute. reflexivity.
  - repeat constructor; unfold Utf8.printable_ascii; lia.
  - reflexivity.
  - reflexivity.
Defined.

Section BadRequests.
Import ApiServer.

(** The first lines of the three handlers: [request.json], then the check
    for missing parameters. *)
Lemma parameters_check_run names request_json (rest : json_value -> M response) s :
  ((data ← lift request_json;
    missing ← lift (missing_parameters names data);
    if (missing : bool)
    then mret (error_response 400 "Missing required parameters")
    else rest data) : M response) s
  = match request_json with
    | Raise e => (Raise e, s)
    | Ok data =>
        match missing_parameters names data with
        | Raise e => (Raise e, s)
        | Ok true => (Ok (error_response 400 "Missing required parameters"), s)
        | Ok false => rest data s
        end
    end.
Proof.
  destruct request_json as [data|e]; [|reflexivity].
  rewrite lift_bind. cbv beta iota. rewrite lift_bind.
  destruct (missing_parameters names data) as [[]|]; reflexivity.
Qed.

(** A JSON object without one of the named members has a parameter
    missing. *)
Lemma missing_parameters_absent names members x :
  x ∈ names -> members !! x = None ->
  missing_parameters names (JsonObject members) = Ok true.
Proof.
  intros Hx Hnone. unfold missing_parameters.
  destruct (json_truthy (JsonObject members)); [|reflexivity].
  induction names as [|y names IH]; [now apply elem_of_nil in Hx|].
  cbn [any_not_in json_contains mbind result_bind].
  destruct (members !! y) as [v|] eqn:Hy; [|reflexivity].
  apply elem_of_cons in Hx as [-> | Hx]; [congruence | now apply IH].
Qed.

(** A value that is true and no container has no [in]. *)
Lemma missing_parameters_no_container x names data :
  json_truthy data = true ->
  (exists b, data = JsonBool b) \/ (exists q, data = JsonNumber q) ->
  missing_parameters (x :: names) data = Raise TypeError.
Proof.
  intros Ht [[b ->] | [q ->]]; unfold missing_parameters; rewrite Ht; reflexivity.
Qed.

(** On a string and on a list the check looks for a substring and for an
    element, and the look-up that follows the check raises. *)
Lemma missing_parameters_sequence x y data :
  json_truthy data = true ->
  (exists text, data = JsonString text) \/ (exists items, data = JsonArray items) ->
  exists has_x has_y,
    json_contains x data = Ok has_x /\ json_contains y data = Ok has_y /\
    missing_parameters [x; y] data = Ok (negb (has_x && has_y)) /\
    json_getitem x data = Raise TypeError.
Proof.
  intros Ht [[text ->] | [items ->]]; unfold missing_parameters; rewrite Ht;
    cbn [any_not_in json_contains json_getitem mbind result_bind];
    eexists _, _; (split; [reflexivity|]); (split; [reflexivity|]);
    (split; [|reflexivity]);
    match goal with |- context [if ?b then _ else _] => destruct b end;
    try reflexivity;
    match goal with |- context [if ?b then _ else _] => destruct b end;
    reflexivity.
Qed.

(** A key made by [OptimizedQuantumDES] is accepted by [DES.new], so a
    parameter that is no string fails at its first use. *)
Lemma cipher_not_str key (v : json_value) :
  Forall is_bit key -> (forall text, v <> JsonString text) ->
  (cipher ← OptimizedQuantumDES.init key; cipher_encrypt cipher v)
    = Raise AttributeError /\
  (cipher ← OptimizedQuantumDES.init key; cipher_decrypt cipher v)
    = Raise TypeError.
Proof.
  intros Hbits Hv.
  destruct (optimized_init_spec key Hbits) as (key8 & Hinit & Hlen8 & _).
  rewrite Hinit. cbn [mbind result_bind].
  destruct v; try (now destruct (Hv s));
    cbn [cipher_encrypt cipher_decrypt OptimizedQuantumDES.key];
    unfold Des.new; rewrite Hlen8; split; reflexivity.
Qed.

End BadRequests.

(** X11. What /encrypt and /decrypt answer to a request they cannot serve,
    in the order of the checks and in every state the server can reach.
    When [request.json] raises, the answer is 500 with that exception. A
    body that is false as a Python value ([null], [false], 0, the empty
    string, list or object) is answered 400 "Missing required parameters";
    [true] and the other numbers are answered 500 with a [TypeError]; a
    string or list is answered 400 unless it contains both parameter names
    (as substrings, as elements), and then 500 with a [TypeError]. An
    object without [message] (for /decrypt: [encrypted_msg]) or without
    [key_type] is answered 400 "Missing required parameters"; otherwise a
    [key_type] that is not the string classic or quantum is answered 400
    "Invalid key type"; otherwise, when the key of that type is not
    initialized, the answer is 400 "No <key_type> key initialized"; and
    otherwise a [message] that is no string is answered 500 with an
    [AttributeError], an [encrypted_msg] that is no string 500 with a
    [TypeError]. *)
Theorem encrypt_decrypt_bad_request :
  forall (requests : list ApiServer.request)
         (request_json : result ApiServer.json_value),
    let s := ApiServer.run requests ApiServer.initial_state in
    let encrypted := fst (ApiServer.step (ApiServer.ReqEncrypt request_json) s) in
    let decrypted := fst (ApiServer.step (ApiServer.ReqDecrypt request_json) s) in
    let missing := ApiServer.error_response 400 "Missing required parameters" in
    let invalid := ApiServer.error_response 400 "Invalid key type" in
    let failed e := ApiServer.Response 500 (<["error" := ApiServer.JExn e]> ∅) in
    (forall e, request_json = Raise e ->
       encrypted = failed e /\ decrypted = failed e) /\
    (forall data, request_json = Ok data ->
       (ApiServer.json_truthy data = false ->
          encrypted = missing /\ decrypted = missing) /\
       (ApiServer.json_truthy data = true ->
        (exists b, data = ApiServer.JsonBool b) \/
        (exists q, data = ApiServer.JsonNumber q) ->
          encrypted = failed TypeError /\ decrypted = failed TypeError) /\
       (ApiServer.json_truthy data = true ->
        (exists text, data = ApiServer.JsonString text) \/
        (exists items, data = ApiServer.JsonArray items) ->
        forall has_message has_encrypted_msg has_key_type,
          ApiServer.json_contains "message" data = Ok has_message ->
          ApiServer.json_contains "encrypted_msg" data = Ok has_encrypted_msg ->
          ApiServer.json_contains "key_type" data = Ok has_key_type ->
          encrypted
            = (if has_message && has_key_type then failed TypeError else missing) /\
          decrypted
            = (if has_encrypted_msg && has_key_type then failed TypeError
               else missing))) /\
    (forall members, request_json = Ok (ApiServer.JsonObject members) ->
       (members !! "message" = None \/ members !! "key_type" = None ->
          encrypted = missing) /\
       (members !! "encrypted_msg" = None \/ members !! "key_type" = None ->
          decrypted = missing) /\
       (forall key_type,
          members !! "key_type" = Some key_type ->
          key_type <> ApiServer.JsonString (ApiServer.code_points "classic") ->
          key_type <> ApiServer.JsonString (ApiServer.code_points "quantum") ->
          (members !! "message" <> None -> encrypted = invalid) /\
          (members !! "encrypted_msg" <> None -> decrypted = invalid)) /\
       (forall kt,
          members !! "key_type"
            = Some (ApiServer.JsonString (ApiServer.code_points kt)) ->
          kt = "classic" \/ kt = "quantum" ->
          (ApiServer.cached_key s kt = None ->
             (members !! "message" <> None ->
                encrypted
                = ApiServer.error_response 400 ("No " +:+ kt +:+ " key initialized")) /\
             (members !! "encrypted_msg" <> None ->
                decrypted
                = ApiServer.error_response 400 ("No " +:+ kt +:+ " key initialized"))) /\
          (ApiServer.cached_key s kt <> None ->
             forall v, (forall text, v <> ApiServer.JsonString text) ->
               (members !! "message" = Some v -> encrypted = failed AttributeError) /\
               (members !! "encrypted_msg" = Some v ->
                  decrypted = failed TypeError)))).
Proof.
  intros requests request_json s encrypted decrypted missing invalid failed.
  pose proof (run_invariant requests _ invariant_initial) as Hinv. fold s in Hinv.
  subst encrypted decrypted. cbn [ApiServer.step].
  unfold ApiServer.try_except, ApiServer.encrypt, ApiServer.decrypt.
  rewrite !parameters_check_run.
  split; [|split].
  - intros e ->. split; reflexivity.
  - intros data ->. split; [|split].
    + intros Hf. unfold ApiServer.missing_parameters. rewrite Hf. split; reflexivity.
    + intros Ht Hdata.
      rewrite !(missing_parameters_no_container _ _ data Ht Hdata). split; reflexivity.
    + intros Ht Hdata hm he hk Hm He Hk.
      destruct (missing_parameters_sequence "message" "key_type" data Ht Hdata)
        as (b1 & b2 & E1 & E2 & -> & G1).
      destruct (missing_parameters_sequence "encrypted_msg" "key_type" data Ht Hdata)
        as (b3 & b4 & E3 & E4 & -> & G2).
      assert (b1 = hm /\ b2 = hk /\ b3 = he /\ b4 = hk) as (-> & -> & -> & ->)
        by (repeat split; congruence).
      split.
      * destruct (hm && hk); [|reflexivity]. cbn [negb].
        rewrite lift_bind, G1. reflexivity.
      * destruct (he && hk); [|reflexivity]. cbn [negb].
        rewrite lift_bind, G2. reflexivity.
  - intros members ->. split; [|split; [|split]].
    + intros [H|H];
        [rewrite (missing_parameters_absent ["message"; "key_type"] members
                    "message" ltac:(repeat constructor) H)
        |rewrite (missing_parameters_absent ["message"; "key_type"] members
                    "key_type" ltac:(repeat constructor) H)];
        reflexivity.
    + intros [H|H];
        [rewrite (missing_parameters_absent ["encrypted_msg"; "key_type"] members
                    "encrypted_msg" ltac:(repeat constructor) H)
        |rewrite (missing_parameters_absent ["encrypted_msg"; "key_type"] members
                    "key_type" ltac:(repeat constructor) H)];
        reflexivity.
    + intros key_type Hkt Hc Hq.
      assert (Hv : ApiServer.valid_key_type key_type = None).
      { destruct (ApiServer.valid_key_type key_type) as [kt|] eqn:E; [|reflexivity].
        apply valid_key_type_spec in E as [[-> | ->] ->]; congruence. }
      split; intros Hm.
      * destruct (members !! "message") as [v|] eqn:Hv'; [|congruence].
        rewrite missing_parameters_object
          by (discriminate || (repeat constructor; eauto)).
        rewrite lift_bind, (json_getitem_object _ _ _ Hv'). cbv beta iota.
        rewrite lift_bind, (json_getitem_object _ _ _ Hkt). cbv beta iota.
        rewrite Hv. reflexivity.
      * destruct (members !! "encrypted_msg") as [v|] eqn:Hv'; [|congruence].
        rewrite missing_parameters_object
          by (discriminate || (repeat constructor; eauto)).
        rewrite lift_bind, (json_getitem_object _ _ _ Hv'). cbv beta iota.
        rewrite lift_bind, (json_getitem_object _ _ _ Hkt). cbv beta iota.
        rewrite Hv. reflexivity.
    + intros kt Hkt Hvalid.
      assert (Hrun : forall name v (rest : ApiServer.json_value -> string ->
                                              ApiServer.M ApiServer.response),
                members !! name = Some v ->
                match ApiServer.missing_parameters [name; "key_type"]
                        (ApiServer.JsonObject members) with
                | Ok true => (Ok missing, s)
                | Ok false =>
                    (text ← ApiServer.lift
                              (ApiServer.json_getitem name (ApiServer.JsonObject members));
                     key_type ← ApiServer.lift
                                  (ApiServer.json_getitem "key_type"
                                     (ApiServer.JsonObject members));
                     match ApiServer.valid_key_type key_type with
                     | None => mret invalid
                     | Some key_type => rest text key_type
                     end) s
                | Raise e => (Raise e, s)
                end = rest v kt s).
      { intros name v rest Hn.
        rewrite missing_parameters_object
          by (discriminate || (repeat constructor; eauto)).
        rewrite lift_bind, (json_getitem_object _ _ _ Hn). cbv beta iota.
        rewrite lift_bind, (json_getitem_object _ _ _ Hkt). cbv beta iota.
        rewrite (valid_key_type_str kt Hvalid). reflexivity. }
      split.
      * intros Hnone.
        destruct (role_entry s kt Hinv (key_type_role kt Hvalid))
          as [[Hl _] | (l & bits & _ & _ & Hsome & _)]; [|congruence].
        split; intros Hm.
        -- destruct (members !! "message") as [v|] eqn:Hv'; [|congruence].
           rewrite (Hrun "message" v _ Hv').
           rewrite (run_bind _ _ _ ApiServer.VNone)
             by (rewrite cache_get_run, Hl; reflexivity).
           rewrite cache_get_run. reflexivity.
        -- destruct (members !! "encrypted_msg") as [v|] eqn:Hv'; [|congruence].
           rewrite (Hrun "encrypted_msg" v _ Hv').
           rewrite (run_bind _ _ _ ApiServer.VNone)
             by (rewrite cache_get_run, Hl; reflexivity).
           rewrite cache_get_run. reflexivity.
      * intros Hsome v Hv.
        destruct (role_entry s kt Hinv (key_type_role kt Hvalid))
          as [[_ Hnone] | (l & key & Hl & Hh & _ & Hlen & Hbits)]; [congruence|].
        pose proof (key64_nonempty key Hlen) as Hne.
        destruct (cipher_not_str key v Hbits Hv) as [Henc Hdec].
        split; intros Hm.
        -- pose proof (encrypt_run s members v kt l key Hm Hkt Hvalid Hl Hh Hne) as E.
           unfold ApiServer.encrypt in E. rewrite parameters_check_run in E.
           rewrite E, Henc. reflexivity.
        -- pose proof (decrypt_run s members v kt l key Hm Hkt Hvalid Hl Hh Hne) as E.
           unfold ApiServer.decrypt in E. rewrite parameters_check_run in E.
           rewrite E, Hdec. reflexivity.
Qed.

(** X12. /decrypt answers 500, not 400, to a ciphertext it cannot use. In
    every state the server can reach, with the key of the chosen type
    initialized: when the text is not base64 text the answer is 500 with the
    error of the decoder; when it decodes to no bytes at all (the empty
    string does) or to a number of bytes that is not a multiple of 8, the
    answer is 500 with a [ValueError]. *)
Theorem decrypt_malformed_ciphertext :
  forall (requests : list ApiServer.request)
         (data : gmap string ApiServer.json_value)
         (kt : string) (key text : list Z),
    let s := ApiServer.run requests ApiServer.initial_state in
    let resp :=
      fst (ApiServer.step
             (ApiServer.ReqDecrypt (Ok (ApiServer.JsonObject data))) s) in
    kt = "classic" \/ kt = "quantum" ->
    ApiServer.cached_key s kt = Some key ->
    data !! "encrypted_msg" = Some (ApiServer.JsonString text) ->
    data !! "key_type" = Some (ApiServer.JsonString (ApiServer.code_points kt)) ->
    (forall e,
       Base64.b64decode text = Raise e ->
       resp = ApiServer.Response 500 (<["error" := ApiServer.JExn e]> ∅)) /\
    (forall encrypted,
       Base64.b64decode text = Ok encrypted ->
       encrypted = [] \/ (length encrypted mod 8 <> 0)%nat ->
       resp = ApiServer.Response 500 (<["error" := ApiServer.JExn ValueError]> ∅)).
Proof.
  intros requests data kt key text s resp Hv Hkey Hm Hk.
  pose proof (run_invariant requests _ invariant_initial) as Hinv. fold s in Hinv.
  destruct (cached_key_inv _ _ _ Hkey) as (l & Hl & Hh).
  destruct (cached_key_spec s kt key Hinv (key_type_role kt Hv) Hkey)
    as [Hlen Hbits].
  pose proof (key64_nonempty key Hlen) as Hne.
  destruct (optimized_init_spec key Hbits) as (key8 & Hinit & Hlen8 & _).
  subst resp. cbn [ApiServer.step]. unfold ApiServer.try_except.
  rewrite (decrypt_run s data _ kt l key Hm Hk Hv Hl Hh Hne).
  rewrite Hinit. cbn [mbind result_bind ApiServer.cipher_decrypt].
  unfold ApiServer.OptimizedQuantumDES.decrypt, Des.new.
  cbn [ApiServer.OptimizedQuantumDES.key]. rewrite Hlen8. cbn [Nat.eqb mbind result_bind].
  split.
  - intros e He. rewrite He. reflexivity.
  - intros encrypted He Hbad. rewrite He. cbn [mbind result_bind].
    unfold Des.decrypt, Des.block_size.
    destruct Hbad as [-> | Hbad]; [reflexivity|].
    destruct (Nat.eqb_spec (length encrypted mod 8) 0); [contradiction | reflexivity].
Qed.

Lemma decrypt_malformed_ciphertext_witness :
  fst (ApiServer.step
         (ApiServer.ReqDecrypt
            (Ok (ApiServer.JsonObject
                   (<["encrypted_msg" := ApiServer.JsonString []]>
                    (<["key_type" :=
                         ApiServer.JsonString (ApiServer.code_points "classic")]>
                     ∅)))))
         (ApiServer.run
            [ApiServer.ReqInitKeys ApiServer.GET (fun i => i) Nat.even Nat.odd]
            ApiServer.initial_state))
  = ApiServer.Response 500 (<["error" := ApiServer.JExn ValueError]> ∅).
Proof.
  refine (proj2 (decrypt_malformed_ciphertext
                   [ApiServer.ReqInitKeys ApiServer.GET (fun i => i) Nat.even Nat.odd]
                   (<["encrypted_msg" := ApiServer.JsonString []]>
                    (<["key_type" :=
                         ApiServer.JsonString (ApiServer.code_points "classic")]>
                     ∅))
                   "classic" (ApiServer.random_bits (fun i => i) 0) []
                   _ _ _ _) [] _ _).
  - now left.
  - vm_compute. reflexivity.
  - reflexivity.
  - reflexivity.
  - reflexivity.
  - now left.
Defined.

(** *** /eve_attack in full *)

Section EveAttackInFull.
Import ApiServer.

Lemma truthy_none_run s : truthy VNone s = (Ok false, s).
Proof. reflexivity. Qed.

(** The first lines of /eve_attack on a JSON object with a valid key type. *)
Lemma key_type_run data kt (rest : string -> M response) s :
  data !! "key_type" = Some (JsonString (code_points kt)) ->
  kt = "classic" \/ kt = "quantum" ->
  ((data ← lift (Ok (JsonObject data));
    missing ← lift (missing_parameters ["key_type"] data);
    if (missing : bool)
    then mret (error_response 400 "Missing required parameters")
    else
      key_type ← lift (json_getitem "key_type" data);
      match valid_key_type key_type with
      | None => mret (error_response 400 "Invalid key type")
      | Some key_type => rest key_type
      end) : M response) s
  = rest kt s.
Proof.
  intros Hkt Hv. rewrite parameters_check_run.
  rewrite missing_parameters_object
    by (discriminate || (repeat constructor; eauto)).
  rewrite lift_bind, (json_getitem_object _ _ _ Hkt). cbv beta iota.
  rewrite (valid_key_type_str kt Hv). reflexivity.
Qed.

(** Without the key of the chosen type, or without Eve's key, the handler
    stops at its third check. *)
Lemma eve_attack_guard s data rnd measure kt :
  invariant s ->
  data !! "key_type" = Some (JsonString (code_points kt)) ->
  kt = "classic" \/ kt = "quantum" ->
  cached_key s kt = None \/ cached_key s "eve" = None ->
  eve_attack (Ok (JsonObject data)) rnd measure s
  = (Ok (error_response 400 "Keys not initialized"), s).
Proof.
  intros Hinv Hkt Hv Hnone. unfold eve_attack.
  rewrite (key_type_run data kt _ s Hkt Hv).
  assert (Heve : "eve" ∈ roles)
    by (unfold roles; do 2 (apply elem_of_cons; right); apply elem_of_cons; now left).
  destruct (role_entry s kt Hinv (key_type_role kt Hv))
    as [[Hl _] | (l & bits & Hl & Hh & Hsome & Hlen & _)].
  - rewrite (run_bind _ _ _ VNone) by (rewrite cache_get_run, Hl; reflexivity).
    rewrite cache_get_run. cbn [snd].
    rewrite (run_bind _ _ _ (lookup_cache (_cache s) "keys" (Some "eve")))
      by (rewrite cache_get_run; reflexivity).
    rewrite cache_get_run. cbn [snd]. reflexivity.
  - destruct Hnone as [Hnone|Hnone]; [congruence|].
    destruct (role_entry s "eve" Hinv Heve) as [[Hle _] | (le & ? & _ & _ & ? & _)];
      [|congruence].
    rewrite (run_bind _ _ _ (VList l)) by (rewrite cache_get_run, Hl; reflexivity).
    rewrite cache_get_run. cbn [snd].
    rewrite (run_bind _ _ _ VNone) by (rewrite cache_get_run, Hle; reflexivity).
    rewrite cache_get_run. cbn [snd].
    exec_step true (truthy_list_run l s bits Hh (key64_nonempty bits Hlen)).
    reflexivity.
Qed.

(** The quantum branch: the response and the state it ends in. *)
Lemma eve_attack_quantum_full s data rnd measure lk key le0 eve :
  heap_ok s ->
  data !! "key_type" = Some (JsonString (code_points "quantum")) ->
  lookup_cache (_cache s) "keys" (Some "quantum") = VList lk ->
  heap s !! lk = Some key -> key <> [] ->
  lookup_cache (_cache s) "keys" (Some "eve") = VList le0 ->
  heap s !! le0 = Some eve -> eve <> [] ->
  let guess := random_bits rnd 0 in
  let measured := map (fun i => Z.b2z (measure i)) (seq 0 64) in
  let matches := count_matches key guess in
  let s2 := snd (cache_set "keys" "eve" (VList (next_loc s)) (snd (new_list guess s))) in
  let s4 :=
    snd (cache_set "keys" "quantum" (VList (next_loc s2)) (snd (new_list measured s2))) in
  eve_attack (Ok (JsonObject data)) rnd measure s
  = match match_verdict matches with
    | QuantumKey.Safe =>
        (Ok (Response 200
               (<["status" := JStr "detected_safe"]>
                (<["log_msg" := JLog "Quantum interference detected but within safe limits. No key regeneration needed." matches]>
                 (<["eve_key" := JBits (slice_to guess 16)]> ∅)))), s2)
    | v =>
        (Ok (Response 200
               (<["status" := JStr "detected_reinit"]>
                (<["log_msg" := JLog (reinit_log v) matches]>
                 (<["eve_key" := JBits (slice_to guess 16)]>
                  (<["new_quantum_key" := JBits measured]> ∅))))), s4)
    end.
Proof.
  intros Hh Hkt Hck Hk Hkne Hce He Hene guess measured matches s2 s4.
  unfold eve_attack.
  rewrite (key_type_run data "quantum" _ s Hkt (or_intror eq_refl)).
  rewrite (run_bind _ _ _ (VList lk)) by (rewrite cache_get_run, Hck; reflexivity).
  rewrite cache_get_run. cbn [snd].
  rewrite (run_bind _ _ _ (VList le0)) by (rewrite cache_get_run, Hce; reflexivity).
  rewrite cache_get_run. cbn [snd].
  exec_step true (truthy_list_run lk s key Hk Hkne).
  exec_step true (truthy_list_run le0 s eve He Hene).
  cbn [andb negb].
  change (bool_decide ("quantum" = "classic")) with false. cbv iota.
  exec_step (next_loc s) (new_list_run (random_bits rnd 0) s).
  exec_step tt (cache_set_list_run "eve" (next_loc s) (snd (new_list (random_bits rnd 0) s))).
  fold guess. fold s2.
  destruct (guess_cached s guess lk key Hh Hk) as (Eh & En & Hk2 & Hg2 & Hne & Hev & Hother).
  fold s2 in Eh, En, Hk2, Hg2, Hev, Hother.
  change ((as_list (VList lk) ≫= read_list) ≫= ?f) with (read_list lk ≫= f).
  exec_step key (read_list_run lk s2 key Hk2).
  exec_step guess (read_list_run (next_loc s) s2 guess Hg2).
  fold matches.
  assert (Hm4 : heap s4 !! next_loc s2 = Some measured)
    by (change (heap s4) with (<[next_loc s2 := measured]> (heap s2));
        apply lookup_insert_eq).
  destruct (match_verdict matches); [reflexivity | | |];
    unfold generate_quantum_key; fold measured;
    exec_step (next_loc s2) (new_list_run measured s2);
    exec_step tt (cache_set_list_run "quantum" (next_loc s2) (snd (new_list measured s2)));
    fold s4;
    exec_step measured (read_list_run (next_loc s2) s4 measured Hm4);
    reflexivity.
Qed.

(** The classic branch: the response and the state it ends in. *)
Lemma eve_attack_classic_full s data rnd measure lk key le0 eve :
  heap_ok s ->
  data !! "key_type" = Some (JsonString (code_points "classic")) ->
  lookup_cache (_cache s) "keys" (Some "classic") = VList lk ->
  heap s !! lk = Some key -> length key = 64%nat ->
  lookup_cache (_cache s) "keys" (Some "eve") = VList le0 ->
  heap s !! le0 = Some eve -> eve <> [] ->
  let guess := random_bits rnd 0 in
  let final :=
    overwritten_guess rnd key guess 65 (Z.to_nat (randint 32 58 (rnd 64%nat))) in
  let matches := count_matches key final in
  let s2 := snd (cache_set "keys" "eve" (VList (next_loc s)) (snd (new_list guess s))) in
  let s3 := State (<[next_loc s := final]> (heap s2)) (next_loc s2) (_cache s2) in
  eve_attack (Ok (JsonObject data)) rnd measure s
  = if 48 <? matches
    then (Ok (Response 200
                (<["status" := JStr "cracked"]>
                 (<["log_msg" := JLog "Classic encryption cracked! Eve obtained the key." matches]>
                  (<["eve_key" := JBits (slice_to key 16)]> ∅)))),
          snd (cache_set "keys" "eve" (VList lk) s3))
    else (Ok (Response 200
                (<["status" := JStr "progress"]>
                 (<["log_msg" := JLog "Brute force attempt in classic key." matches]>
                  (<["eve_key" := JBits (slice_to final 16)]> ∅)))), s3).
Proof.
  intros Hh Hkt Hck Hk Hkl Hce He Hene guess final matches s2 s3.
  pose proof (key64_nonempty key Hkl) as Hkne.
  unfold eve_attack.
  rewrite (key_type_run data "classic" _ s Hkt (or_introl eq_refl)).
  rewrite (run_bind _ _ _ (VList lk)) by (rewrite cache_get_run, Hck; reflexivity).
  rewrite cache_get_run. cbn [snd].
  rewrite (run_bind _ _ _ (VList le0)) by (rewrite cache_get_run, Hce; reflexivity).
  rewrite cache_get_run. cbn [snd].
  exec_step true (truthy_list_run lk s key Hk Hkne).
  exec_step true (truthy_list_run le0 s eve He Hene).
  cbn [andb negb].
  change (bool_decide ("classic" = "classic")) with true. cbv iota.
  exec_step (next_loc s) (new_list_run (random_bits rnd 0) s).
  exec_step tt (cache_set_list_run "eve" (next_loc s) (snd (new_list (random_bits rnd 0) s))).
  fold guess. fold s2.
  destruct (guess_cached s guess lk key Hh Hk) as (Eh & En & Hk2 & Hg2 & Hne & Hev & Hother).
  fold s2 in Eh, En, Hk2, Hg2, Hev, Hother.
  pose proof (overwrite_loop_run rnd lk (next_loc s) key
                (Z.to_nat (randint 32 58 (rnd 64%nat))) 65%nat s2 guess
                Hne Hk2 Hkl Hg2 (proj1 (random_bits_spec rnd 0))) as Hloop.
  fold final in Hloop. fold s3 in Hloop.
  exec_step tt Hloop.
  assert (Hk3 : heap s3 !! lk = Some key)
    by (cbn [s3 heap]; rewrite lookup_insert_ne by auto; exact Hk2).
  assert (Hg3 : heap s3 !! next_loc s = Some final)
    by (cbn [s3 heap]; apply lookup_insert_eq).
  change ((as_list (VList lk) ≫= read_list) ≫= ?f) with (read_list lk ≫= f).
  exec_step key (read_list_run lk s3 key Hk3).
  exec_step final (read_list_run (next_loc s) s3 final Hg3).
  fold matches.
  destruct (48 <? matches); [|reflexivity].
  exec_step tt (cache_set_list_run "eve" lk s3). reflexivity.
Qed.

End EveAttackInFull.

Section KeysTogether.
Import ApiServer.

Lemma eve_role : "eve" ∈ roles.
Proof. unfold roles. do 2 (apply elem_of_cons; right). apply elem_of_cons. now left. Qed.

Lemma roles_cases role :
  role ∈ roles -> role = "classic" \/ role = "quantum" \/ role = "eve".
Proof. unfold roles. rewrite !elem_of_cons, elem_of_nil. tauto. Qed.

(** Storing a list under a role keeps the three entries lists. *)
Lemma keys_initialized_set subkey l s :
  keys_initialized s ->
  keys_initialized (snd (cache_set "keys" subkey (VList l) s)).
Proof.
  intros H role Hr. rewrite lookup_cache_set by (discriminate || now apply role_nonempty).
  destruct (decide (subkey = role)); [eauto | now apply H].
Qed.

Lemma keys_initialized_cache s s' :
  _cache s' = _cache s -> keys_initialized s -> keys_initialized s'.
Proof. intros E H role Hr. rewrite E. now apply H. Qed.

Lemma keys_uninitialized_none s role :
  keys_uninitialized s -> role ∈ roles -> cached_key s role = None.
Proof. intros H Hr. unfold cached_key. now rewrite (H role Hr). Qed.

(** A role's key is the same after a command that leaves the entry and the
    old list objects alone. *)
Lemma cached_key_frame s s' role :
  invariant s -> role ∈ roles ->
  lookup_cache (_cache s') "keys" (Some role)
  = lookup_cache (_cache s) "keys" (Some role) ->
  (forall l bits, heap s !! l = Some bits -> heap s' !! l = Some bits) ->
  cached_key s' role = cached_key s role.
Proof.
  intros Hinv Hr El Hheap. unfold cached_key. rewrite El.
  destruct (role_entry s role Hinv Hr) as [[Hl _] | (l & bits & Hl & Hh & _)];
    rewrite Hl; [reflexivity|].
  rewrite Hh. now apply Hheap.
Qed.

(** A request whose body is no JSON object is answered from the first
    lines of /eve_attack, and the state stays as it is. *)
Lemma eve_attack_no_object s request_json rnd measure :
  (forall data, request_json <> Ok (JsonObject data)) ->
  eve_attack request_json rnd measure s
  = (match request_json with
     | Raise e => Raise e
     | Ok data =>
         if json_truthy data then
           match json_contains "key_type" data with
           | Ok true => Raise TypeError
           | Ok false => Ok (error_response 400 "Missing required parameters")
           | Raise e => Raise e
           end
         else Ok (error_response 400 "Missing required parameters")
     end, s).
Proof.
  intros Hno. unfold eve_attack. rewrite parameters_check_run.
  destruct request_json as [data|e]; [|reflexivity].
  unfold missing_parameters. destruct (json_truthy data); [|reflexivity].
  cbn [any_not_in].
  destruct data; cbn [json_contains mbind result_bind]; try reflexivity.
  - destruct (is_substring _ _); [|reflexivity]. now rewrite lift_bind.
  - destruct (existsb _ _); [|reflexivity]. now rewrite lift_bind.
  - now destruct (Hno members).
Qed.

Lemma object_or_not (request_json : result json_value) :
  (exists data, request_json = Ok (JsonObject data)) \/
  (forall data, request_json <> Ok (JsonObject data)).
Proof. destruct request_json as [[]|]; eauto; right; discriminate. Qed.

(** What /eve_attack does with a JSON object, by cases: it stops at one of
    its three checks and leaves the state alone, or both keys are there. *)
Lemma eve_attack_cases s data rnd measure :
  invariant s ->
  (exists msg,
     eve_attack (Ok (JsonObject data)) rnd measure s
     = (Ok (error_response 400 msg), s) /\
     forall kt,
       data !! "key_type" = Some (JsonString (code_points kt)) ->
       kt = "classic" \/ kt = "quantum" ->
       cached_key s kt = None \/ cached_key s "eve" = None) \/
  (exists kt lk key le0 eve,
     data !! "key_type" = Some (JsonString (code_points kt)) /\
     (kt = "classic" \/ kt = "quantum") /\
     lookup_cache (_cache s) "keys" (Some kt) = VList lk /\
     heap s !! lk = Some key /\ cached_key s kt = Some key /\
     length key = 64%nat /\
     lookup_cache (_cache s) "keys" (Some "eve") = VList le0 /\
     heap s !! le0 = Some eve /\ cached_key s "eve" = Some eve /\
     length eve = 64%nat).
Proof.
  intros Hinv.
  destruct (data !! "key_type") as [v|] eqn:Hkt.
  2: { left. exists "Missing required parameters". split.
       - unfold eve_attack. rewrite parameters_check_run.
         now rewrite (missing_parameters_absent ["key_type"] data "key_type"
                        ltac:(repeat constructor) Hkt).
       - intros kt [=]. }
  destruct (valid_key_type v) as [kt|] eqn:Hv.
  2: { left. exists "Invalid key type". split.
       - unfold eve_attack. rewrite parameters_check_run.
         rewrite missing_parameters_object
           by (discriminate || (repeat constructor; eauto)).
         rewrite lift_bind, (json_getitem_object _ _ _ Hkt). cbv beta iota.
         now rewrite Hv.
       - intros kt' [= ->] Hkt'. rewrite (valid_key_type_str kt' Hkt') in Hv.
         discriminate Hv. }
  apply valid_key_type_spec in Hv as [Hv ->].
  destruct (role_entry s kt Hinv (key_type_role kt Hv))
    as [[_ Hnone] | (lk & key & Hl & Hh & Hsome & Hlen & _)].
  { left. exists "Keys not initialized". split.
    - apply (eve_attack_guard s data rnd measure kt Hinv Hkt Hv). now left.
    - intros kt' [= E] Hkt'.
      destruct Hv as [-> | ->], Hkt' as [-> | ->]; try (now left);
        vm_compute in E; discriminate E. }
  destruct (role_entry s "eve" Hinv eve_role)
    as [[_ Hnone] | (le0 & eve & Hle & Hhe & Hesome & Helen & _)].
  { left. exists "Keys not initialized". split.
    - apply (eve_attack_guard s data rnd measure kt Hinv Hkt Hv). now right.
    - intros kt' _ _. now right. }
  right. exists kt, lk, key, le0, eve. repeat split; assumption.
Qed.

(** The states the two branches end in keep the three entries lists. *)
Lemma eve_attack_keeps_keys s request_json rnd measure :
  invariant s -> keys_initialized s ->
  keys_initialized (snd (eve_attack request_json rnd measure s)).
Proof.
  intros Hinv Hall. pose proof Hinv as [Hh _].
  destruct (object_or_not request_json) as [[data ->] | Hno];
    [|now rewrite (eve_attack_no_object s request_json rnd measure Hno)].
  destruct (eve_attack_cases s data rnd measure Hinv)
    as [(msg & E & _) | (kt & lk & key & le0 & eve & Hkt & Hv & Hl & Hk & _ & Hlen
                         & Hle & Hhe & _ & Helen)].
  { rewrite E. exact Hall. }
  destruct Hv as [-> | ->].
  - rewrite (eve_attack_classic_full s data rnd measure lk key le0 eve
               Hh Hkt Hl Hk Hlen Hle Hhe (key64_nonempty eve Helen)).
    cbv zeta.
    assert (H3 : keys_initialized
                   (State
                      (<[next_loc s :=
                           overwritten_guess rnd key (random_bits rnd 0) 65
                             (Z.to_nat (randint 32 58 (rnd 64%nat)))]>
                         (heap (snd (cache_set "keys" "eve" (VList (next_loc s))
                                       (snd (new_list (random_bits rnd 0) s))))))
                      (next_loc (snd (cache_set "keys" "eve" (VList (next_loc s))
                                        (snd (new_list (random_bits rnd 0) s)))))
                      (_cache (snd (cache_set "keys" "eve" (VList (next_loc s))
                                      (snd (new_list (random_bits rnd 0) s))))))).
    { eapply keys_initialized_cache; [reflexivity|].
      apply keys_initialized_set.
      eapply keys_initialized_cache; [|exact Hall]. reflexivity. }
    destruct (48 <? _); cbn [snd]; [|exact H3].
    now apply keys_initialized_set.
  - rewrite (eve_attack_quantum_full s data rnd measure lk key le0 eve
               Hh Hkt Hl Hk (key64_nonempty key Hlen) Hle Hhe
               (key64_nonempty eve Helen)).
    cbv zeta.
    assert (H2 : keys_initialized
                   (snd (cache_set "keys" "eve" (VList (next_loc s))
                           (snd (new_list (random_bits rnd 0) s))))).
    { apply keys_initialized_set.
      eapply keys_initialized_cache; [|exact Hall]. reflexivity. }
    destruct (match_verdict _); cbn [snd]; [exact H2 | | |];
      apply keys_initialized_set;
      (eapply keys_initialized_cache; [|exact H2]); reflexivity.
Qed.

Lemma keys_uninitialized_initial : keys_uninitialized initial_state.
Proof.
  intros role Hr.
  destruct (roles_cases role Hr) as [-> | [-> | ->]]; reflexivity.
Qed.

Lemma cache_clear_uninitialized s :
  keys_uninitialized (snd (cache_clear s)).
Proof.
  intros role Hr.
  destruct (roles_cases role Hr) as [-> | [-> | ->]]; reflexivity.
Qed.

(** Every request keeps the keys together. *)
Lemma step_keys_together r s :
  invariant s ->
  keys_uninitialized s \/ keys_initialized s ->
  keys_uninitialized (snd (step r s)) \/ keys_initialized (snd (step r s)).
Proof.
  intros Hinv Hs. pose proof Hinv as [Hh _].
  destruct r as [method rnd mq me | data | data | data rnd measure |];
    cbn [step]; rewrite try_except_state.
  - assert (Hm : method = OPTIONS \/ method <> OPTIONS)
      by (destruct method; (now left) || (right; discriminate)).
    destruct Hm as [-> | Hm]; [exact Hs|].
    destruct (init_keys_run method rnd mq me s Hh Hm)
      as (qber & t & _ & Hrun & Hc & Hq & He & _).
    rewrite Hrun. cbn [snd]. right. intros role Hr.
    destruct (roles_cases role Hr) as [-> | [-> | ->]]; eauto.
  - now rewrite readonly_encrypt.
  - now rewrite readonly_decrypt.
  - destruct Hs as [Hnone | Hall].
    + destruct (object_or_not data) as [[members ->] | Hno];
        [|left; now rewrite (eve_attack_no_object s data rnd measure Hno)].
      destruct (eve_attack_cases s members rnd measure Hinv)
        as [(msg & E & _) | (kt & lk & key & le0 & eve & _ & _ & _ & _ & _ & _
                             & _ & _ & Hsome & _)].
      * rewrite E. now left.
      * rewrite (keys_uninitialized_none s "eve" Hnone eve_role) in Hsome.
        discriminate Hsome.
    + right. now apply eve_attack_keeps_keys.
  - left. change (snd ((cache_clear;; mret (Response 200 ∅)) s))
      with (snd (cache_clear s)).
    apply cache_clear_uninitialized.
Qed.

Lemma run_keys_together requests : forall s,
  invariant s ->
  keys_uninitialized s \/ keys_initialized s ->
  keys_uninitialized (run requests s) \/ keys_initialized (run requests s).
Proof.
  unfold run. induction requests as [|r requests IH]; intros s Hinv Hs; [exact Hs|].
  cbn [fold_left]. apply IH; [now apply step_invariant | now apply step_keys_together].
Qed.

End KeysTogether.

(** X13. The three keys come and go together. In every state the server
    can reach, either none of the classic, the quantum and Eve's key is
    initialized, or all three are lists of 64 bits: /init_keys sets all
    three, [clear] removes all three, and /eve_attack replaces keys only
    when they are there. *)
Theorem keys_all_or_none :
  forall requests : list ApiServer.request,
    let s := ApiServer.run requests ApiServer.initial_state in
    (forall role, role ∈ ApiServer.roles -> ApiServer.cached_key s role = None) \/
    (forall role, role ∈ ApiServer.roles ->
       exists bits,
         ApiServer.cached_key s role = Some bits /\
         length bits = 64%nat /\ Forall is_bit bits).
Proof.
  intros requests s.
  pose proof (run_invariant requests _ invariant_initial) as Hinv. fold s in Hinv.
  destruct (run_keys_together requests _ invariant_initial
              (or_introl keys_uninitialized_initial)) as [Hnone | Hall];
    fold s in Hnone || fold s in Hall.
  - left. intros role Hr. now apply keys_uninitialized_none.
  - right. intros role Hr. destruct (Hall role Hr) as [l Hl].
    destruct (role_entry s role Hinv Hr) as [[Hn _] | (l' & bits & _ & _ & Hc & Hlen & Hb)];
      [congruence|].
    exists bits. auto.
Qed.

(** X14. The status of /eve_attack, in every state the server can reach.
    The answer is 500 exactly when the body cannot be used as a dict:
    [request.json] raises, or the body is [true], a number other than 0, a
    string that contains key_type or a list with the element key_type; so a
    500 never comes from the keys or the state. The answer is 200 exactly
    when the body is an object whose [key_type] is the string classic or
    quantum and both the key of that type and Eve's key are initialized.
    Every other request is answered 400, and an attack that is not answered
    200 leaves the state as it was. *)
Theorem eve_attack_status_code :
  forall (requests : list ApiServer.request)
         (request_json : result ApiServer.json_value)
         (rnd : nat -> nat) (measure : nat -> bool),
    let s := ApiServer.run requests ApiServer.initial_state in
    let request := ApiServer.ReqEveAttack request_json rnd measure in
    let status := ApiServer.status_code (fst (ApiServer.step request s)) in
    let s' := snd (ApiServer.step request s) in
    let ready :=
      exists data kt,
        request_json = Ok (ApiServer.JsonObject data) /\
        data !! "key_type"
          = Some (ApiServer.JsonString (ApiServer.code_points kt)) /\
        (kt = "classic" \/ kt = "quantum") /\
        ApiServer.cached_key s kt <> None /\ ApiServer.cached_key s "eve" <> None in
    let unusable :=
      match request_json with
      | Raise _ => True
      | Ok (ApiServer.JsonBool b) => b = true
      | Ok (ApiServer.JsonNumber q) => ~ (q == 0)%Q
      | Ok (ApiServer.JsonString text) =>
          ApiServer.is_substring (ApiServer.code_points "key_type") text = true
      | Ok (ApiServer.JsonArray items) =>
          existsb (ApiServer.json_is_str "key_type") items = true
      | Ok ApiServer.JsonNull | Ok (ApiServer.JsonObject _) => False
      end in
    (status = 200%nat \/ status = 400%nat \/ status = 500%nat) /\
    (status = 200%nat <-> ready) /\
    (status = 500%nat <-> unusable) /\
    (status <> 200%nat -> s' = s).
Proof.
  intros requests request_json rnd measure s request status s' ready unusable.
  pose proof (run_invariant requests _ invariant_initial) as Hinv. fold s in Hinv.
  pose proof Hinv as [Hh _].
  subst status s' request. cbn [ApiServer.step]. unfold ApiServer.try_except.
  destruct (object_or_not request_json) as [[data ->] | Hno].
  - destruct (eve_attack_cases s data rnd measure Hinv)
      as [(msg & E & Hnot) | (kt & lk & key & le0 & eve & Hkt & Hv & Hl & Hk & Hsome
                              & Hlen & Hle & Hhe & Hesome & Helen)].
    + rewrite E. cbn [fst snd ApiServer.error_response ApiServer.status_code].
      split; [now right; left|]. split; [|split; [|reflexivity]].
      * split; [discriminate|].
        intros (data' & kt & [= <-] & Hkt & Hv & H1 & H2).
        destruct (Hnot kt Hkt Hv); contradiction.
      * subst unusable. cbv beta iota. split; [discriminate | contradiction].
    + assert (Hready : ready).
      { exists data, kt. repeat split; try assumption; congruence. }
      subst unusable. cbv beta iota.
      destruct Hv as [-> | ->].
      * rewrite (eve_attack_classic_full s data rnd measure lk key le0 eve
                   Hh Hkt Hl Hk Hlen Hle Hhe (key64_nonempty eve Helen)).
        cbv zeta. destruct (48 <? _); cbn [fst snd ApiServer.status_code];
          (split; [now left|]); (split; [tauto|]);
          (split; [split; [discriminate | contradiction] | congruence]).
      * rewrite (eve_attack_quantum_full s data rnd measure lk key le0 eve
                   Hh Hkt Hl Hk (key64_nonempty key Hlen) Hle Hhe
                   (key64_nonempty eve Helen)).
        cbv zeta. destruct (ApiServer.match_verdict _);
          cbn [fst snd ApiServer.status_code];
          (split; [now left|]); (split; [tauto|]);
          (split; [split; [discriminate | contradiction] | congruence]).
  - rewrite (eve_attack_no_object s request_json rnd measure Hno).
    assert (Hnr : ~ ready).
    { intros (data & kt & E & _). now destruct (Hno data). }
    subst unusable.
    destruct request_json as [data|e]; cbn [fst snd ApiServer.status_code].
    2: { split; [now right; right|]. split; [|split; [tauto | reflexivity]].
         split; [discriminate | contradiction]. }
    destruct data as [|b|q|text|items|members];
      cbn [ApiServer.json_truthy ApiServer.json_contains].
    + cbn [fst snd ApiServer.error_response ApiServer.status_code].
      split; [now right; left|]. split; [split; [discriminate | contradiction]|].
      split; [split; [discriminate | contradiction] | reflexivity].
    + destruct b; cbn [fst snd ApiServer.error_response ApiServer.status_code];
        (split; [auto|]); (split; [split; [discriminate | contradiction]|]);
        (split; [split; [congruence | discriminate || reflexivity] | reflexivity]).
    + destruct (Qeq_bool q 0) eqn:Eq; cbn [negb fst snd ApiServer.error_response
                                            ApiServer.status_code];
        (split; [auto|]); (split; [split; [discriminate | contradiction]|]);
        (split; [|reflexivity]).
      * apply Qeq_bool_iff in Eq. split; [discriminate | contradiction].
      * split; [|reflexivity]. intros _ H. apply Qeq_bool_iff in H. congruence.
    + destruct (bool_decide (text = [])) eqn:Et; cbn [negb].
      * apply bool_decide_eq_true_1 in Et. subst text.
        cbn [fst snd ApiServer.error_response ApiServer.status_code].
        split; [auto|]. split; [split; [discriminate | contradiction]|].
        split; [split; discriminate | reflexivity].
      * destruct (ApiServer.is_substring _ text);
          cbn [fst snd ApiServer.error_response ApiServer.status_code];
          (split; [auto|]); (split; [split; [discriminate | contradiction]|]);
          (split; [split; [congruence | discriminate || reflexivity] | reflexivity]).
    + destruct (bool_decide (items = [])) eqn:Et; cbn [negb].
      * apply bool_decide_eq_true_1 in Et. subst items.
        cbn [fst snd ApiServer.error_response ApiServer.status_code].
        split; [auto|]. split; [split; [discriminate | contradiction]|].
        split; [split; discriminate | reflexivity].
      * destruct (existsb _ items);
          cbn [fst snd ApiServer.error_response ApiServer.status_code];
          (split; [auto|]); (split; [split; [discriminate | contradiction]|]);
          (split; [split; [congruence | discriminate || reflexivity] | reflexivity]).
    + now destruct (Hno members).
Qed.

Section EveAttackResults.
Import ApiServer.

Lemma classic_role : "classic" ∈ roles.
Proof. unfold roles. apply elem_of_cons. now left. Qed.

Lemma quantum_role : "quantum" ∈ roles.
Proof. unfold roles. apply elem_of_cons. right. apply elem_of_cons. now left. Qed.

(** The state after Eve's guess is in the cache. *)
Lemma after_guess s guess :
  heap_ok s ->
  let s2 := snd (cache_set "keys" "eve" (VList (next_loc s)) (snd (new_list guess s))) in
  lookup_cache (_cache s2) "keys" (Some "eve") = VList (next_loc s) /\
  (forall role, role ∈ roles -> role <> "eve" ->
     lookup_cache (_cache s2) "keys" (Some role)
     = lookup_cache (_cache s) "keys" (Some role)) /\
  heap s2 = <[next_loc s := guess]> (heap s) /\
  next_loc s2 = S (next_loc s).
Proof.
  intros Hh s2. split; [|split; [|split; reflexivity]].
  - unfold s2. rewrite lookup_cache_set by discriminate.
    now rewrite decide_True by reflexivity.
  - intros role Hr Hne. unfold s2.
    rewrite lookup_cache_set by (discriminate || now apply role_nonempty).
    now rewrite decide_False by congruence.
Qed.

(** Old list objects after new ones were made at the next locations. *)
Lemma old_objects_kept s (h : gmap loc (list Z)) :
  heap_ok s ->
  (forall l, (l < next_loc s)%nat -> h !! l = heap s !! l) ->
  forall l bits, heap s !! l = Some bits -> h !! l = Some bits.
Proof.
  intros Hh Hsame l bits Hl. pose proof (Hh _ _ Hl) as [Hlt _].
  now rewrite Hsame.
Qed.

End EveAttackResults.

(** X15. /eve_attack on the quantum key, in every state the server can
    reach with both keys initialized. Eve's new guess of 64 random bits
    becomes her key in the cache, and its first 16 bits are the [eve_key] of
    the response; the classic key is not touched. With 16 matching positions
    or fewer the answer is "detected_safe" and the quantum key stays; with
    17 or more (so also from 17 to 23) the answer is "detected_reinit", and
    the newly measured key is in the response and replaces the quantum key
    in the cache. *)
Theorem eve_attack_quantum_result :
  forall (requests : list ApiServer.request)
         (data : gmap string ApiServer.json_value)
         (rnd : nat -> nat) (measure : nat -> bool) (key eve : list Z),
    let s := ApiServer.run requests ApiServer.initial_state in
    let request :=
      ApiServer.ReqEveAttack (Ok (ApiServer.JsonObject data)) rnd measure in
    let resp := fst (ApiServer.step request s) in
    let s' := snd (ApiServer.step request s) in
    let guess := ApiServer.random_bits rnd 0 in
    let measured := map (fun i => Z.b2z (measure i)) (seq 0 64) in
    let matches := count_matches key guess in
    data !! "key_type"
      = Some (ApiServer.JsonString (ApiServer.code_points "quantum")) ->
    ApiServer.cached_key s "quantum" = Some key ->
    ApiServer.cached_key s "eve" = Some eve ->
    ApiServer.cached_key s' "eve" = Some guess /\
    ApiServer.body resp !! "eve_key" = Some (ApiServer.JBits (take 16 guess)) /\
    ApiServer.cached_key s' "classic" = ApiServer.cached_key s "classic" /\
    (matches <= 16 ->
       ApiServer.body resp !! "status" = Some (ApiServer.JStr "detected_safe") /\
       ApiServer.body resp !! "new_quantum_key" = None /\
       ApiServer.cached_key s' "quantum" = Some key) /\
    (17 <= matches ->
       ApiServer.body resp !! "status" = Some (ApiServer.JStr "detected_reinit") /\
       ApiServer.body resp !! "new_quantum_key" = Some (ApiServer.JBits measured) /\
       ApiServer.cached_key s' "quantum" = Some measured).
Proof.
  intros requests data rnd measure key eve s request resp s' guess measured matches
         Hkt Hkey Heve.
  pose proof (run_invariant requests _ invariant_initial) as Hinv. fold s in Hinv.
  pose proof Hinv as [Hh _].
  destruct (cached_key_inv _ _ _ Hkey) as (lk & Hl & Hk).
  destruct (cached_key_inv _ _ _ Heve) as (le0 & Hle & Hhe).
  destruct (cached_key_spec s "quantum" key Hinv quantum_role Hkey) as [Hlen _].
  destruct (cached_key_spec s "eve" eve Hinv eve_role Heve) as [Helen _].
  pose proof (eve_attack_quantum_full s data rnd measure lk key le0 eve
                Hh Hkt Hl Hk (key64_nonempty key Hlen) Hle Hhe
                (key64_nonempty eve Helen)) as Hrun.
  cbv zeta in Hrun. fold guess measured matches in Hrun.
  destruct (after_guess s guess Hh) as (Hev2 & Hother2 & Eh2 & En2).
  set (s2 := snd (ApiServer.cache_set "keys" "eve" (ApiServer.VList (ApiServer.next_loc s))
                    (snd (ApiServer.new_list guess s)))) in *.
  set (s4 := snd (ApiServer.cache_set "keys" "quantum"
                    (ApiServer.VList (ApiServer.next_loc s2))
                    (snd (ApiServer.new_list measured s2)))) in *.
  assert (Eh4 : ApiServer.heap s4
                = <[S (ApiServer.next_loc s) := measured]>
                    (<[ApiServer.next_loc s := guess]> (ApiServer.heap s)))
    by (change (ApiServer.heap s4)
          with (<[ApiServer.next_loc s2 := measured]> (ApiServer.heap s2));
        now rewrite Eh2, En2).
  assert (Hl4 : forall role, role ∈ ApiServer.roles ->
            ApiServer.lookup_cache (ApiServer._cache s4) "keys" (Some role)
            = if decide ("quantum" = role)
              then ApiServer.VList (S (ApiServer.next_loc s))
              else ApiServer.lookup_cache (ApiServer._cache s2) "keys" (Some role)).
  { intros role Hr. unfold s4.
    rewrite lookup_cache_set by (discriminate || now apply role_nonempty).
    now rewrite En2. }
  destruct (match_verdict_spec matches) as (Hsafe & Hsig & Hcrit & Hsev).
  assert (Hstep : ApiServer.step request s
                  = ApiServer.try_except
                      (ApiServer.eve_attack (Ok (ApiServer.JsonObject data)) rnd measure) s)
    by reflexivity.
  assert (Hreinit : forall text,
    ApiServer.eve_attack (Ok (ApiServer.JsonObject data)) rnd measure s
    = (Ok (ApiServer.Response 200
             (<["status" := ApiServer.JStr "detected_reinit"]>
              (<["log_msg" := ApiServer.JLog text matches]>
               (<["eve_key" := ApiServer.JBits (slice_to guess 16)]>
                (<["new_quantum_key" := ApiServer.JBits measured]> ∅))))), s4) ->
    17 <= matches ->
    ApiServer.cached_key s' "eve" = Some guess /\
    ApiServer.body resp !! "eve_key" = Some (ApiServer.JBits (take 16 guess)) /\
    ApiServer.cached_key s' "classic" = ApiServer.cached_key s "classic" /\
    (matches <= 16 ->
       ApiServer.body resp !! "status" = Some (ApiServer.JStr "detected_safe") /\
       ApiServer.body resp !! "new_quantum_key" = None /\
       ApiServer.cached_key s' "quantum" = Some key) /\
    (17 <= matches ->
       ApiServer.body resp !! "status" = Some (ApiServer.JStr "detected_reinit") /\
       ApiServer.body resp !! "new_quantum_key" = Some (ApiServer.JBits measured) /\
       ApiServer.cached_key s' "quantum" = Some measured)).
  { intros text E Hm. unfold resp, s'. rewrite Hstep, (try_except_ok _ _ _ _ E).
    cbn [fst snd ApiServer.body].
    split; [|split; [|split; [|split]]].
    - unfold ApiServer.cached_key. rewrite (Hl4 "eve" eve_role).
      rewrite decide_False by discriminate. rewrite Hev2, Eh4.
      rewrite lookup_insert_ne by lia. apply lookup_insert_eq.
    - now rewrite !lookup_insert_ne, lookup_insert_eq by discriminate.
    - apply cached_key_frame; [exact Hinv | exact classic_role | |].
      + rewrite (Hl4 "classic" classic_role). rewrite decide_False by discriminate.
        apply Hother2; [exact classic_role | discriminate].
      + apply old_objects_kept; [exact Hh|]. intros l Hlt.
        rewrite Eh4. now rewrite !lookup_insert_ne by lia.
    - intros Hle16. lia.
    - intros _. split; [now rewrite lookup_insert_eq|].
      split; [now rewrite !lookup_insert_ne, lookup_insert_eq by discriminate|].
      unfold ApiServer.cached_key. rewrite (Hl4 "quantum" quantum_role).
      rewrite decide_True by reflexivity. rewrite Eh4. apply lookup_insert_eq. }
  destruct (ApiServer.match_verdict matches) eqn:Ev.
  - assert (Hm : matches <= 16) by now apply Hsafe.
    unfold resp, s'. rewrite Hstep, (try_except_ok _ _ _ _ Hrun).
    cbn [fst snd ApiServer.body].
    split; [|split; [|split; [|split]]].
    + unfold ApiServer.cached_key. rewrite Hev2, Eh2. apply lookup_insert_eq.
    + now rewrite !lookup_insert_ne, lookup_insert_eq by discriminate.
    + apply cached_key_frame; [exact Hinv | exact classic_role | |].
      * apply Hother2; [exact classic_role | discriminate].
      * apply old_objects_kept; [exact Hh|]. intros l Hlt.
        rewrite Eh2. now rewrite lookup_insert_ne by lia.
    + intros _. split; [now rewrite lookup_insert_eq|].
      split; [now rewrite !lookup_insert_ne, lookup_empty by discriminate|].
      rewrite <- Hkey.
      apply cached_key_frame; [exact Hinv | exact quantum_role | |].
      * apply Hother2; [exact quantum_role | discriminate].
      * apply old_objects_kept; [exact Hh|]. intros l Hlt.
        rewrite Eh2. now rewrite lookup_insert_ne by lia.
    + intros H17. lia.
  - apply (Hreinit _ Hrun). assert (17 <= matches <= 23) by now apply Hsig. lia.
  - apply (Hreinit _ Hrun). assert (24 <= matches <= 31) by now apply Hcrit. lia.
  - apply (Hreinit _ Hrun). assert (32 <= matches) by now apply Hsev. lia.
Qed.

Lemma eve_attack_quantum_result_witness :
  ApiServer.body
    (fst (ApiServer.step
            (ApiServer.ReqEveAttack
               (Ok (ApiServer.JsonObject
                      (<["key_type" := ApiServer.JsonString (ApiServer.code_points "quantum")]> ∅)))
               S Nat.even)
            (ApiServer.run
               [ApiServer.ReqInitKeys ApiServer.POST (fun i => i) Nat.even Nat.odd]
               ApiServer.initial_state)))
    !! "eve_key"
  = Some (ApiServer.JBits (take 16 (ApiServer.random_bits S 0))).
Proof.
  refine (proj1 (proj2
    (eve_attack_quantum_result
       [ApiServer.ReqInitKeys ApiServer.POST (fun i => i) Nat.even Nat.odd]
       (<["key_type" := ApiServer.JsonString (ApiServer.code_points "quantum")]> ∅)
       S Nat.even
       (map (fun i => Z.b2z (Nat.even i)) (seq 0 64))
       (map (fun i => Z.b2z (Nat.odd i)) (seq 0 64))
       _ _ _))).
  - reflexivity.
  - vm_compute. reflexivity.
  - vm_compute. reflexivity.
Defined.

Section OverwriteLoop.
Import ApiServer.

(** The position the loop draws with draw number [d]. *)
Lemma drawn_position_lt (rnd : nat -> nat) (d : nat) : (Z.to_nat (randint 0 63 (rnd d)) < 64)%nat.
Proof.
  unfold randint. change (63 - 0 + 1) with 64.
  pose proof (Z.mod_pos_bound (Z.of_nat (rnd d)) 64 ltac:(lia)). lia.
Qed.

Lemma overwritten_guess_length (rnd : nat -> nat) (key : list Z) n : forall guess draw,
  length (overwritten_guess rnd key guess draw n) = length guess.
Proof.
  induction n as [|n IH]; intros guess draw; [reflexivity|].
  cbn [overwritten_guess]. now rewrite IH, length_insert.
Qed.

(** Position by position: the true bit or the guess. *)
Lemma overwritten_guess_either (rnd : nat -> nat) (key : list Z) n :
  forall guess draw p,
    length key = 64%nat -> length guess = 64%nat ->
    overwritten_guess rnd key guess draw n !! p = key !! p \/
    overwritten_guess rnd key guess draw n !! p = guess !! p.
Proof.
  induction n as [|n IH]; intros guess draw p Hk Hg; [now right|].
  cbn [overwritten_guess]. cbv zeta.
  set (p0 := Z.to_nat (randint 0 63 (rnd draw))).
  pose proof (drawn_position_lt rnd draw) as Hp0. fold p0 in Hp0.
  destruct (lookup_lt_is_Some_2 key p0 ltac:(lia)) as [x Hx]. rewrite Hx. change (default 0 (Some x)) with x.
  destruct (IH (<[p0 := x]> guess) (S draw) p Hk ltac:(now rewrite length_insert))
    as [H|H]; [now left|].
  rewrite H. destruct (decide (p0 = p)) as [<-|Hne].
  - left. rewrite list_lookup_insert_eq by lia. now rewrite Hx.
  - right. now rewrite list_lookup_insert_ne by exact Hne.
Qed.

(** The true bit where a draw fell. *)
Lemma overwritten_guess_drawn (rnd : nat -> nat) (key : list Z) n :
  forall guess draw j,
    length key = 64%nat -> length guess = 64%nat -> (j < n)%nat ->
    overwritten_guess rnd key guess draw n
      !! Z.to_nat (randint 0 63 (rnd (draw + j)%nat))
    = key !! Z.to_nat (randint 0 63 (rnd (draw + j)%nat)).
Proof.
  induction n as [|n IH]; intros guess draw j Hk Hg Hj; [lia|].
  cbn [overwritten_guess]. cbv zeta.
  set (p0 := Z.to_nat (randint 0 63 (rnd draw))).
  pose proof (drawn_position_lt rnd draw) as Hp0. fold p0 in Hp0.
  destruct (lookup_lt_is_Some_2 key p0 ltac:(lia)) as [x Hx]. rewrite Hx. change (default 0 (Some x)) with x.
  destruct j as [|j].
  - rewrite Nat.add_0_r. fold p0.
    destruct (overwritten_guess_either rnd key n (<[p0 := x]> guess) (S draw) p0 Hk
                ltac:(now rewrite length_insert)) as [H|H]; [exact H|].
    rewrite H, list_lookup_insert_eq by lia. now rewrite Hx.
  - rewrite Nat.add_succ_r.
    apply (IH (<[p0 := x]> guess) (S draw) j Hk); [now rewrite length_insert | lia].
Qed.

(** The guess where no draw fell. *)
Lemma overwritten_guess_not_drawn (rnd : nat -> nat) (key : list Z) n :
  forall guess draw p,
    length key = 64%nat -> length guess = 64%nat ->
    (forall j, (j < n)%nat -> Z.to_nat (randint 0 63 (rnd (draw + j)%nat)) <> p) ->
    overwritten_guess rnd key guess draw n !! p = guess !! p.
Proof.
  induction n as [|n IH]; intros guess draw p Hk Hg Hp; [reflexivity|].
  cbn [overwritten_guess]. cbv zeta.
  set (p0 := Z.to_nat (randint 0 63 (rnd draw))).
  rewrite IH; [| exact Hk | now rewrite length_insert |].
  - apply list_lookup_insert_ne. specialize (Hp 0%nat ltac:(lia)).
    rewrite Nat.add_0_r in Hp. exact Hp.
  - intros j Hj. specialize (Hp (S j) ltac:(lia)).
    now rewrite Nat.add_succ_r in Hp.
Qed.

(** Writing the true bit at a position does not lower the agreement. *)
Lemma count_matches_pointwise (key : list Z) : forall guess final,
  length guess = length key -> length final = length key ->
  (forall p, final !! p = key !! p \/ final !! p = guess !! p) ->
  count_matches key guess <= count_matches key final <= Z.of_nat (length key).
Proof.
  unfold count_matches.
  induction key as [|k key IH]; intros [|g guess] [|f final] Hg Hf Hp;
    try discriminate; [cbn; lia|].
  injection Hg as Hg. injection Hf as Hf.
  specialize (IH guess final Hg Hf (fun p => Hp (S p))).
  cbn [zip zip_with]. rewrite !filter_cons. cbn [fst snd length].
  destruct (Hp 0%nat) as [H0|H0]; cbn in H0; injection H0 as ->.
  - rewrite (decide_True (P := k = k)) by reflexivity.
    destruct (decide (k = g)); cbn [length]; lia.
  - destruct (decide (k = g)); cbn [length]; lia.
Qed.

End OverwriteLoop.

(** X16. The loop of the classic branch of /eve_attack, which copies true
    bits into Eve's list in place. With the key and Eve's list two different
    list objects of 64 elements, the loop returns, changes no other object,
    and leaves in Eve's list: at every position a draw fell on, the bit of the
    true key; at every other position, the bit of the guess. So the number of
    positions at which Eve's list agrees with the key never goes down, and it
    is at most 64. *)
Theorem overwrite_loop_result :
  forall (rnd : nat -> nat) (s : ApiServer.state) (lk le : ApiServer.loc)
         (key guess : list Z) (draw n : nat),
    lk <> le ->
    ApiServer.heap s !! lk = Some key -> length key = 64%nat ->
    ApiServer.heap s !! le = Some guess -> length guess = 64%nat ->
    let position j := Z.to_nat (randint 0 63 (rnd (draw + j)%nat)) in
    exists final,
      ApiServer.overwrite_loop rnd (ApiServer.VList lk) le draw n s
      = (Ok (), ApiServer.State (<[le := final]> (ApiServer.heap s))
                  (ApiServer.next_loc s) (ApiServer._cache s)) /\
      length final = 64%nat /\
      (forall j, (j < n)%nat -> final !! position j = key !! position j) /\
      (forall p, (forall j, (j < n)%nat -> position j <> p) ->
         final !! p = guess !! p) /\
      count_matches key guess <= count_matches key final <= 64.
Proof.
  intros rnd s lk le key guess draw n Hne Hk Hkl Hg Hgl position.
  exists (ApiServer.overwritten_guess rnd key guess draw n).
  split; [now apply overwrite_loop_run|].
  split; [now rewrite overwritten_guess_length|].
  split; [|split].
  - intros j Hj. now apply overwritten_guess_drawn.
  - intros p Hp. now apply overwritten_guess_not_drawn.
  - change 64 with (Z.of_nat 64). rewrite <- Hkl.
    apply count_matches_pointwise;
      [congruence | rewrite overwritten_guess_length; congruence |].
    intros p. now apply overwritten_guess_either.
Qed.

Lemma overwrite_loop_result_witness :
  exists final,
    ApiServer.overwrite_loop (fun i => i) (ApiServer.VList 2%nat) 4%nat 65 3
      (ApiServer.run
         [ApiServer.ReqInitKeys ApiServer.POST (fun i => i) Nat.even Nat.odd]
         ApiServer.initial_state)
    = (Ok (),
       ApiServer.State
         (<[4%nat := final]>
            (ApiServer.heap
               (ApiServer.run
                  [ApiServer.ReqInitKeys ApiServer.POST (fun i => i) Nat.even Nat.odd]
                  ApiServer.initial_state)))
         (ApiServer.next_loc
            (ApiServer.run
               [ApiServer.ReqInitKeys ApiServer.POST (fun i => i) Nat.even Nat.odd]
               ApiServer.initial_state))
         (ApiServer._cache
            (ApiServer.run
               [ApiServer.ReqInitKeys ApiServer.POST (fun i => i) Nat.even Nat.odd]
               ApiServer.initial_state))) /\
    length final = 64%nat /\
    (forall j, (j < 3)%nat ->
       final !! Z.to_nat (randint 0 63 (65 + j)%nat)
       = ApiServer.random_bits (fun i => i) 0 !! Z.to_nat (randint 0 63 (65 + j)%nat)) /\
    (forall p,
       (forall j, (j < 3)%nat -> Z.to_nat (randint 0 63 (65 + j)%nat) <> p) ->
       final !! p = map (fun i => Z.b2z (Nat.odd i)) (seq 0 64) !! p) /\
    count_matches (ApiServer.random_bits (fun i => i) 0)
      (map (fun i => Z.b2z (Nat.odd i)) (seq 0 64))
    <= count_matches (ApiServer.random_bits (fun i => i) 0) final <= 64.
Proof.
  apply (overwrite_loop_result (fun i => i)
           (ApiServer.run
              [ApiServer.ReqInitKeys ApiServer.POST (fun i => i) Nat.even Nat.odd]
              ApiServer.initial_state)
           2%nat 4%nat (ApiServer.random_bits (fun i => i) 0)
           (map (fun i => Z.b2z (Nat.odd i)) (seq 0 64)) 65 3).
  - discriminate.
  - vm_compute. reflexivity.
  - reflexivity.
  - vm_compute. reflexivity.
  - reflexivity.
Defined.

(** X17. /eve_attack on the classic key, in every state the server can
    reach with both keys initialized. The classic and the quantum key are
    not touched. When more than 48 positions of Eve's overwritten guess
    match ("cracked"), the response holds the first 16 bits of the classic
    key itself, and Eve's entry in the cache becomes the very list object of
    the classic key; otherwise ("progress") the response holds the first 16
    bits of the overwritten guess, which is a list object of its own and
    Eve's key from then on. *)
Theorem eve_attack_classic_result :
  forall (requests : list ApiServer.request)
         (data : gmap string ApiServer.json_value)
         (rnd : nat -> nat) (measure : nat -> bool) (key eve : list Z),
    let s := ApiServer.run requests ApiServer.initial_state in
    let request :=
      ApiServer.ReqEveAttack (Ok (ApiServer.JsonObject data)) rnd measure in
    let resp := fst (ApiServer.step request s) in
    let s' := snd (ApiServer.step request s) in
    let final :=
      ApiServer.overwritten_guess rnd key (ApiServer.random_bits rnd 0) 65
        (Z.to_nat (randint 32 58 (rnd 64%nat))) in
    let matches := count_matches key final in
    let entry role :=
      ApiServer.lookup_cache (ApiServer._cache s') "keys" (Some role) in
    data !! "key_type"
      = Some (ApiServer.JsonString (ApiServer.code_points "classic")) ->
    ApiServer.cached_key s "classic" = Some key ->
    ApiServer.cached_key s "eve" = Some eve ->
    ApiServer.cached_key s' "classic" = Some key /\
    ApiServer.cached_key s' "quantum" = ApiServer.cached_key s "quantum" /\
    (48 < matches ->
       ApiServer.body resp !! "eve_key" = Some (ApiServer.JBits (take 16 key)) /\
       entry "eve" = entry "classic" /\
       ApiServer.cached_key s' "eve" = Some key) /\
    (matches <= 48 ->
       ApiServer.body resp !! "eve_key" = Some (ApiServer.JBits (take 16 final)) /\
       entry "eve" <> entry "classic" /\
       ApiServer.cached_key s' "eve" = Some final).
Proof.
  intros requests data rnd measure key eve s request resp s' final matches entry
         Hkt Hkey Heve.
  pose proof (run_invariant requests _ invariant_initial) as Hinv. fold s in Hinv.
  pose proof Hinv as [Hh _].
  destruct (cached_key_inv _ _ _ Hkey) as (lk & Hl & Hk).
  destruct (cached_key_inv _ _ _ Heve) as (le0 & Hle & Hhe).
  destruct (cached_key_spec s "classic" key Hinv classic_role Hkey) as [Hlen _].
  destruct (cached_key_spec s "eve" eve Hinv eve_role Heve) as [Helen _].
  pose proof (eve_attack_classic_full s data rnd measure lk key le0 eve
                Hh Hkt Hl Hk Hlen Hle Hhe (key64_nonempty eve Helen)) as Hrun.
  cbv zeta in Hrun. fold final matches in Hrun.
  set (guess := ApiServer.random_bits rnd 0) in *.
  destruct (after_guess s guess Hh) as (Hev2 & Hother2 & Eh2 & En2).
  set (s2 := snd (ApiServer.cache_set "keys" "eve" (ApiServer.VList (ApiServer.next_loc s))
                    (snd (ApiServer.new_list guess s)))) in *.
  set (s3 := ApiServer.State (<[ApiServer.next_loc s := final]> (ApiServer.heap s2))
               (ApiServer.next_loc s2) (ApiServer._cache s2)) in *.
  pose proof (Hh _ _ Hk) as [Hlk _].
  assert (Eh3 : ApiServer.heap s3
                = <[ApiServer.next_loc s := final]> (ApiServer.heap s))
    by (cbn [s3 ApiServer.heap]; rewrite Eh2; apply insert_insert_eq).
  assert (Hold : forall l bits,
            ApiServer.heap s !! l = Some bits -> ApiServer.heap s3 !! l = Some bits).
  { apply old_objects_kept; [exact Hh|]. intros l Hlt.
    rewrite Eh3. now rewrite lookup_insert_ne by lia. }
  assert (Hstep : ApiServer.step request s
                  = ApiServer.try_except
                      (ApiServer.eve_attack (Ok (ApiServer.JsonObject data)) rnd measure) s)
    by reflexivity.
  subst entry. unfold resp, s'. rewrite Hstep.
  destruct (Z.ltb_spec 48 matches) as [Hm|Hm].
  - rewrite (try_except_ok _ _ _ _ Hrun). cbn [fst snd ApiServer.body].
    set (s5 := snd (ApiServer.cache_set "keys" "eve" (ApiServer.VList lk) s3)).
    assert (Hl5 : forall role, role ∈ ApiServer.roles ->
              ApiServer.lookup_cache (ApiServer._cache s5) "keys" (Some role)
              = if decide ("eve" = role) then ApiServer.VList lk
                else ApiServer.lookup_cache (ApiServer._cache s2) "keys" (Some role)).
    { intros role Hr. unfold s5.
      now rewrite lookup_cache_set by (discriminate || now apply role_nonempty). }
    assert (Hc5 : ApiServer.lookup_cache (ApiServer._cache s5) "keys" (Some "classic")
                  = ApiServer.VList lk).
    { rewrite (Hl5 "classic" classic_role). rewrite decide_False by discriminate.
      rewrite Hother2 by (exact classic_role || discriminate). exact Hl. }
    split; [|split; [|split]].
    + unfold ApiServer.cached_key. rewrite Hc5. now apply Hold.
    + apply cached_key_frame; [exact Hinv | exact quantum_role | | exact Hold].
      rewrite (Hl5 "quantum" quantum_role). rewrite decide_False by discriminate.
      apply Hother2; [exact quantum_role | discriminate].
    + intros _. split; [now rewrite !lookup_insert_ne, lookup_insert_eq by discriminate|].
      split.
      * rewrite Hc5, (Hl5 "eve" eve_role). now rewrite decide_True by reflexivity.
      * unfold ApiServer.cached_key. rewrite (Hl5 "eve" eve_role).
        rewrite decide_True by reflexivity. now apply Hold.
    + intros Hle48. lia.
  - rewrite (try_except_ok _ _ _ _ Hrun). cbn [fst snd ApiServer.body].
    assert (Hc3 : ApiServer.lookup_cache (ApiServer._cache s3) "keys" (Some "classic")
                  = ApiServer.VList lk).
    { cbn [s3 ApiServer._cache].
      rewrite Hother2 by (exact classic_role || discriminate). exact Hl. }
    assert (He3 : ApiServer.lookup_cache (ApiServer._cache s3) "keys" (Some "eve")
                  = ApiServer.VList (ApiServer.next_loc s))
      by exact Hev2.
    split; [|split; [|split]].
    + unfold ApiServer.cached_key. rewrite Hc3. now apply Hold.
    + apply cached_key_frame; [exact Hinv | exact quantum_role | | exact Hold].
      cbn [s3 ApiServer._cache]. apply Hother2; [exact quantum_role | discriminate].
    + intros H48. lia.
    + intros _. split; [now rewrite !lookup_insert_ne, lookup_insert_eq by discriminate|].
      split.
      * rewrite Hc3, He3. intros [= E]. lia.
      * unfold ApiServer.cached_key. rewrite He3, Eh3. apply lookup_insert_eq.
Qed.

Lemma eve_attack_classic_result_witness :
  ApiServer.cached_key
    (snd (ApiServer.step
            (ApiServer.ReqEveAttack
               (Ok (ApiServer.JsonObject
                      (<["key_type" := ApiServer.JsonString (ApiServer.code_points "classic")]> ∅)))
               S Nat.even)
            (ApiServer.run
               [ApiServer.ReqInitKeys ApiServer.POST (fun i => i) Nat.even Nat.odd]
               ApiServer.initial_state)))
    "classic"
  = Some (ApiServer.random_bits (fun i => i) 0).
Proof.
  refine (proj1
    (eve_attack_classic_result
       [ApiServer.ReqInitKeys ApiServer.POST (fun i => i) Nat.even Nat.odd]
       (<["key_type" := ApiServer.JsonString (ApiServer.code_points "classic")]> ∅)
       S Nat.even
       (ApiServer.random_bits (fun i => i) 0)
       (map (fun i => Z.b2z (Nat.odd i)) (seq 0 64))
       _ _ _)).
  - reflexivity.
  - vm_compute. reflexivity.
  - vm_compute. reflexivity.
Defined.

(** ** Further properties of keydes.py *)

Section Session.
Import KeyDes.

(** When the loop ends, it ends with the key of the last attempt, and that
    key has at least 64 bits. *)
Lemma regenerate_key_result outcomes fuel : forall attempt key retries,
  regenerate_key fuel outcomes attempt = Some (key, retries) ->
  key = attempt_key outcomes retries /\ (64 <= length key)%nat.
Proof.
  induction fuel as [|fuel IH]; intros attempt key retries H; [discriminate H|].
  rewrite regenerate_key_step in H.
  destruct (Nat.leb_spec 64 (length (attempt_key outcomes attempt))) as [Hl|Hl].
  - injection H as <- <-. split; [reflexivity | exact Hl].
  - now apply IH in H.
Qed.

(** The bits of an agreed key are bits Alice measured. *)
Lemma attempt_key_bits outcomes n :
  (forall attempt i, is_bit (QuantumKey.alice_bit (outcomes attempt i))) ->
  Forall is_bit (attempt_key outcomes n).
Proof.
  intros Hbits. unfold attempt_key.
  pose proof (quantum_key_distribution_shape_aux (outcomes n) target_key_length) as H.
  destruct (QuantumKey.quantum_key_distribution (outcomes n) target_key_length)
    as [[[shared_key alice_bits] bob_bits] matching_bases] eqn:E.
  cbn [fst].
  assert (Es : shared_key = alice_bits).
  { unfold QuantumKey.quantum_key_distribution in E. now injection E as <- <- _ _. }
  destruct H as [Ha _]. rewrite Es, Ha.
  apply Forall_map, Forall_forall. intros i _. apply Hbits.
Qed.

End Session.

(** X18. From the key-regeneration loop to the cloud. Before the session
    gives them a cipher, [send_encrypted_data] and [process_encrypted_data]
    raise [ValueError]. Whenever the loop of
    [simulate_iot_cloud_communication] ends, with measured bits that are 0
    or 1, the 64-bit key it yields is accepted by [QuantumDES], and every
    printable-ASCII message the IoT device sends encrypted is decrypted by
    the cloud server to the same message. *)
Theorem iot_to_cloud_round_trip :
  forall (outcomes : nat -> nat -> QuantumKey.trial) (fuel retries : nat)
         (shared_key message : list Z) (device_id sensor_type server_id : string),
    KeyDes.establish_shared_key fuel outcomes = Some (shared_key, retries) ->
    (forall attempt i, is_bit (QuantumKey.alice_bit (outcomes attempt i))) ->
    Forall Utf8.printable_ascii message ->
    KeyDes.IoTDevice.send_encrypted_data
      (KeyDes.IoTDevice.init device_id sensor_type) message = Raise ValueError /\
    (forall data,
       KeyDes.CloudServer.process_encrypted_data
         (KeyDes.CloudServer.init server_id) data = Raise ValueError) /\
    length shared_key = 64%nat /\
    exists qdes encrypted_data,
      KeyDes.QuantumDES.init shared_key = Ok qdes /\
      KeyDes.IoTDevice.send_encrypted_data
        (KeyDes.IoTDevice.Build device_id sensor_type (Some qdes)) message
      = Ok encrypted_data /\
      KeyDes.CloudServer.process_encrypted_data
        (KeyDes.CloudServer.Build server_id (Some qdes)) encrypted_data
      = Ok message.
Proof.
  intros outcomes fuel retries shared_key message device_id sensor_type server_id
         Hloop Hbits Hmsg.
  split; [reflexivity|]. split; [reflexivity|].
  unfold KeyDes.establish_shared_key in Hloop.
  destruct (KeyDes.regenerate_key fuel outcomes 0) as [[key n]|] eqn:E;
    [|discriminate Hloop].
  assert (Hs : shared_key = take 64 key /\ retries = n)
    by (cbn in Hloop; injection Hloop as H1 H2; split; symmetry; assumption).
  destruct Hs as [-> ->].
  destruct (regenerate_key_result outcomes fuel 0%nat key n E) as [-> Hlen].
  pose proof (attempt_key_bits outcomes n Hbits) as Hb.
  assert (Hl64 : length (take 64 (KeyDes.attempt_key outcomes n)) = 64%nat)
    by (rewrite length_take; lia).
  split; [exact Hl64|].
  destruct (quantum_des_key_spec (take 64 (KeyDes.attempt_key outcomes n))
              ltac:(now apply Forall_take) ltac:(lia)) as (key8 & Hq & Hkey8 & _).
  destruct (adapter_round_trip key8 message Hkey8 Hmsg) as (encrypted & Henc & Hdec).
  exists (KeyDes.QuantumDES.Build key8), encrypted.
  unfold KeyDes.QuantumDES.init. rewrite Hq. auto.
Qed.

Lemma iot_to_cloud_round_trip_witness :
  KeyDes.IoTDevice.send_encrypted_data
    (KeyDes.IoTDevice.init "IOT001" "Environmental_Sensor") [72; 105]
  = Raise ValueError /\
  (forall data,
     KeyDes.CloudServer.process_encrypted_data
       (KeyDes.CloudServer.init "CLOUD001") data = Raise ValueError) /\
  length (replicate 64 1) = 64%nat /\
  exists qdes encrypted_data,
    KeyDes.QuantumDES.init (replicate 64 1) = Ok qdes /\
    KeyDes.IoTDevice.send_encrypted_data
      (KeyDes.IoTDevice.Build "IOT001" "Environmental_Sensor" (Some qdes)) [72; 105]
    = Ok encrypted_data /\
    KeyDes.CloudServer.process_encrypted_data
      (KeyDes.CloudServer.Build "CLOUD001" (Some qdes)) encrypted_data
    = Ok [72; 105].
Proof.
  apply (iot_to_cloud_round_trip (fun _ _ => QuantumKey.Trial 0 0 1 1) 1 0
           (replicate 64 1) [72; 105] "IOT001" "Environmental_Sensor" "CLOUD001").
  - vm_compute. reflexivity.
  - intros attempt i. right. reflexivity.
  - repeat constructor; unfold Utf8.printable_ascii; lia.
Defined.

(** ** The key bits the cipher uses *)

Section ParityBits.
Import Des.

(** The bits of a byte as booleans and as integers. *)
Lemma bits_of_byte_odd (b : byte) : bits_of_byte b = map Z.odd (byte_bits b).
Proof. destruct b; reflexivity. Qed.

Lemma bits_of_bytes_odd (bs : list byte) :
  bits_of_bytes bs = map Z.odd (concat (map byte_bits bs)).
Proof.
  unfold bits_of_bytes. induction bs as [|b bs IH]; [reflexivity|].
  cbn [map concat]. now rewrite map_app, IH, bits_of_byte_odd.
Qed.

(** The first permuted choice reads no position 8, 16, ..., 64. *)
Lemma permuted_choice_1_skips_parity :
  Forall (fun i => ((i - 1) mod 8 <> 7)%nat) permuted_choice_1.
Proof.
  unfold permuted_choice_1.
  repeat (constructor; [intros H; vm_compute in H; discriminate H|]).
  constructor.
Qed.

(** Keys that agree outside these positions have the same sub-keys. *)
Lemma key_schedule_parity (key key' : list bool) :
  (forall i, (i mod 8 <> 7)%nat -> key !! i = key' !! i) ->
  key_schedule key = key_schedule key'.
Proof.
  intros Hsame. unfold key_schedule.
  replace (permute permuted_choice_1 key') with (permute permuted_choice_1 key);
    [reflexivity|].
  unfold permute. apply map_ext_Forall.
  eapply Forall_impl; [apply permuted_choice_1_skips_parity|].
  intros i Hi. cbv beta in Hi. rewrite !nth_lookup. now rewrite (Hsame _ Hi).
Qed.

Lemma encrypt_block_parity (key key' : list byte) :
  key_schedule (bits_of_bytes key) = key_schedule (bits_of_bytes key') ->
  encrypt_block key = encrypt_block key' /\ decrypt_block key = decrypt_block key'.
Proof.
  intros H. unfold encrypt_block, decrypt_block. rewrite H. split; reflexivity.
Qed.

End ParityBits.

(** X19. Of the 64 bits of a key the cipher uses 56. Two 64-bit keys that
    agree everywhere except at the last bit of some bytes (positions 8, 16,
    ..., 64 counted from 1) make ciphers that encrypt every message to the
    same ciphertext and decrypt every ciphertext to the same result, in
    [OptimizedQuantumDES] and in [QuantumDES] alike. *)
Theorem key_parity_bits_unused :
  forall key_bits key_bits' : list Z,
    length key_bits = 64%nat -> length key_bits' = 64%nat ->
    Forall is_bit key_bits -> Forall is_bit key_bits' ->
    (forall i, (i mod 8 <> 7)%nat -> key_bits !! i = key_bits' !! i) ->
    (exists cipher cipher',
       ApiServer.OptimizedQuantumDES.init key_bits = Ok cipher /\
       ApiServer.OptimizedQuantumDES.init key_bits' = Ok cipher' /\
       forall text,
         ApiServer.OptimizedQuantumDES.encrypt cipher text
         = ApiServer.OptimizedQuantumDES.encrypt cipher' text /\
         ApiServer.OptimizedQuantumDES.decrypt cipher text
         = ApiServer.OptimizedQuantumDES.decrypt cipher' text) /\
    (exists cipher cipher',
       KeyDes.QuantumDES.init key_bits = Ok cipher /\
       KeyDes.QuantumDES.init key_bits' = Ok cipher' /\
       forall text,
         KeyDes.QuantumDES.encrypt cipher text = KeyDes.QuantumDES.encrypt cipher' text /\
         KeyDes.QuantumDES.decrypt cipher text = KeyDes.QuantumDES.decrypt cipher' text).
Proof.
  intros key_bits key_bits' Hlen Hlen' Hbits Hbits' Hsame.
  assert (Hks : forall key8 key8' : list byte,
            concat (map byte_bits key8) = key_bits ->
            concat (map byte_bits key8') = key_bits' ->
            Des.encrypt_block key8 = Des.encrypt_block key8' /\
            Des.decrypt_block key8 = Des.decrypt_block key8').
  { intros key8 key8' E E'. apply encrypt_block_parity.
    rewrite !bits_of_bytes_odd, E, E'. apply key_schedule_parity.
    intros i Hi. rewrite !list_lookup_fmap. now rewrite (Hsame i Hi). }
  assert (Htake : forall l : list Z, length l = 64%nat -> take 64 l = l)
    by (intros l Hl; apply take_ge; lia).
  split.
  - destruct (optimized_init_spec key_bits Hbits) as (key8 & Hinit & Hl8 & E).
    destruct (optimized_init_spec key_bits' Hbits') as (key8' & Hinit' & Hl8' & E').
    rewrite Hlen in E. rewrite Hlen' in E'.
    cbn [Nat.sub replicate] in E, E'. rewrite app_nil_r, Htake in E, E' by assumption.
    destruct (Hks key8 key8' E E') as [He Hd].
    exists (ApiServer.OptimizedQuantumDES.Build key8),
           (ApiServer.OptimizedQuantumDES.Build key8').
    split; [exact Hinit|]. split; [exact Hinit'|]. intros text.
    unfold ApiServer.OptimizedQuantumDES.encrypt, ApiServer.OptimizedQuantumDES.decrypt,
      Des.new, Des.encrypt, Des.decrypt.
    cbn [ApiServer.OptimizedQuantumDES.key]. rewrite Hl8, Hl8'.
    cbn [Nat.eqb mbind result_bind Des.cipher_key]. now rewrite He, Hd.
  - destruct (quantum_des_key_spec key_bits Hbits ltac:(lia)) as (key8 & Hinit & Hl8 & E).
    destruct (quantum_des_key_spec key_bits' Hbits' ltac:(lia))
      as (key8' & Hinit' & Hl8' & E').
    rewrite Htake in E, E' by assumption.
    destruct (Hks key8 key8' E E') as [He Hd].
    exists (KeyDes.QuantumDES.Build key8), (KeyDes.QuantumDES.Build key8').
    unfold KeyDes.QuantumDES.init. rewrite Hinit, Hinit'.
    split; [reflexivity|]. split; [reflexivity|]. intros text.
    unfold KeyDes.QuantumDES.encrypt, KeyDes.QuantumDES.decrypt,
      Des.new, Des.encrypt, Des.decrypt.
    cbn [KeyDes.QuantumDES.key]. rewrite Hl8, Hl8'.
    cbn [Nat.eqb mbind result_bind Des.cipher_key]. now rewrite He, Hd.
Qed.

Lemma key_parity_bits_unused_witness :
  exists cipher cipher',
    ApiServer.OptimizedQuantumDES.init (replicate 64 0) = Ok cipher /\
    ApiServer.OptimizedQuantumDES.init
      (concat (replicate 8 [0; 0; 0; 0; 0; 0; 0; 1])) = Ok cipher' /\
    forall text,
      ApiServer.OptimizedQuantumDES.encrypt cipher text
      = ApiServer.OptimizedQuantumDES.encrypt cipher' text /\
      ApiServer.OptimizedQuantumDES.decrypt cipher text
      = ApiServer.OptimizedQuantumDES.decrypt cipher' text.
Proof.
  refine (proj1 (key_parity_bits_unused (replicate 64 0)
                   (concat (replicate 8 [0; 0; 0; 0; 0; 0; 0; 1])) _ _ _ _ _)).
  - reflexivity.
  - reflexivity.
  - cbn. each_bit.
  - cbn. each_bit.
  - intros i Hi.
    do 64 (destruct i as [|i];
           [first [reflexivity | exfalso; apply Hi; reflexivity]|]).
    reflexivity.
Defined.

(** ** The circuit pool *)

Section CircuitPool.

Variable circuit : Type.
Variable bell_circuit : circuit.
Variable reset : circuit -> circuit.

Local Abbreviation get_circuit := (ApiServer.get_circuit circuit bell_circuit).
Local Abbreviation return_circuit := (ApiServer.return_circuit circuit reset).
Local Abbreviation circuits := (ApiServer.circuits circuit).
Local Abbreviation pool_size := (ApiServer.pool_size circuit).

(** The number of circuits after [get_circuit]: an empty pool is filled
    first, then one circuit is taken, if there is one. *)
Lemma get_circuit_count (p : ApiServer.pool circuit) :
  length (circuits (snd (get_circuit p)))
  = ((if (length (circuits p) =? 0)%nat then Z.to_nat (pool_size p)
      else length (circuits p)) - 1)%nat /\
  pool_size (snd (get_circuit p)) = pool_size p.
Proof.
  unfold ApiServer.get_circuit.
  assert (Hpop : forall q : ApiServer.pool circuit,
            length (circuits
                      (snd (match last (circuits q) with
                            | Some c => (c, ApiServer.Pool circuit (pool_size q)
                                              (removelast (circuits q)))
                            | None => (ApiServer._create_new_circuit circuit bell_circuit, q)
                            end)))
            = (length (circuits q) - 1)%nat /\
            pool_size
              (snd (match last (circuits q) with
                    | Some c => (c, ApiServer.Pool circuit (pool_size q)
                                      (removelast (circuits q)))
                    | None => (ApiServer._create_new_circuit circuit bell_circuit, q)
                    end))
            = pool_size q).
  { intros [size l]. cbn [ApiServer.circuits ApiServer.pool_size].
    destruct l as [|x l _] using rev_ind; [split; reflexivity|].
    rewrite last_snoc. cbn [snd ApiServer.circuits ApiServer.pool_size].
    rewrite removelast_last, length_app. cbn [length]. split; [lia | reflexivity]. }
  destruct (Nat.eqb_spec (length (circuits p)) 0) as [E|E].
  - rewrite bool_decide_eq_true_2 by exact E.
    destruct (Hpop (ApiServer._initialize_pool circuit bell_circuit p)) as [H1 H2].
    rewrite H1, H2. unfold ApiServer._initialize_pool.
    cbn [ApiServer.circuits ApiServer.pool_size].
    rewrite length_app, length_replicate, E. split; [lia | reflexivity].
  - rewrite bool_decide_eq_false_2 by exact E. apply Hpop.
Qed.

Lemma return_circuit_count (p : ApiServer.pool circuit) (c : circuit) :
  length (circuits (return_circuit p c))
  = (if Z.of_nat (length (circuits p)) <? pool_size p
     then S (length (circuits p)) else length (circuits p)) /\
  pool_size (return_circuit p c) = pool_size p.
Proof.
  unfold ApiServer.return_circuit.
  destruct (Z.of_nat (length (circuits p)) <? pool_size p);
    cbn [ApiServer.circuits ApiServer.pool_size];
    rewrite ?length_app; cbn [length]; split; (lia || reflexivity).
Qed.

(** Every call keeps the pool within its size. *)
Lemma pool_calls_bound (calls : list (option circuit)) :
  forall p : ApiServer.pool circuit,
    Z.of_nat (length (circuits p)) <= Z.max (pool_size p) 0 ->
    let p' :=
      fold_left
        (fun q (returned : option circuit) =>
           match returned with
           | None => snd (get_circuit q)
           | Some c => return_circuit q c
           end) calls p in
    Z.of_nat (length (circuits p')) <= Z.max (pool_size p') 0 /\
    pool_size p' = pool_size p.
Proof.
  induction calls as [|[c|] calls IH]; intros p Hp; cbn [fold_left].
  - split; [exact Hp | reflexivity].
  - destruct (return_circuit_count p c) as [Hc Hs].
    destruct (IH (return_circuit p c)) as [H1 H2].
    + rewrite Hc, Hs. destruct (Z.ltb_spec (Z.of_nat (length (circuits p))) (pool_size p)); lia.
    + split; [exact H1 | congruence].
  - destruct (get_circuit_count p) as [Hc Hs].
    destruct (IH (snd (get_circuit p))) as [H1 H2].
    + rewrite Hc, Hs. destruct (length (circuits p) =? 0)%nat; lia.
    + split; [exact H1 | congruence].
Qed.

End CircuitPool.

(** X20. [QuantumCircuitPool]: after any sequence of [get_circuit] and
    [return_circuit] calls on a new pool, the pool holds at most [pool_size]
    circuits (none when [pool_size] is 0 or less, where every [get_circuit]
    makes a new circuit instead). A [get_circuit] followed by the
    [return_circuit] of that circuit, as [generate_quantum_key] does, leaves
    as many circuits as there were, or the full [pool_size] when the pool
    was empty. *)
Theorem circuit_pool_bound :
  forall (circuit : Type) (bell_circuit : circuit) (reset : circuit -> circuit)
         (size : Z) (calls : list (option circuit)) (c : circuit),
    let call p (returned : option circuit) :=
      match returned with
      | None => snd (ApiServer.get_circuit circuit bell_circuit p)
      | Some c => ApiServer.return_circuit circuit reset p c
      end in
    let p := fold_left call calls
               (ApiServer.QuantumCircuitPool_init circuit bell_circuit size) in
    let count q := length (ApiServer.circuits circuit q) in
    Z.of_nat (count p) <= Z.max size 0 /\
    count (ApiServer.QuantumCircuitPool_init circuit bell_circuit size)
    = Z.to_nat size /\
    count (ApiServer.return_circuit circuit reset
             (snd (ApiServer.get_circuit circuit bell_circuit p)) c)
    = (if (count p =? 0)%nat then Z.to_nat size else count p).
Proof.
  intros circuit bell_circuit reset size calls c call p count.
  assert (Hinit : count (ApiServer.QuantumCircuitPool_init circuit bell_circuit size)
                  = Z.to_nat size)
    by (unfold count, ApiServer.QuantumCircuitPool_init, ApiServer._initialize_pool;
        cbn [ApiServer.circuits ApiServer.pool_size app]; apply length_replicate).
  destruct (pool_calls_bound circuit bell_circuit reset calls
              (ApiServer.QuantumCircuitPool_init circuit bell_circuit size))
    as [Hbound Hsize].
  { fold (count (ApiServer.QuantumCircuitPool_init circuit bell_circuit size)).
    rewrite Hinit. cbn [ApiServer.QuantumCircuitPool_init ApiServer._initialize_pool
                        ApiServer.pool_size]. lia. }
  fold call in Hbound, Hsize. fold p in Hbound, Hsize.
  change (ApiServer.pool_size circuit
            (ApiServer.QuantumCircuitPool_init circuit bell_circuit size))
    with size in Hsize.
  rewrite Hsize in Hbound.
  split; [exact Hbound|]. split; [exact Hinit|].
  unfold count.
  destruct (return_circuit_count circuit reset
              (snd (ApiServer.get_circuit circuit bell_circuit p)) c) as [Hr _].
  destruct (get_circuit_count circuit bell_circuit p) as [Hg Hgs].
  rewrite Hr, Hg, Hgs, Hsize.
  destruct (Nat.eqb_spec (length (ApiServer.circuits circuit p)) 0) as [E|E].
  - destruct (Z.ltb_spec (Z.of_nat (Z.to_nat size - 1)) size); lia.
  - destruct (Z.ltb_spec (Z.of_nat (length (ApiServer.circuits circuit p) - 1)) size);
      lia.
Qed.
